(** * Nero Party: the session core of the backend server

    A shallow embedding of [backend/src/index.ts] (the Express handlers
    and their Prisma calls) together with the table layout of the two
    migrations, followed by the properties of the session state machine:
    queue positions, vote toggling, the playback clock, the end-of-party
    ranking, and the order of the Socket.IO publications.

    Conventions of the embedding.
    - A [Date] is its [getTime()] value, a [Z] of milliseconds.
    - A JavaScript number that can be non-finite is a [Number]; the finite
      ones are exact rationals, so the rounding of doubles is not
      modelled.  Integer columns are [Z].
    - A request field read as [String(req.body?.x ?? "")] is the [string]
      that expression evaluates to.
    - A table is the list of its rows in insertion order.  A Prisma call
      that breaks a primary key or a unique index throws [P2002].
    - Foreign keys are not checked: a handler writes a reference only to
      a row it has just read, and no handler deletes a party, a
      participant or a song.
    - A string is a sequence of ASCII characters; on such strings
      [toUpperCase] and [trim] below are those of JavaScript.  Letters and
      white space outside ASCII are not modelled.
    - Rows are read in insertion order where the query leaves the order
      open (equal [orderBy] keys, the votes of a song).  The properties
      about these rows are stated with membership, [NoDup] and
      [Permutation], not with that order.
    - Handlers run one at a time: a handler is a function from the world
      (database and effect log) to a reply and the next world.  The server
      has no lock around a handler, so calls can overlap between the
      awaits of a handler; EndSession is also given await by await,
      with other calls served before each of its later queries. *)

From Stdlib Require Import ZArith QArith List String Ascii Bool Lia.
From Stdlib Require Import Sorting.Sorted Sorting.Permutation.
Import ListNotations.
Local Open Scope Z_scope.
Local Open Scope string_scope.
Local Open Scope list_scope.

Set Implicit Arguments.

(** ** JavaScript values *)

Module Js.

(** The white space that [String.prototype.trim] strips, restricted to the
    one-byte characters: TAB, LF, VT, FF, CR and SPACE. *)
Definition isWhiteSpace (c : ascii) : bool :=
  let n := N_of_ascii c in
  ((9 <=? n)%N && (n <=? 13)%N) || (n =? 32)%N.

Fixpoint trimStart (s : string) : string :=
  match s with
  | EmptyString => EmptyString
  | String c t => if isWhiteSpace c then trimStart t else s
  end.

Fixpoint trimEnd (s : string) : string :=
  match s with
  | EmptyString => EmptyString
  | String c t =>
      match trimEnd t with
      | EmptyString => if isWhiteSpace c then EmptyString else String c EmptyString
      | t' => String c t'
      end
  end.

Definition trim (s : string) : string := trimEnd (trimStart s).

(** [String.prototype.toUpperCase] on the letters a-z; other characters
    are kept. *)
Definition upperChar (c : ascii) : ascii :=
  let n := N_of_ascii c in
  if ((97 <=? n)%N && (n <=? 122)%N)%bool then ascii_of_N (n - 32) else c.

Fixpoint toUpperCase (s : string) : string :=
  match s with
  | EmptyString => EmptyString
  | String c t => String (upperChar c) (toUpperCase t)
  end.

(** [!s] for a string [s]: only the empty string is falsy. *)
Definition not_ (s : string) : bool :=
  match s with EmptyString => true | _ => false end.

(** [s || null] for a string [s]. *)
Definition orNull (s : string) : option string :=
  if not_ s then None else Some s.

(** A value of type [number]; [Number.isFinite] holds of [Finite q] alone. *)
Inductive Number : Type :=
| NaN
| Infinity
| NegInfinity
| Finite (q : Q).

(** [Math.max(0, x)] for a finite [x]. *)
Definition max0 (x : Q) : Q := if Qle_bool 0 x then x else 0%Q.

End Js.

(** ** The tables (prisma/migrations) *)

Abbreviation Id := string (only parsing).
Abbreviation Date := Z (only parsing).

Inductive PartyStatus := ACTIVE | ENDED.
Inductive PlaybackStatus := PLAYING | PAUSED.

Module Party.
Record t := mk {
  id : Id;
  code : string;
  name : string;
  hostParticipantId : option Id;
  maxSongs : option Z;
  durationMinutes : option Z;
  currentSongId : option Id;
  status : PartyStatus;
  playbackStatus : PlaybackStatus;
  playbackStartedAt : option Date;
  playbackOffsetSec : Q;
  createdAt : Date;
  endedAt : option Date
}.
End Party.

Module Participant.
Record t := mk {
  id : Id;
  partyId : Id;
  name : string;
  isHost : bool;
  joinedAt : Date
}.
End Participant.

Module Song.
Record t := mk {
  id : Id;
  partyId : Id;
  addedById : Id;
  title : string;
  artist : string;
  artworkUrl : option string;
  previewUrl : option string;
  externalUrl : option string;
  queuePosition : Z;
  createdAt : Date
}.
End Song.

Module Vote.
Record t := mk {
  id : Id;
  partyId : Id;
  songId : Id;
  participantId : Id;
  createdAt : Date
}.
End Vote.

Record Db := mkDb {
  parties : list Party.t;
  participants : list Participant.t;
  songs : list Song.t;
  votes : list Vote.t
}.

Definition emptyDb : Db := mkDb [] [] [] [].

(** ** What the handlers send: response bodies and Socket.IO events *)

Record SnapshotSong := mkSnapshotSong {
  ss_song : Song.t;
  ss_voteCount : Z;
  ss_voterIds : list Id
}.

Record PartySnapshot := mkPartySnapshot {
  snap_party : Party.t;
  snap_participants : list Participant.t;
  snap_songs : list SnapshotSong
}.

(** An entry of the standings before it is ranked, and the ranked entry
    [{ ...song, rank }]. *)
Record Entry := mkEntry {
  e_songId : Id;
  e_title : string;
  e_artist : string;
  e_voteCount : Z;
  e_queuePosition : Z
}.

Record Standing := mkStanding {
  st_song : Entry;
  st_rank : Z
}.

Record EndPayload := mkEndPayload {
  winner : option Standing;
  finalStandings : list Standing
}.

Record PlaybackPayload := mkPlaybackPayload {
  pp_playbackStatus : PlaybackStatus;
  pp_playbackStartedAt : option Date;
  pp_playbackOffsetSec : Q
}.

Record VotePayload := mkVotePayload {
  vp_songId : Id;
  vp_voteCount : Z;
  vp_voted : bool
}.

(** The events by their Socket.IO names.  In [party_state_updated] the
    current song is [None] when the payload has no such key. *)
Inductive Event :=
| party_snapshot (snapshot : PartySnapshot)
| queue_updated (songId : Id)
| votes_updated (songId : Id) (voteCount : Z)
| party_state_updated (currentSongId : option (option Id)) (status : PartyStatus)
| party_playback_updated (payload : PlaybackPayload)
| party_ended (payload : EndPayload).

Inductive Table := TParty | TParticipant | TSong | TVote.

(** What a handler does to the outside, in the order it does it. *)
Inductive Effect :=
| DbWrite (table : Table)
| Emit (room : string) (event : Event).

Record World := mkWorld {
  db : Db;
  log : list Effect
}.

(** [res.status(s).json(body)] and [res.status(s).json({ error })]. *)
Inductive Reply (A : Type) :=
| json (status : Z) (body : A)
| error (status : Z) (message : string).
Arguments json {A} status body.
Arguments error {A} status message.

(** ** The monad of a handler body: state and exceptions

    A thrown exception keeps the effects made before it, as in
    JavaScript; only [transaction] undoes them. *)

Inductive Thrown :=
| P2002                       (* unique constraint failed *)
| P2025                       (* record to update or delete not found *)
| PrismaValidation            (* argument of the wrong type *)
| JsError (message : string). (* throw new Error(message) *)

Inductive Outcome (A : Type) :=
| Return (a : A)
| Throw (e : Thrown).
Arguments Return {A} a.
Arguments Throw {A} e.

Definition M (A : Type) := World -> Outcome A * World.

Definition ret {A} (a : A) : M A := fun w => (Return a, w).

Definition throw {A} (e : Thrown) : M A := fun w => (Throw e, w).

Definition bind {A B} (m : M A) (k : A -> M B) : M B :=
  fun w =>
    match m w with
    | (Return a, w') => k a w'
    | (Throw e, w') => (Throw e, w')
    end.

Notation "x <- m ;; k" := (bind m (fun x => k))
  (at level 61, m at next level, right associativity).
Notation "m ;;; k" := (bind m (fun _ => k))
  (at level 61, right associativity).

(** A read of the database. *)
Definition query {A} (f : Db -> A) : M A := fun w => (Return (f (db w)), w).

(** A write to a table. *)
Definition write (table : Table) (f : Db -> Db) : M unit :=
  fun w => (Return tt, mkWorld (f (db w)) (log w ++ [DbWrite table])).

(** [io.to(room).emit(event, payload)]. *)
Definition emit (room : string) (e : Event) : M unit :=
  fun w => (Return tt, mkWorld (db w) (log w ++ [Emit room e])).

(** [prisma.$transaction(async (tx) => ...)]: all the writes or none. *)
Definition transaction {A} (m : M A) : M A :=
  fun w =>
    match m w with
    | (Return a, w') => (Return a, w')
    | (Throw e, _) => (Throw e, w)
    end.

(** [try { ... } catch (error) { ... }] around a handler body. *)
Definition tryCatch {A} (m : M (Reply A)) (handler : Thrown -> Reply A)
  : World -> Reply A * World :=
  fun w =>
    match m w with
    | (Return r, w') => (r, w')
    | (Throw e, w') => (handler e, w')
    end.

(** ** What a request draws from outside the database

    [now] is [new Date()] (and the CURRENT_TIMESTAMP of a column default),
    [newId k] is the [k]-th identifier Prisma generates for a primary key
    during the request, and [random k] is the [k]-th value of
    [Math.floor(Math.random() * alphabet.length)]. *)
Record Env := mkEnv {
  now : Date;
  newId : nat -> Id;
  random : nat -> nat
}.

(** ** Sorting

    [Array.prototype.sort] with a comparator, and [orderBy] of a query:
    a stable sort, written as insertion from the right. *)
Section Sort.
Variable A : Type.
Variable compare : A -> A -> Z.

Fixpoint insertBy (x : A) (l : list A) : list A :=
  match l with
  | [] => [x]
  | y :: t => if (compare x y <=? 0)%Z then x :: y :: t else y :: insertBy x t
  end.

Definition sortBy (l : list A) : list A := fold_right insertBy [] l.
End Sort.

(** [array.map((x, index) => f x index)], counting from [i]. *)
Fixpoint mapi_from {A B} (f : A -> Z -> B) (i : Z) (l : list A) : list B :=
  match l with
  | [] => []
  | x :: t => f x i :: mapi_from f (i + 1) t
  end.

Definition mapi {A B} (f : A -> Z -> B) (l : list A) : list B := mapi_from f 0 l.

(** [new Map(entries).get(key)]: the last entry of that key wins. *)
Definition Map_get (key : Id) (entries : list (Id * Z)) : option Z :=
  option_map snd (find (fun e => fst e =? key) (rev entries)).

(** [x ?? 0]. *)
Definition orZero (x : option Z) : Z :=
  match x with Some n => n | None => 0 end.

(** ** Prisma calls *)

Module Prisma.

(** A value for an [Int?] column: an integral number, or null. *)
Definition intArg (x : option Q) : option (option Z) :=
  match x with
  | None => Some None
  | Some q =>
      let r := Qred q in
      if (Qden r =? 1)%positive then Some (Some (Qnum r)) else None
  end.

Definition party_findUnique (code : string) : M (option Party.t) :=
  query (fun d => find (fun p => Party.code p =? code) (parties d)).

Definition party_songs (d : Db) (party : Party.t) : list Song.t :=
  filter (fun s => Song.partyId s =? Party.id party) (songs d).

Definition party_participants (d : Db) (party : Party.t) : list Participant.t :=
  filter (fun m => Participant.partyId m =? Party.id party) (participants d).

Definition song_votes (d : Db) (song : Song.t) : list Vote.t :=
  filter (fun v => Vote.songId v =? Song.id song) (votes d).

Definition orderBy {A} (key : A -> Z) (l : list A) : list A :=
  sortBy (fun a b => key a - key b) l.

(** [tx.party.create]: the columns not given take the defaults of the
    migrations (status ACTIVE, playback PAUSED at offset 0, no start). *)
Definition party_create (env : Env) (k : nat) (code name : string)
    (maxSongs durationMinutes : option Q) : M Party.t :=
  match intArg maxSongs, intArg durationMinutes with
  | Some maxSongs, Some durationMinutes =>
      let row := Party.mk (newId env k) code name None maxSongs durationMinutes
                   None ACTIVE PAUSED None 0%Q (now env) None in
      clash <- query (fun d =>
        existsb (fun p => (Party.id p =? Party.id row) || (Party.code p =? code))
                (parties d)) ;;
      if clash : bool then throw P2002
      else
        write TParty (fun d =>
          mkDb (parties d ++ [row]) (participants d) (songs d) (votes d)) ;;;
        ret row
  | _, _ => throw PrismaValidation
  end.

Definition party_update (id : Id) (data : Party.t -> Party.t) : M Party.t :=
  found <- query (fun d => find (fun p => Party.id p =? id) (parties d)) ;;
  match found with
  | None => throw P2025
  | Some row =>
      write TParty (fun d =>
        mkDb (map (fun p => if Party.id p =? id then data p else p) (parties d))
             (participants d) (songs d) (votes d)) ;;;
      ret (data row)
  end.

Definition participant_create (env : Env) (k : nat) (partyId : Id)
    (name : string) (isHost : bool) : M Participant.t :=
  let row := Participant.mk (newId env k) partyId name isHost (now env) in
  clash <- query (fun d =>
    existsb (fun m => (Participant.id m =? Participant.id row)
                      || ((Participant.partyId m =? partyId)
                          && (Participant.name m =? name)))
            (participants d)) ;;
  if clash : bool then throw P2002
  else
    write TParticipant (fun d =>
      mkDb (parties d) (participants d ++ [row]) (songs d) (votes d)) ;;;
    ret row.

Definition participant_findFirst (id partyId : Id) : M (option Participant.t) :=
  query (fun d =>
    find (fun m => (Participant.id m =? id) && (Participant.partyId m =? partyId))
         (participants d)).

Definition participant_findFirst_host (id partyId : Id) : M (option Participant.t) :=
  query (fun d =>
    find (fun m => (Participant.id m =? id) && (Participant.partyId m =? partyId)
                   && Participant.isHost m)
         (participants d)).

Definition song_create (env : Env) (k : nat) (partyId addedById : Id)
    (title artist : string) (artworkUrl previewUrl externalUrl : option string)
    (queuePosition : Z) : M Song.t :=
  let row := Song.mk (newId env k) partyId addedById title artist
               artworkUrl previewUrl externalUrl queuePosition (now env) in
  clash <- query (fun d =>
    existsb (fun s => (Song.id s =? Song.id row)
                      || ((Song.partyId s =? partyId)
                          && (Song.queuePosition s =? queuePosition)%Z))
            (songs d)) ;;
  if clash : bool then throw P2002
  else
    write TSong (fun d =>
      mkDb (parties d) (participants d) (songs d ++ [row]) (votes d)) ;;;
    ret row.

Definition song_findFirst (id partyId : Id) : M (option Song.t) :=
  query (fun d =>
    find (fun s => (Song.id s =? id) && (Song.partyId s =? partyId)) (songs d)).

Definition vote_findFirst (songId participantId : Id) : M (option Vote.t) :=
  query (fun d =>
    find (fun v => (Vote.songId v =? songId) && (Vote.participantId v =? participantId))
         (votes d)).

Definition vote_create (env : Env) (k : nat) (partyId songId participantId : Id)
  : M Vote.t :=
  let row := Vote.mk (newId env k) partyId songId participantId (now env) in
  clash <- query (fun d =>
    existsb (fun v => (Vote.id v =? Vote.id row)
                      || ((Vote.songId v =? songId)
                          && (Vote.participantId v =? participantId)))
            (votes d)) ;;
  if clash : bool then throw P2002
  else
    write TVote (fun d =>
      mkDb (parties d) (participants d) (songs d) (votes d ++ [row])) ;;;
    ret row.

Definition vote_delete (id : Id) : M unit :=
  found <- query (fun d => existsb (fun v => Vote.id v =? id) (votes d)) ;;
  if found : bool then
    write TVote (fun d =>
      mkDb (parties d) (participants d) (songs d)
           (filter (fun v => negb (Vote.id v =? id)) (votes d)))
  else throw P2025.

Definition vote_count (songId : Id) : M Z :=
  query (fun d =>
    Z.of_nat (List.length (filter (fun v => Vote.songId v =? songId) (votes d)))).

(** One more vote for [key] in the groups counted so far. *)
Fixpoint bump (key : Id) (groups : list (Id * Z)) : list (Id * Z) :=
  match groups with
  | [] => [(key, 1)]
  | (k, n) :: t => if k =? key then (k, n + 1) :: t else (k, n) :: bump key t
  end.

(** [vote.groupBy({ by: ["songId"], where: { partyId }, _count })] as the
    list of pairs [(songId, _count._all)]. *)
Definition vote_groupBy_songId (partyId : Id) : M (list (Id * Z)) :=
  query (fun d =>
    fold_left (fun groups v => bump (Vote.songId v) groups)
              (filter (fun v => Vote.partyId v =? partyId) (votes d)) []).

End Prisma.

(** ** backend/src/index.ts: helpers *)

Import Js Prisma.

(** [parseOptionalNumber(value)].  The argument is [None] for [null],
    [undefined] and the empty string, and otherwise [Number(value)]. *)
Definition parseOptionalNumber (value : option Number) : option Q :=
  match value with
  | None => None
  | Some parsed => match parsed with Finite q => Some q | _ => None end
  end.

Definition alphabet : string := "ABCDEFGHJKLMNPQRSTUVWXYZ23456789".

(** [alphabet[Math.floor(Math.random() * alphabet.length)]]: the draw is
    an index below the length of the alphabet. *)
Definition pick (draw : nat) : string :=
  match String.get (Nat.modulo draw (String.length alphabet)) alphabet with
  | Some c => String c EmptyString
  | None => EmptyString
  end.

(** The inner loop of [generatePartyCode]: [j] characters from the draws
    [k], [k+1], ... *)
Fixpoint randomCode (env : Env) (k j : nat) : string :=
  match j with
  | O => EmptyString
  | S j' => pick (random env k) ++ randomCode env (S k) j'
  end.

(** The outer loop, with [attempts] rounds left and [i] rounds done. *)
Fixpoint generatePartyCode_loop (env : Env) (attempts i : nat) : M string :=
  match attempts with
  | O => throw (JsError "Could not generate unique party code")
  | S attempts' =>
      let code := randomCode env (6 * i) 6 in
      existing <- party_findUnique code ;;
      match existing with
      | None => ret code
      | Some _ => generatePartyCode_loop env attempts' (S i)
      end
  end.

Definition generatePartyCode (env : Env) : M string :=
  generatePartyCode_loop env 10 0.

Definition snapshotOf (d : Db) (party : Party.t) : PartySnapshot :=
  mkPartySnapshot party
    (orderBy Participant.joinedAt (party_participants d party))
    (map (fun song =>
            mkSnapshotSong song
              (Z.of_nat (List.length (song_votes d song)))
              (map Vote.participantId (song_votes d song)))
         (orderBy Song.queuePosition (party_songs d party))).

Definition getPartySnapshot (code : string) : M (option PartySnapshot) :=
  query (fun d =>
    match find (fun p => Party.code p =? code) (parties d) with
    | None => None
    | Some party => Some (snapshotOf d party)
    end).

Definition requireHost (partyId participantId : Id) : M bool :=
  participant <- participant_findFirst_host participantId partyId ;;
  ret (match participant with Some _ => true | None => false end).

Definition emitPartySnapshot (partyCode : string) : M unit :=
  snapshot <- getPartySnapshot partyCode ;;
  match snapshot with
  | None => ret tt
  | Some snapshot => emit partyCode (party_snapshot snapshot)
  end.

(** ** backend/src/index.ts: the handlers *)

(** The [data] of the update in CreateSession: the host reference. *)
Definition setHost (hostParticipantId : Id) (p : Party.t) : Party.t :=
  Party.mk (Party.id p) (Party.code p) (Party.name p)
    (Some hostParticipantId) (Party.maxSongs p) (Party.durationMinutes p)
    (Party.currentSongId p) (Party.status p)
    (Party.playbackStatus p) (Party.playbackStartedAt p)
    (Party.playbackOffsetSec p) (Party.createdAt p) (Party.endedAt p).

(** POST /api/parties *)
Definition postParties (env : Env) (name hostName : string)
    (maxSongs durationMinutes : option Number)
  : World -> Reply (Party.t * Participant.t) * World :=
  tryCatch
    (let name := trim name in
     let hostName := trim hostName in
     let maxSongs := parseOptionalNumber maxSongs in
     let durationMinutes := parseOptionalNumber durationMinutes in
     if not_ name || not_ hostName then
       ret (error 400 "name and hostName are required")
     else
       code <- generatePartyCode env ;;
       result <- transaction
         (party <- party_create env 0 code name maxSongs durationMinutes ;;
          participant <- participant_create env 1 (Party.id party) hostName true ;;
          party_update (Party.id party)
            (setHost (Participant.id participant)) ;;;
          ret (party, participant)) ;;
       ret (json 201 result))
    (fun _ => error 500 "Failed to create party").

(** The columns [id], [code], [name], [status] selected by the join. *)
Definition JoinedParty : Type := Id * string * string * PartyStatus.

(** POST /api/parties/:code/join *)
Definition postJoin (env : Env) (code name : string)
  : World -> Reply (JoinedParty * Participant.t) * World :=
  tryCatch
    (let code := toUpperCase code in
     let name := trim name in
     if not_ name then ret (error 400 "name is required")
     else
       party <- party_findUnique code ;;
       match party with
       | None => ret (error 404 "Party not found")
       | Some party =>
           match Party.status party with
           | ENDED => ret (error 409 "Party already ended")
           | ACTIVE =>
               participant <- participant_create env 0 (Party.id party) name false ;;
               emitPartySnapshot code ;;;
               ret (json 200
                      ((Party.id party, Party.code party, Party.name party,
                        Party.status party), participant))
           end
       end)
    (fun e =>
       match e with
       | P2002 => error 409 "That display name is already in use in this party"
       | _ => error 500 "Failed to join party"
       end).

(** GET /api/parties/:code *)
Definition getParty (code : string) : World -> Reply PartySnapshot * World :=
  tryCatch
    (let code := toUpperCase code in
     snapshot <- getPartySnapshot code ;;
     match snapshot with
     | None => ret (error 404 "Party not found")
     | Some snapshot => ret (json 200 snapshot)
     end)
    (fun _ => error 500 "Failed to load party").

(** POST /api/parties/:code/songs *)
Definition postSongs (env : Env)
    (code participantId title artist artworkUrl previewUrl externalUrl : string)
  : World -> Reply SnapshotSong * World :=
  tryCatch
    (let code := toUpperCase code in
     let title := trim title in
     let artist := trim artist in
     let artworkUrl := orNull (trim artworkUrl) in
     let previewUrl := orNull (trim previewUrl) in
     let externalUrl := orNull (trim externalUrl) in
     if not_ participantId || not_ title || not_ artist then
       ret (error 400 "participantId, title and artist are required")
     else
       party <- party_findUnique code ;;
       match party with
       | None => ret (error 404 "Party not found")
       | Some party =>
           party_songs <- query (fun d => party_songs d party) ;;
           match Party.status party with
           | ENDED => ret (error 409 "Party already ended")
           | ACTIVE =>
               participant <- participant_findFirst participantId (Party.id party) ;;
               match participant with
               | None => ret (error 403 "Participant is not in this party")
               | Some _ =>
                   let full :=
                     match Party.maxSongs party with
                     | Some maxSongs =>
                         (Z.of_nat (List.length party_songs) >=? maxSongs)%Z
                     | None => false
                     end in
                   if full then ret (error 409 "Party has reached max songs")
                   else
                     let queuePosition := (Z.of_nat (List.length party_songs) + 1)%Z in
                     song <- song_create env 0 (Party.id party) participantId
                               title artist artworkUrl previewUrl externalUrl
                               queuePosition ;;
                     emitPartySnapshot code ;;;
                     emit code (queue_updated (Song.id song)) ;;;
                     ret (json 201 (mkSnapshotSong song 0 []))
               end
           end
       end)
    (fun _ => error 500 "Failed to add song").

(** POST /api/parties/:code/votes *)
Definition postVotes (env : Env) (code participantId songId : string)
  : World -> Reply VotePayload * World :=
  tryCatch
    (let code := toUpperCase code in
     if not_ participantId || not_ songId then
       ret (error 400 "participantId and songId are required")
     else
       party <- party_findUnique code ;;
       match party with
       | None => ret (error 404 "Party not found")
       | Some party =>
           match Party.status party with
           | ENDED => ret (error 409 "Party already ended")
           | ACTIVE =>
               participant <- participant_findFirst participantId (Party.id party) ;;
               song <- song_findFirst songId (Party.id party) ;;
               match participant, song with
               | None, _ => ret (error 403 "Participant is not in this party")
               | Some _, None => ret (error 404 "Song not found in this party")
               | Some _, Some _ =>
                   existingVote <- vote_findFirst songId participantId ;;
                   voted <-
                     match existingVote with
                     | Some existingVote =>
                         vote_delete (Vote.id existingVote) ;;;
                         ret false
                     | None =>
                         vote_create env 0 (Party.id party) songId participantId ;;;
                         ret true
                     end ;;
                   voteCount <- vote_count songId ;;
                   emit code (votes_updated songId voteCount) ;;;
                   emitPartySnapshot code ;;;
                   ret (json 200 (mkVotePayload songId voteCount voted))
               end
           end
       end)
    (fun _ => error 500 "Failed to update vote").

(** The [data] of the update in SetCurrentItem: the song, and the clock
    paused at 0. *)
Definition setCurrentSong (songId : Id) (p : Party.t) : Party.t :=
  Party.mk (Party.id p) (Party.code p) (Party.name p)
    (Party.hostParticipantId p) (Party.maxSongs p) (Party.durationMinutes p)
    (Some songId) (Party.status p) PAUSED None 0%Q (Party.createdAt p)
    (Party.endedAt p).

(** POST /api/parties/:code/current-song *)
Definition postCurrentSong (code participantId songId : string)
  : World -> Reply Party.t * World :=
  tryCatch
    (let code := toUpperCase code in
     if not_ participantId || not_ songId then
       ret (error 400 "participantId and songId are required")
     else
       party <- party_findUnique code ;;
       match party with
       | None => ret (error 404 "Party not found")
       | Some party =>
           match Party.status party with
           | ENDED => ret (error 409 "Party already ended")
           | ACTIVE =>
               isHost <- requireHost (Party.id party) participantId ;;
               if negb isHost then
                 ret (error 403 "Only host can change current song")
               else
                 song <- song_findFirst songId (Party.id party) ;;
                 match song with
                 | None => ret (error 404 "Song not found in this party")
                 | Some _ =>
                     updated <- party_update (Party.id party)
                                  (setCurrentSong songId) ;;
                     emit code (party_state_updated
                                  (Some (Party.currentSongId updated))
                                  (Party.status updated)) ;;;
                     emitPartySnapshot code ;;;
                     ret (json 200 updated)
                 end
           end
       end)
    (fun _ => error 500 "Failed to set current song").

(** The position of the shared clock at [now]: the stored offset plus the
    time elapsed since the start while playing ([currentOffsetSec], lines
    507-515).  A start time is truthy as a number unless it is 0. *)
Definition currentOffsetSec (party : Party.t) (now : Date) : Q :=
  let startedAtMs := Party.playbackStartedAt party in
  let elapsedSec :=
    match Party.playbackStatus party, startedAtMs with
    | PLAYING, Some startedAtMs =>
        if (startedAtMs =? 0)%Z then 0%Q
        else max0 (Qmake (now - startedAtMs) 1000)
    | _, _ => 0%Q
    end in
  (Party.playbackOffsetSec party + elapsedSec)%Q.

(** [Number.isFinite(incomingOffsetSec) ? Math.max(0, incomingOffsetSec)
    : currentOffsetSec], the same expression for PLAY and for PAUSE. *)
Definition offsetFrom (incomingOffsetSec : Number) (currentOffsetSec : Q) : Q :=
  match incomingOffsetSec with
  | Finite q => max0 q
  | _ => currentOffsetSec
  end.

Definition setPlayback (playbackStatus : PlaybackStatus)
    (playbackStartedAt : option Date) (playbackOffsetSec : Q) (p : Party.t)
  : Party.t :=
  Party.mk (Party.id p) (Party.code p) (Party.name p)
    (Party.hostParticipantId p) (Party.maxSongs p) (Party.durationMinutes p)
    (Party.currentSongId p) (Party.status p)
    playbackStatus playbackStartedAt playbackOffsetSec
    (Party.createdAt p) (Party.endedAt p).

(** The new clock for an action (lines 517-537): the status, the start
    time and the offset to store, or [None] when the action is neither
    PLAY nor PAUSE. *)
Definition playbackAction (action : string) (incomingOffsetSec : Number)
    (party : Party.t) (now : Date)
  : option (PlaybackStatus * option Date * Q) :=
  let currentOffsetSec := currentOffsetSec party now in
  if action =? "PLAY" then
    let playFrom := offsetFrom incomingOffsetSec currentOffsetSec in
    Some (PLAYING, Some now, playFrom)
  else if action =? "PAUSE" then
    let pauseAt := offsetFrom incomingOffsetSec currentOffsetSec in
    Some (PAUSED, None, pauseAt)
  else None.

(** POST /api/parties/:code/playback.  [offsetSec] is the value of
    [Number(req.body?.offsetSec)], [NaN] when the field is absent. *)
Definition postPlayback (env : Env) (code participantId action : string)
    (offsetSec : Number)
  : World -> Reply PlaybackPayload * World :=
  tryCatch
    (let code := toUpperCase code in
     let action := toUpperCase action in
     let incomingOffsetSec := offsetSec in
     if not_ participantId || not_ action then
       ret (error 400 "participantId and action are required")
     else
       party <- party_findUnique code ;;
       match party with
       | None => ret (error 404 "Party not found")
       | Some party =>
           match Party.status party with
           | ENDED => ret (error 409 "Party already ended")
           | ACTIVE =>
               isHost <- requireHost (Party.id party) participantId ;;
               if negb isHost then
                 ret (error 403 "Only host can control playback")
               else
                 let now := now env in
                 match playbackAction action incomingOffsetSec party now with
                 | None => ret (error 400 "action must be PLAY or PAUSE")
                 | Some (playbackStatus, playbackStartedAt, playbackOffsetSec) =>
                     updated <- party_update (Party.id party)
                       (setPlayback playbackStatus playbackStartedAt
                                    playbackOffsetSec) ;;
                     let payload :=
                       mkPlaybackPayload (Party.playbackStatus updated)
                         (Party.playbackStartedAt updated)
                         (Party.playbackOffsetSec updated) in
                     emit code (party_playback_updated payload) ;;;
                     emitPartySnapshot code ;;;
                     ret (json 200 payload)
                 end
           end
       end)
    (fun _ => error 500 "Failed to update playback state").

(** The comparator of the standings (lines 615-620). *)
Definition compareEntries (a b : Entry) : Z :=
  if negb (e_voteCount b =? e_voteCount a)%Z then e_voteCount b - e_voteCount a
  else e_queuePosition a - e_queuePosition b.

(** The standings (lines 607-624) from the songs of the party and the
    entries of [voteCountMap]. *)
Definition standingsOf (songs : list Song.t) (voteCountMap : list (Id * Z))
  : list Standing :=
  mapi (fun song index => mkStanding song (index + 1))
    (sortBy compareEntries
       (map (fun song =>
               mkEntry (Song.id song) (Song.title song) (Song.artist song)
                 (orZero (Map_get (Song.id song) voteCountMap))
                 (Song.queuePosition song))
            songs)).

(** [standings[0] ?? null]. *)
Definition winnerOf (standings : list Standing) : option Standing :=
  match standings with
  | [] => None
  | first :: _ => Some first
  end.

Definition endParty (endedAt : Date) (p : Party.t) : Party.t :=
  Party.mk (Party.id p) (Party.code p) (Party.name p)
    (Party.hostParticipantId p) (Party.maxSongs p) (Party.durationMinutes p)
    (Party.currentSongId p) ENDED
    (Party.playbackStatus p) (Party.playbackStartedAt p)
    (Party.playbackOffsetSec p) (Party.createdAt p) (Some endedAt).

(** POST /api/parties/:code/end *)
Definition postEnd (env : Env) (code participantId : string)
  : World -> Reply EndPayload * World :=
  tryCatch
    (let code := toUpperCase code in
     if not_ participantId then ret (error 400 "participantId is required")
     else
       party <- party_findUnique code ;;
       match party with
       | None => ret (error 404 "Party not found")
       | Some party =>
           party_songs <- query (fun d =>
             orderBy Song.queuePosition (party_songs d party)) ;;
           match Party.status party with
           | ENDED => ret (error 409 "Party already ended")
           | ACTIVE =>
               isHost <- requireHost (Party.id party) participantId ;;
               if negb isHost then ret (error 403 "Only host can end party")
               else
                 voteCounts <- vote_groupBy_songId (Party.id party) ;;
                 let voteCountMap := voteCounts in
                 let standings := standingsOf party_songs voteCountMap in
                 let winner := winnerOf standings in
                 party_update (Party.id party) (endParty (now env)) ;;;
                 let payload := mkEndPayload winner standings in
                 emit code (party_ended payload) ;;;
                 emit code (party_state_updated None ENDED) ;;;
                 emitPartySnapshot code ;;;
                 ret (json 200 payload)
           end
       end)
    (fun _ => error 500 "Failed to end party").

(** ** Calls and runs

    The operations of the session core, each served by its handler, and
    the run of a sequence of calls from a world. *)

Inductive Call :=
| CreateSession (name hostName : string) (maxSongs durationMinutes : option Number)
| JoinSession (code name : string)
| GetSnapshot (code : string)
| AddItem (code participantId title artist artworkUrl previewUrl externalUrl : string)
| ToggleVote (code participantId songId : string)
| SetCurrentItem (code participantId songId : string)
| SetPlayback (code participantId action : string) (offsetSec : Number)
| EndSession (code participantId : string).

Inductive Response :=
| Created (r : Reply (Party.t * Participant.t))
| Joined (r : Reply (JoinedParty * Participant.t))
| Snapshot (r : Reply PartySnapshot)
| ItemAdded (r : Reply SnapshotSong)
| VoteToggled (r : Reply VotePayload)
| CurrentItemSet (r : Reply Party.t)
| PlaybackSet (r : Reply PlaybackPayload)
| SessionEnded (r : Reply EndPayload).

Definition on {A} (tag : Reply A -> Response) (r : Reply A * World)
  : Response * World := (tag (fst r), snd r).

Definition serve (env : Env) (call : Call) (w : World) : Response * World :=
  match call with
  | CreateSession name hostName maxSongs durationMinutes =>
      on Created (postParties env name hostName maxSongs durationMinutes w)
  | JoinSession code name => on Joined (postJoin env code name w)
  | GetSnapshot code => on Snapshot (getParty code w)
  | AddItem code participantId title artist artworkUrl previewUrl externalUrl =>
      on ItemAdded
         (postSongs env code participantId title artist
                    artworkUrl previewUrl externalUrl w)
  | ToggleVote code participantId songId =>
      on VoteToggled (postVotes env code participantId songId w)
  | SetCurrentItem code participantId songId =>
      on CurrentItemSet (postCurrentSong code participantId songId w)
  | SetPlayback code participantId action offsetSec =>
      on PlaybackSet (postPlayback env code participantId action offsetSec w)
  | EndSession code participantId =>
      on SessionEnded (postEnd env code participantId w)
  end.

Fixpoint run (calls : list (Env * Call)) (w : World) : list Response * World :=
  match calls with
  | [] => ([], w)
  | (env, call) :: rest =>
      let (r, w') := serve env call w in
      let (rs, w'') := run rest w' in
      (r :: rs, w'')
  end.

Definition initialWorld : World := mkWorld emptyDb [].

(** The worlds the server can be in: those a run from the empty database
    ends in. *)
Definition reachable (w : World) : Prop :=
  exists calls, snd (run calls initialWorld) = w.

(** ** Vocabulary of the properties *)

(** [a] may stand before [b] in an array sorted with [compare]. *)
Definition ordered {A} (compare : A -> A -> Z) (a b : A) : Prop :=
  compare a b <= 0.

(** The order of the standings in the words of the specification: more
    votes first and, among equal votes, the earlier queue position. *)
Definition inOrder (a b : Entry) : Prop :=
  e_voteCount a > e_voteCount b
  \/ (e_voteCount a = e_voteCount b /\ e_queuePosition a <= e_queuePosition b).

(** The entry the ranking makes of a song (lines 608-614). *)
Definition entryOf (voteCountMap : list (Id * Z)) (song : Song.t) : Entry :=
  mkEntry (Song.id song) (Song.title song) (Song.artist song)
    (orZero (Map_get (Song.id song) voteCountMap)) (Song.queuePosition song).

(** The count of the first group of [key]. *)
Definition assoc (key : Id) (groups : list (Id * Z)) : option Z :=
  option_map snd (find (fun e => fst e =? key) groups).

(** The votes of a song that the ranking counts: those of the party. *)
Definition votesFor (d : Db) (party : Party.t) (song : Song.t) : Z :=
  Z.of_nat (List.length
    (filter (fun v => Vote.songId v =? Song.id song)
       (filter (fun v => Vote.partyId v =? Party.id party) (votes d)))).

(** What [vote_groupBy_songId] returns for the party. *)
Definition voteCountMapOf (d : Db) (party : Party.t) : list (Id * Z) :=
  fold_left (fun groups v => bump (Vote.songId v) groups)
    (filter (fun v => Vote.partyId v =? Party.id party) (votes d)) [].

(** The entry of an item: its fields and the number of its votes. *)
Definition itemEntry (d : Db) (party : Party.t) (song : Song.t) : Entry :=
  mkEntry (Song.id song) (Song.title song) (Song.artist song)
    (votesFor d party song) (Song.queuePosition song).

(** ** Tactics for running a handler

    The handlers are unfolded down to the reads and writes of the tables. *)

Ltac unfold_monad :=
  unfold tryCatch, transaction, bind, ret, throw, query, write, emit in *.

Ltac unfold_calls :=
  unfold requireHost, emitPartySnapshot, getPartySnapshot,
    party_findUnique, party_update, party_create, participant_create,
    participant_findFirst, participant_findFirst_host, song_create,
    song_findFirst, vote_findFirst, vote_create, vote_delete, vote_count,
    vote_groupBy_songId in *.

Ltac reduce :=
  cbn beta iota zeta delta
    [negb fst snd db log parties participants songs votes app].

(** ** The database as the handlers read and write it *)

Definition findParty (d : Db) (code : string) : option Party.t :=
  find (fun p => Party.code p =? code) (parties d).

Definition isHostOf (d : Db) (partyId participantId : Id) : bool :=
  match find (fun m => (Participant.id m =? participantId)
                       && (Participant.partyId m =? partyId)
                       && Participant.isHost m) (participants d) with
  | Some _ => true
  | None => false
  end.

Definition isMemberOf (d : Db) (partyId participantId : Id) : bool :=
  match find (fun m => (Participant.id m =? participantId)
                       && (Participant.partyId m =? partyId)) (participants d) with
  | Some _ => true
  | None => false
  end.

Definition hasSong (d : Db) (partyId songId : Id) : bool :=
  match find (fun s => (Song.id s =? songId) && (Song.partyId s =? partyId))
             (songs d) with
  | Some _ => true
  | None => false
  end.

Definition updateParty (id : Id) (data : Party.t -> Party.t) (d : Db) : Db :=
  mkDb (map (fun p => if Party.id p =? id then data p else p) (parties d))
       (participants d) (songs d) (votes d).

(** What [emitPartySnapshot] publishes on the database [d]. *)
Definition snapshotEmits (d : Db) (code : string) : list Effect :=
  match findParty d code with
  | Some party => [Emit code (party_snapshot (snapshotOf d party))]
  | None => []
  end.

(** The payload of a successful EndSession on the party. *)
Definition endPayloadOf (d : Db) (party : Party.t) : EndPayload :=
  let standings :=
    standingsOf (orderBy Song.queuePosition (party_songs d party))
                (voteCountMapOf d party) in
  mkEndPayload (winnerOf standings) standings.

(** ** A party to run the handlers on

    A host and a guest, a capacity of two songs, both songs added, and one
    vote for the second song. *)
Module Demo.

Definition env (ids : list Id) (t : Date) : Env :=
  mkEnv t (fun k => nth k ids "id") (fun k => k).

Definition setup : list (Env * Call) :=
  [ (env ["p1"; "h1"] 100, CreateSession " Friday " "Host" (Some (Finite 2)) None);
    (env ["g1"] 101, JoinSession "abcdef" "Guest");
    (env ["s1"] 102, AddItem "abcdef" "h1" "Alpha" "Ann" "" "" "");
    (env ["s2"] 103, AddItem "abcdef" "g1" "Beta" "Bob" "" "" "");
    (env ["v1"] 104, ToggleVote "abcdef" "g1" "s2") ].

Definition world : World := Eval vm_compute in snd (run setup initialWorld).

Definition party : Party.t :=
  Party.mk "p1" "ABCDEF" "Friday" (Some "h1") (Some 2) None None ACTIVE
           PAUSED None 0%Q 100 None.

(** The same party once the host has ended it. *)
Definition ended : World :=
  Eval vm_compute in snd (postEnd (env [] 200) "abcdef" "h1" world).

(** The party while it plays, started at time 1000 from offset 0. *)
Definition playing : World :=
  Eval vm_compute in
    snd (postPlayback (env [] 1000) "abcdef" "h1" "play" NaN world).

Definition playingParty : Party.t :=
  Party.mk "p1" "ABCDEF" "Friday" (Some "h1") (Some 2) None None ACTIVE
           PLAYING (Some 1000) 0%Q 100 None.

End Demo.

(** ** The playback clock in the words of the specification *)

(** [position(t)]: the offset when paused, and otherwise the offset plus
    the seconds since the start, never less than the offset. *)
Definition position (party : Party.t) (t : Date) : Q :=
  match Party.playbackStatus party, Party.playbackStartedAt party with
  | PLAYING, Some startedAt =>
      (Party.playbackOffsetSec party + max0 (Qmake (t - startedAt) 1000))%Q
  | _, _ => Party.playbackOffsetSec party
  end.

(** The base of Play and Pause as the specification words it: the explicit
    offset if provided, finite and not negative, else the position. *)
Definition specifiedBase (explicitOffset : Number) (party : Party.t) (t : Date) : Q :=
  match explicitOffset with
  | Finite q => if Qle_bool 0 q then q else position party t
  | _ => position party t
  end.

(** The base once amended: the explicit offset when it is finite and not
    negative, 0 when it is finite and negative, else the position of the
    specification. *)
Definition clampedBase (explicitOffset : Number) (party : Party.t) (t : Date) : Q :=
  match explicitOffset with
  | Finite q => if Qle_bool 0 q then q else 0%Q
  | _ => position party t
  end.

Definition partyById (d : Db) (id : Id) : option Party.t :=
  find (fun p => Party.id p =? id) (parties d).

Definition participantClash (d : Db) (row : Participant.t) : bool :=
  existsb (fun m => (Participant.id m =? Participant.id row)
                    || ((Participant.partyId m =? Participant.partyId row)
                        && (Participant.name m =? Participant.name row)))
          (participants d).

Definition addParticipant (row : Participant.t) (d : Db) : Db :=
  mkDb (parties d) (participants d ++ [row]) (songs d) (votes d).

Definition songClash (d : Db) (row : Song.t) : bool :=
  existsb (fun s => (Song.id s =? Song.id row)
                    || ((Song.partyId s =? Song.partyId row)
                        && (Song.queuePosition s =? Song.queuePosition row)%Z))
          (songs d).

Definition addSong (row : Song.t) (d : Db) : Db :=
  mkDb (parties d) (participants d) (songs d ++ [row]) (votes d).

Definition findVote (d : Db) (songId participantId : Id) : option Vote.t :=
  find (fun v => (Vote.songId v =? songId) && (Vote.participantId v =? participantId))
       (votes d).

Definition voteClash (d : Db) (row : Vote.t) : bool :=
  existsb (fun v => (Vote.id v =? Vote.id row)
                    || ((Vote.songId v =? Vote.songId row)
                        && (Vote.participantId v =? Vote.participantId row)))
          (votes d).

Definition addVote (row : Vote.t) (d : Db) : Db :=
  mkDb (parties d) (participants d) (songs d) (votes d ++ [row]).

Definition deleteVote (id : Id) (d : Db) : Db :=
  mkDb (parties d) (participants d) (songs d)
       (filter (fun v => negb (Vote.id v =? id)) (votes d)).

(** The vote count of a song as the snapshot and ToggleVote report it. *)
Definition countVotes (d : Db) (songId : Id) : Z :=
  Z.of_nat (List.length (filter (fun v => Vote.songId v =? songId) (votes d))).

(** The capacity check of AddItem on a party with [n] songs. *)
Definition queueFull (party : Party.t) (n : nat) : bool :=
  match Party.maxSongs party with
  | Some maxSongs => (Z.of_nat n >=? maxSongs)%Z
  | None => false
  end.

(** The code [generatePartyCode] returns on the database [d], if any of
    the [attempts] rounds draws a code that no party has. *)
Fixpoint freshCode (env : Env) (d : Db) (attempts i : nat) : option string :=
  match attempts with
  | O => None
  | S attempts' =>
      let code := randomCode env (6 * i) 6 in
      match findParty d code with
      | None => Some code
      | Some _ => freshCode env d attempts' (S i)
      end
  end.

Definition partyClash (d : Db) (row : Party.t) : bool :=
  existsb (fun p => (Party.id p =? Party.id row) || (Party.code p =? Party.code row))
          (parties d).

Definition addParty (row : Party.t) (d : Db) : Db :=
  mkDb (parties d ++ [row]) (participants d) (songs d) (votes d).

(** The row a new party starts as: active, nothing playing, the clock
    paused at 0. *)
Definition newParty (env : Env) (code name : string)
    (maxSongs durationMinutes : option Z) : Party.t :=
  Party.mk (newId env 0) code name None maxSongs durationMinutes
           None ACTIVE PAUSED None 0%Q (now env) None.

(** ** Publications *)

(** The room a call addresses: the party code in upper case. *)
Definition roomOf (call : Call) : option string :=
  match call with
  | CreateSession _ _ _ _ => None
  | JoinSession code _ | GetSnapshot code | AddItem code _ _ _ _ _ _
  | ToggleVote code _ _ | SetCurrentItem code _ _ | SetPlayback code _ _ _
  | EndSession code _ => Some (toUpperCase code)
  end.

(** The effects of a successful mutating call, in order, given what
    [emitPartySnapshot] publishes on the committed database; [None] for a
    call that failed and for a read. *)
Definition effectsOf (call : Call) (r : Response) (snapshot : list Effect)
  : option (list Effect) :=
  match call, r with
  | CreateSession _ _ _ _, Created (json _ _) =>
      Some [DbWrite TParty; DbWrite TParticipant; DbWrite TParty]
  | JoinSession _ _, Joined (json _ _) =>
      Some ([DbWrite TParticipant] ++ snapshot)
  | AddItem code _ _ _ _ _ _, ItemAdded (json _ song) =>
      Some ([DbWrite TSong] ++ snapshot
            ++ [Emit (toUpperCase code) (queue_updated (Song.id (ss_song song)))])
  | ToggleVote code _ _, VoteToggled (json _ vote) =>
      Some ([DbWrite TVote;
             Emit (toUpperCase code)
                  (votes_updated (vp_songId vote) (vp_voteCount vote))]
            ++ snapshot)
  | SetCurrentItem code _ _, CurrentItemSet (json _ updated) =>
      Some ([DbWrite TParty;
             Emit (toUpperCase code)
                  (party_state_updated (Some (Party.currentSongId updated))
                                       (Party.status updated))]
            ++ snapshot)
  | SetPlayback code _ _ _, PlaybackSet (json _ payload) =>
      Some ([DbWrite TParty;
             Emit (toUpperCase code) (party_playback_updated payload)]
            ++ snapshot)
  | EndSession code _, SessionEnded (json _ payload) =>
      Some ([DbWrite TParty;
             Emit (toUpperCase code) (party_ended payload);
             Emit (toUpperCase code) (party_state_updated None ENDED)]
            ++ snapshot)
  | _, _ => None
  end.

(** The Socket.IO event names of the publications among some effects. *)
Definition eventName (e : Event) : string :=
  match e with
  | party_snapshot _ => "party:snapshot"
  | queue_updated _ => "queue:updated"
  | votes_updated _ _ => "votes:updated"
  | party_state_updated _ _ => "party:state-updated"
  | party_playback_updated _ => "party:playback-updated"
  | party_ended _ => "party:ended"
  end.

Fixpoint emitted (effects : list Effect) : list string :=
  match effects with
  | [] => []
  | DbWrite _ :: rest => emitted rest
  | Emit _ e :: rest => eventName e :: emitted rest
  end.

(** The effects a handler added to the log of [w] on the way to [w']. *)
Definition added (w w' : World) : list Effect :=
  skipn (List.length (log w)) (log w').

(** The order of the specification: the snapshot before any other event. *)
Definition snapshotFirst (names : list string) : bool :=
  match names with
  | [] => true
  | first :: _ => first =? "party:snapshot"
  end.

(** ** What holds of every database the server reaches *)

(** The queue positions 1, 2, ..., n. *)
Definition oneTo (n : nat) : list Z := map Z.of_nat (seq 1 n).

(** The songs of the party of identifier [partyId], oldest first. *)
Definition songsOf (d : Db) (partyId : Id) : list Song.t :=
  filter (fun s => Song.partyId s =? partyId) (songs d).

(** The invariant of the playback clock: a start time exactly while
    playing. *)
Definition clockOk (p : Party.t) : Prop :=
  Party.playbackStartedAt p <> None <-> Party.playbackStatus p = PLAYING.

Definition votePair (v : Vote.t) : Id * Id := (Vote.songId v, Vote.participantId v).

Record Inv (d : Db) : Prop := mkInv {
  inv_party_ids : NoDup (map Party.id (parties d));
  inv_song_ids : NoDup (map Song.id (songs d));
  inv_vote_ids : NoDup (map Vote.id (votes d));
  inv_vote_pairs : NoDup (map votePair (votes d));
  inv_song_party :
    forall s, In s (songs d) ->
              exists p, In p (parties d) /\ Party.id p = Song.partyId s;
  inv_positions :
    forall partyId,
      map Song.queuePosition (songsOf d partyId)
      = oneTo (List.length (songsOf d partyId));
  inv_clock : Forall clockOk (parties d)
}.

(** ** Counting the successful AddItem calls of a run *)

(** 1 when the call is an AddItem addressed to [room] and answered with
    the new item, else 0. *)
Definition addsTo (room : string) (call : Call) (r : Response) : nat :=
  match call, r with
  | AddItem code _ _ _ _ _ _, ItemAdded (json _ _) =>
      if toUpperCase code =? room then 1%nat else 0%nat
  | _, _ => 0%nat
  end.

Fixpoint successfulAdds (room : string) (calls : list (Env * Call))
    (rs : list Response) : nat :=
  match calls, rs with
  | (_, call) :: calls', r :: rs' =>
      (addsTo room call r + successfulAdds room calls' rs')%nat
  | _, _ => 0%nat
  end.

(** The number of items of the party of code [room], 0 if there is none. *)
Definition songCount (d : Db) (room : string) : nat :=
  match findParty d room with
  | Some party => List.length (songsOf d (Party.id party))
  | None => 0%nat
  end.

(** Whether the participant has a vote on the song. *)
Definition hasVote (d : Db) (songId participantId : Id) : bool :=
  match findVote d songId participantId with
  | Some _ => true
  | None => false
  end.

(** ** Calls on a party that has ended *)

(** The operations that change a party once it exists. *)
Definition mutating (call : Call) : bool :=
  match call with
  | AddItem _ _ _ _ _ _ _ | ToggleVote _ _ _ | SetCurrentItem _ _ _
  | SetPlayback _ _ _ _ | EndSession _ _ => true
  | _ => false
  end.

(** The first check of each handler: the required fields are there. *)
Definition requiredFields (call : Call) : bool :=
  match call with
  | CreateSession name hostName _ _ => negb (not_ (trim name) || not_ (trim hostName))
  | JoinSession _ name => negb (not_ (trim name))
  | GetSnapshot _ => true
  | AddItem _ participantId title artist _ _ _ =>
      negb (not_ participantId || not_ (trim title) || not_ (trim artist))
  | ToggleVote _ participantId songId => negb (not_ participantId || not_ songId)
  | SetCurrentItem _ participantId songId => negb (not_ participantId || not_ songId)
  | SetPlayback _ participantId action _ =>
      negb (not_ participantId || not_ (toUpperCase action))
  | EndSession _ participantId => negb (not_ participantId)
  end.

(** The answer to a call whose required fields are missing. *)
Definition validationMessage (call : Call) : string :=
  match call with
  | CreateSession _ _ _ _ => "name and hostName are required"
  | JoinSession _ _ => "name is required"
  | GetSnapshot _ => ""
  | AddItem _ _ _ _ _ _ _ => "participantId, title and artist are required"
  | ToggleVote _ _ _ | SetCurrentItem _ _ _ => "participantId and songId are required"
  | SetPlayback _ _ _ _ => "participantId and action are required"
  | EndSession _ _ => "participantId is required"
  end.

Definition failureOf {A} (r : Reply A) : option (Z * string) :=
  match r with
  | json _ _ => None
  | error status message => Some (status, message)
  end.

(** The status and message of a response that is a failure. *)
Definition failure (r : Response) : option (Z * string) :=
  match r with
  | Created r => failureOf r
  | Joined r => failureOf r
  | Snapshot r => failureOf r
  | ItemAdded r => failureOf r
  | VoteToggled r => failureOf r
  | CurrentItemSet r => failureOf r
  | PlaybackSet r => failureOf r
  | SessionEnded r => failureOf r
  end.

Definition isEnded (d : Db) (room : string) : Prop :=
  exists party, findParty d room = Some party /\ Party.status party = ENDED.

(** The order of the items in the standings and in a snapshot. *)
Definition standingsOrder (payload : EndPayload) : list Id :=
  map (fun s => e_songId (st_song s)) (finalStandings payload).

Definition snapshotOrder (snapshot : PartySnapshot) : list Id :=
  map (fun s => Song.id (ss_song s)) (snap_songs snapshot).

(** What a read of the party of code [room] returns. *)
Definition viewOf (d : Db) (room : string) : option PartySnapshot :=
  option_map (snapshotOf d) (findParty d room).

(** ** The Socket.IO subscription (backend/src/index.ts, lines 655-677) *)

(** What the handler of [party:join-room] does for the socket: nothing,
    [party:not-found], or the room joined and [party:snapshot]. *)
Inductive RoomReply :=
| ignored
| party_not_found (partyCode : string)
| room_joined (room : string) (snapshot : PartySnapshot).

(** [socket.on("party:join-room", ...)]; [partyCode] is the value of
    [String(payload?.partyCode ?? "")]. *)
Definition onJoinRoom (partyCode : string) (w : World) : RoomReply :=
  let partyCode := toUpperCase partyCode in
  if not_ partyCode then ignored
  else
    match fst (getPartySnapshot partyCode w) with
    | Return None => party_not_found partyCode
    | Return (Some snapshot) => room_joined partyCode snapshot
    | Throw _ => ignored
    end.

(** ** The client (frontend/src/App.tsx)

    The pure parts of the page: what it derives from the snapshot it
    holds.  A date reaches the client as the ISO string of the [Date];
    [Date.parse] reads its milliseconds back. *)
Module Client.

(** [getExpectedOffsetSec(party)] at [Date.now() = now].  The start is
    [None] when [party.playbackStartedAt] is null or empty, and otherwise
    the value of [Date.parse(party.playbackStartedAt)]. *)
Definition getExpectedOffsetSec (playbackStatus : PlaybackStatus)
    (playbackOffsetSec : Q) (playbackStartedAt : option Number) (now : Date) : Q :=
  match playbackStatus, playbackStartedAt with
  | PLAYING, Some startedAtMs =>
      match startedAtMs with
      | Finite startedAtMs =>
          let elapsedSec := ((inject_Z now - startedAtMs) / 1000)%Q in
          max0 (playbackOffsetSec + elapsedSec)%Q
      | _ => max0 playbackOffsetSec
      end
  | _, _ => max0 playbackOffsetSec
  end.

(** The same on the party of a snapshot. *)
Definition expectedOffsetOf (party : Party.t) (now : Date) : Q :=
  getExpectedOffsetSec (Party.playbackStatus party)
    (Party.playbackOffsetSec party)
    (option_map (fun ms => Finite (inject_Z ms)) (Party.playbackStartedAt party))
    now.

(** [array.findIndex(p)], counting from [i]; -1 when nothing is found. *)
Fixpoint findIndex_from {A} (p : A -> bool) (l : list A) (i : Z) : Z :=
  match l with
  | [] => -1
  | x :: t => if p x then i else findIndex_from p t (i + 1)
  end.

Definition findIndex {A} (p : A -> bool) (l : list A) : Z := findIndex_from p l 0.

(** [array[i]]: undefined out of range. *)
Definition at_ {A} (l : list A) (i : Z) : option A :=
  if (i <? 0)%Z then None else nth_error l (Z.to_nat i).

(** [x === currentSongId] for a song identifier [x]. *)
Definition isCurrent (currentSongId : option Id) (x : Id) : bool :=
  match currentSongId with
  | Some c => x =? c
  | None => false
  end.

(** The song [onPlayNext] asks the server to play: the one after the
    current song, or the first; [None] when the queue is empty. *)
Definition playNext (snapshot : PartySnapshot) : option SnapshotSong :=
  let songs := snap_songs snapshot in
  if (List.length songs =? 0)%nat then None
  else
    let index :=
      findIndex (fun song => isCurrent (Party.currentSongId (snap_party snapshot))
                                       (Song.id (ss_song song))) songs in
    match at_ songs (index + 1) with
    | Some nextSong => Some nextSong
    | None => at_ songs 0
    end.

(** [me]: the viewer among the participants of the snapshot. *)
Definition me (snapshot : PartySnapshot) (participantId : Id) : option Participant.t :=
  find (fun participant => Participant.id participant =? participantId)
       (snap_participants snapshot).

(** [Boolean(me?.isHost)]. *)
Definition isHost (snapshot : PartySnapshot) (participantId : Id) : bool :=
  match me snapshot participantId with
  | Some participant => Participant.isHost participant
  | None => false
  end.

(** [currentSong]: the song of the snapshot that is the current one. *)
Definition currentSong (snapshot : PartySnapshot) : option SnapshotSong :=
  match Party.currentSongId (snap_party snapshot) with
  | None => None
  | Some currentSongId =>
      if not_ currentSongId then None
      else find (fun song => Song.id (ss_song song) =? currentSongId)
                (snap_songs snapshot)
  end.

End Client.

(** ** The steps of the database

    What one call can do to the database: nothing, or one of the writes
    below, each with what its handler has checked before it writes. *)
Inductive Step (d : Db) : Db -> Prop :=
| step_none : Step d d
| step_create (env : Env) (code name hostName : string)
    (maxSongs durationMinutes : option Z) :
    let party := newParty env code name maxSongs durationMinutes in
    let host := Participant.mk (newId env 1) (Party.id party) hostName true (now env) in
    freshCode env d 10 0 = Some code ->
    partyClash d party = false ->
    participantClash d host = false ->
    Step d (mkDb (parties d ++ [setHost (Participant.id host) party])
                 (participants d ++ [host]) (songs d) (votes d))
| step_join (env : Env) (room name : string) (party : Party.t) :
    let row := Participant.mk (newId env 0) (Party.id party) name false (now env) in
    findParty d room = Some party ->
    Party.status party = ACTIVE ->
    participantClash d row = false ->
    Step d (addParticipant row d)
| step_add_song (room : string) (party : Party.t) (row : Song.t) :
    findParty d room = Some party ->
    Party.status party = ACTIVE ->
    isMemberOf d (Party.id party) (Song.addedById row) = true ->
    queueFull party (List.length (party_songs d party)) = false ->
    Song.partyId row = Party.id party ->
    Song.queuePosition row = Z.of_nat (List.length (party_songs d party)) + 1 ->
    songClash d row = false ->
    Step d (addSong row d)
| step_add_vote (room : string) (party : Party.t) (row : Vote.t) :
    findParty d room = Some party ->
    Party.status party = ACTIVE ->
    isMemberOf d (Party.id party) (Vote.participantId row) = true ->
    hasSong d (Party.id party) (Vote.songId row) = true ->
    findVote d (Vote.songId row) (Vote.participantId row) = None ->
    Vote.partyId row = Party.id party ->
    voteClash d row = false ->
    Step d (addVote row d)
| step_delete_vote (room : string) (party : Party.t) (existingVote : Vote.t) :
    findParty d room = Some party ->
    Party.status party = ACTIVE ->
    isMemberOf d (Party.id party) (Vote.participantId existingVote) = true ->
    hasSong d (Party.id party) (Vote.songId existingVote) = true ->
    findVote d (Vote.songId existingVote) (Vote.participantId existingVote)
    = Some existingVote ->
    Step d (deleteVote (Vote.id existingVote) d)
| step_current_song (room : string) (party : Party.t) (participantId songId : Id) :
    findParty d room = Some party ->
    Party.status party = ACTIVE ->
    not_ songId = false ->
    isHostOf d (Party.id party) participantId = true ->
    hasSong d (Party.id party) songId = true ->
    Step d (updateParty (Party.id party) (setCurrentSong songId) d)
| step_playback (room : string) (party : Party.t) (participantId action : string)
    (offsetSec : Number) (t : Date)
    (playbackStatus : PlaybackStatus) (playbackStartedAt : option Date)
    (playbackOffsetSec : Q) :
    findParty d room = Some party ->
    Party.status party = ACTIVE ->
    isHostOf d (Party.id party) participantId = true ->
    playbackAction action offsetSec party t
    = Some (playbackStatus, playbackStartedAt, playbackOffsetSec) ->
    Step d (updateParty (Party.id party)
              (setPlayback playbackStatus playbackStartedAt playbackOffsetSec) d)
| step_end (room : string) (party : Party.t) (participantId : Id) (t : Date) :
    findParty d room = Some party ->
    Party.status party = ACTIVE ->
    isHostOf d (Party.id party) participantId = true ->
    Step d (updateParty (Party.id party) (endParty t) d).

(** ** More of what holds of every database the server reaches *)

(** A party code as [generatePartyCode] builds it: six characters of the
    alphabet. *)
Definition inAlphabet (c : ascii) : bool :=
  existsb (Ascii.eqb c) (list_ascii_of_string alphabet).

Definition codeOk (code : string) : bool :=
  (String.length code =? 6)%nat && forallb inAlphabet (list_ascii_of_string code).

(** The unique index of Participant on (partyId, name). *)
Definition nameKey (m : Participant.t) : Id * string :=
  (Participant.partyId m, Participant.name m).

(** [host] is the one host of the party, and the party refers to it. *)
Definition hostOf (d : Db) (party : Party.t) (host : Participant.t) : Prop :=
  In host (participants d)
  /\ Participant.partyId host = Party.id party
  /\ Participant.isHost host = true
  /\ Party.hostParticipantId party = Some (Participant.id host)
  /\ forall m, In m (participants d) ->
               Participant.partyId m = Party.id party ->
               Participant.isHost m = true -> m = host.

Record Consistent (d : Db) : Prop := mkConsistent {
  con_participant_ids : NoDup (map Participant.id (participants d));
  con_names : NoDup (map nameKey (participants d));
  con_codes : NoDup (map Party.code (parties d));
  con_code_ok : forall p, In p (parties d) -> codeOk (Party.code p) = true;
  con_participant_party :
    forall m, In m (participants d) ->
              exists p, In p (parties d) /\ Party.id p = Participant.partyId m;
  con_host : forall p, In p (parties d) -> exists host, hostOf d p host;
  con_vote_song :
    forall v, In v (votes d) ->
              exists s, In s (songs d) /\ Song.id s = Vote.songId v
                        /\ Song.partyId s = Vote.partyId v;
  con_vote_voter :
    forall v, In v (votes d) ->
              exists m, In m (participants d)
                        /\ Participant.id m = Vote.participantId v
                        /\ Participant.partyId m = Vote.partyId v;
  con_song_adder :
    forall s, In s (songs d) ->
              exists m, In m (participants d)
                        /\ Participant.id m = Song.addedById s
                        /\ Participant.partyId m = Song.partyId s;
  con_current :
    forall p c, In p (parties d) -> Party.currentSongId p = Some c ->
                exists s, In s (songs d) /\ Song.id s = c
                          /\ Song.partyId s = Party.id p;
  con_current_set :
    forall p c, In p (parties d) -> Party.currentSongId p = Some c ->
                not_ c = false;
  con_offset : forall p, In p (parties d) -> (0 <= Party.playbackOffsetSec p)%Q;
  con_ended :
    forall p, In p (parties d) ->
              (Party.endedAt p <> None <-> Party.status p = ENDED);
  con_capacity :
    forall p maxSongs, In p (parties d) -> Party.maxSongs p = Some maxSongs ->
      Z.of_nat (List.length (songsOf d (Party.id p))) <= Z.max 0 maxSongs
}.

(** ** Who may call what *)

(** The participant a call acts for, when its handler asks [requireHost]
    of it. *)
Definition hostCall (call : Call) : option Id :=
  match call with
  | SetCurrentItem _ participantId _ | SetPlayback _ participantId _ _
  | EndSession _ participantId => Some participantId
  | _ => None
  end.

(** The participant a call acts for, when its handler looks it up among
    the participants of the party. *)
Definition memberCall (call : Call) : option Id :=
  match call with
  | AddItem _ participantId _ _ _ _ _ | ToggleVote _ participantId _ =>
      Some participantId
  | _ => None
  end.

(** What no handler writes of a party once it is created. *)
Definition sameParty (p q : Party.t) : Prop :=
  Party.id q = Party.id p
  /\ Party.code q = Party.code p
  /\ Party.name q = Party.name p
  /\ Party.hostParticipantId q = Party.hostParticipantId p
  /\ Party.maxSongs q = Party.maxSongs p
  /\ Party.durationMinutes q = Party.durationMinutes p
  /\ Party.createdAt q = Party.createdAt p.

(** How CreateSession stores an optional number of the request: a finite
    number as that integer, and null, blank, NaN and the infinities as
    null. *)
Definition storedAs (given : option Number) (stored : option Z) : Prop :=
  match given with
  | Some (Finite q) => exists n, stored = Some n /\ (inject_Z n == q)%Q
  | _ => stored = None
  end.

(** ** EndSession, await by await

    [postEnd] awaits each of its queries: the party with its songs (line
    578), the host (593), the vote counts (598), the update (628) and the
    snapshot it publishes (645).  Nothing holds these together, no lock
    and no transaction, so the server can serve other calls at each await
    after the first.  [serving calls] is such a moment, and
    [postEnd_around] is the body of [postEnd] with the calls served
    before each of its later queries. *)
Definition serving (calls : list (Env * Call)) : M unit :=
  fun w => (Return tt, snd (run calls w)).

Definition postEnd_around (env : Env) (code participantId : string)
    (beforeHost beforeCount beforeUpdate beforeSnapshot : list (Env * Call))
  : World -> Reply EndPayload * World :=
  tryCatch
    (let code := toUpperCase code in
     if not_ participantId then ret (error 400 "participantId is required")
     else
       party <- party_findUnique code ;;
       match party with
       | None => ret (error 404 "Party not found")
       | Some party =>
           party_songs <- query (fun d =>
             orderBy Song.queuePosition (party_songs d party)) ;;
           match Party.status party with
           | ENDED => ret (error 409 "Party already ended")
           | ACTIVE =>
               serving beforeHost ;;;
               isHost <- requireHost (Party.id party) participantId ;;
               if negb isHost then ret (error 403 "Only host can end party")
               else
                 serving beforeCount ;;;
                 voteCounts <- vote_groupBy_songId (Party.id party) ;;
                 let voteCountMap := voteCounts in
                 let standings := standingsOf party_songs voteCountMap in
                 let winner := winnerOf standings in
                 serving beforeUpdate ;;;
                 party_update (Party.id party) (endParty (now env)) ;;;
                 let payload := mkEndPayload winner standings in
                 emit code (party_ended payload) ;;;
                 emit code (party_state_updated None ENDED) ;;;
                 serving beforeSnapshot ;;;
                 emitPartySnapshot code ;;;
                 ret (json 200 payload)
           end
       end)
    (fun _ => error 500 "Failed to end party").

(** The entry of the standings that a song of a snapshot stands for. *)
Definition shownEntry (s : SnapshotSong) : Entry :=
  mkEntry (Song.id (ss_song s)) (Song.title (ss_song s)) (Song.artist (ss_song s))
          (ss_voteCount s) (Song.queuePosition (ss_song s)).

(** * Properties *)

(** ** Lists: searching and sorting *)

Lemma find_all_false {A} (p : A -> bool) (l : list A) :
  (forall x, In x l -> p x = false) -> find p l = None.
Proof.
  induction l as [|a l IH]; intros H; simpl; [reflexivity|].
  rewrite (H a (or_introl eq_refl)). apply IH. intros x Hx. apply H. now right.
Qed.

Lemma find_unique {A} (p : A -> bool) (l : list A) (x : A) :
  In x l -> p x = true ->
  (forall y, In y l -> p y = true -> y = x) ->
  find p l = Some x.
Proof.
  intros Hin Hp Huniq.
  destruct (find p l) as [y|] eqn:E.
  - apply find_some in E. destruct E as [Hy Hpy]. f_equal. now apply Huniq.
  - apply (find_none _ _ E) in Hin. congruence.
Qed.

Lemma find_app {A} (p : A -> bool) (l1 l2 : list A) :
  find p (l1 ++ l2) = match find p l1 with Some x => Some x | None => find p l2 end.
Proof.
  induction l1 as [|a l1 IH]; simpl; [reflexivity|].
  destruct (p a); [reflexivity|apply IH].
Qed.


Section SortFacts.
Variable A : Type.
Variable compare : A -> A -> Z.

Lemma insertBy_perm (x : A) (l : list A) :
  Permutation (insertBy compare x l) (x :: l).
Proof.
  induction l as [|y t IH]; simpl; [apply Permutation_refl|].
  destruct (compare x y <=? 0)%Z; [apply Permutation_refl|].
  apply perm_trans with (y :: x :: t); [now apply perm_skip|apply perm_swap].
Qed.

Lemma sortBy_perm (l : list A) : Permutation (sortBy compare l) l.
Proof.
  induction l as [|x t IH]; simpl; [apply perm_nil|].
  apply perm_trans with (x :: sortBy compare t);
    [apply insertBy_perm|now apply perm_skip].
Qed.

Lemma sortBy_length (l : list A) :
  List.length (sortBy compare l) = List.length l.
Proof. apply Permutation_length, sortBy_perm. Qed.


Hypothesis compare_total : forall a b, 0 < compare a b -> compare b a <= 0.
Hypothesis compare_trans :
  forall a b c, compare a b <= 0 -> compare b c <= 0 -> compare a c <= 0.

Lemma insertBy_sorted (x : A) (l : list A) :
  StronglySorted (ordered compare) l -> StronglySorted (ordered compare) (insertBy compare x l).
Proof.
  induction l as [|y t IH]; intros Hs; simpl.
  - constructor; [constructor|constructor].
  - destruct (Z.leb_spec (compare x y) 0) as [Hle|Hgt].
    + constructor; [assumption|].
      constructor; [exact Hle|].
      apply StronglySorted_inv in Hs. destruct Hs as [_ Hall].
      rewrite Forall_forall in *. intros z Hz.
      apply compare_trans with y; [exact Hle|now apply Hall].
    + apply StronglySorted_inv in Hs. destruct Hs as [Hst Hall].
      constructor; [now apply IH|].
      rewrite Forall_forall in *. intros z Hz.
      apply (Permutation_in _ (insertBy_perm x t)) in Hz.
      destruct Hz as [<-|Hz]; [now apply compare_total|now apply Hall].
Qed.

Lemma sortBy_sorted (l : list A) : StronglySorted (ordered compare) (sortBy compare l).
Proof.
  induction l as [|x t IH]; simpl; [constructor|now apply insertBy_sorted].
Qed.
End SortFacts.

Lemma mapi_from_nth {A B} (f : A -> Z -> B) (l : list A) (i : Z) (n : nat) :
  nth_error (mapi_from f i l) n
  = option_map (fun x => f x (i + Z.of_nat n)) (nth_error l n).
Proof.
  revert i n. induction l as [|x t IH]; intros i [|n]; simpl; try reflexivity.
  - now rewrite Z.add_0_r.
  - rewrite IH. destruct (nth_error t n); simpl; [|reflexivity].
    do 2 f_equal. lia.
Qed.

Lemma mapi_from_song (l : list Entry) (i : Z) :
  map st_song (mapi_from (fun song index => mkStanding song (index + 1)) i l) = l.
Proof.
  revert i. induction l as [|x t IH]; intros i; simpl; [reflexivity|].
  now rewrite IH.
Qed.

(** ** The ranking (C1) *)



Lemma compareEntries_inOrder (a b : Entry) :
  compareEntries a b <= 0 <-> inOrder a b.
Proof.
  unfold compareEntries, inOrder.
  destruct (Z.eqb_spec (e_voteCount b) (e_voteCount a)); simpl; lia.
Qed.

Lemma compareEntries_total (a b : Entry) :
  0 < compareEntries a b -> compareEntries b a <= 0.
Proof.
  unfold compareEntries.
  destruct (Z.eqb_spec (e_voteCount b) (e_voteCount a));
    destruct (Z.eqb_spec (e_voteCount a) (e_voteCount b)); simpl; lia.
Qed.

Lemma compareEntries_trans (a b c : Entry) :
  compareEntries a b <= 0 -> compareEntries b c <= 0 -> compareEntries a c <= 0.
Proof.
  rewrite !compareEntries_inOrder. unfold inOrder. lia.
Qed.



(** The ranking on any list of songs and any vote-count map. *)
Lemma standingsOf_spec (songs : list Song.t) (voteCountMap : list (Id * Z)) :
  let standings := standingsOf songs voteCountMap in
  StronglySorted (fun a b => inOrder (st_song a) (st_song b)) standings
  /\ Permutation (map st_song standings) (map (entryOf voteCountMap) songs)
  /\ (forall i s, nth_error standings i = Some s -> st_rank s = Z.of_nat i + 1)
  /\ winnerOf standings = nth_error standings 0
  /\ (winnerOf standings = None <-> songs = []).
Proof.
  set (entries := map (entryOf voteCountMap) songs).
  assert (Hst : standingsOf songs voteCountMap
                = mapi (fun song index => mkStanding song (index + 1))
                       (sortBy compareEntries entries)) by reflexivity.
  cbv zeta. rewrite Hst. clear Hst.
  assert (Hsong : map st_song
            (mapi (fun song index => mkStanding song (index + 1))
                  (sortBy compareEntries entries))
          = sortBy compareEntries entries) by apply mapi_from_song.
  repeat split.
  - assert (Hs := @sortBy_sorted _ compareEntries compareEntries_total
                   compareEntries_trans entries).
    rewrite <- Hsong in Hs.
    remember (mapi _ _) as l eqn:El. clear El Hsong.
    induction l as [|x t IH]; [constructor|].
    simpl in Hs. apply StronglySorted_inv in Hs. destruct Hs as [Ht Hall].
    constructor; [now apply IH|].
    rewrite Forall_forall in *. intros y Hy.
    apply compareEntries_inOrder. apply Hall. now apply in_map.
  - rewrite Hsong. apply sortBy_perm.
  - intros i s Hi. unfold mapi in Hi. rewrite mapi_from_nth in Hi.
    destruct (nth_error _ i); simpl in Hi; [|discriminate].
    inversion Hi. simpl. lia.
  - intros Hw.
    assert (Hlen : List.length (sortBy compareEntries entries) = 0%nat).
    { rewrite <- Hsong, length_map.
      destruct (mapi _ (sortBy compareEntries entries)); [reflexivity|discriminate Hw]. }
    rewrite sortBy_length in Hlen. unfold entries in Hlen.
    rewrite length_map in Hlen. now destruct songs.
  - intros ->. reflexivity.
Qed.

(** A sorted list is determined by its elements when the order tells
    them apart, so the standings do not depend on how [sort] sorts. *)
Lemma sorted_perm_eq {A} (R : A -> A -> Prop) (l1 l2 : list A) :
  (forall x y, In x l1 -> In y l1 -> R x y -> R y x -> x = y) ->
  StronglySorted R l1 -> StronglySorted R l2 -> Permutation l1 l2 -> l1 = l2.
Proof.
  revert l2. induction l1 as [|a t IH]; intros l2 Hanti H1 H2 Hp.
  - apply Permutation_nil in Hp. now subst.
  - destruct l2 as [|b t2];
      [apply Permutation_sym, Permutation_nil in Hp; discriminate|].
    apply StronglySorted_inv in H1, H2.
    destruct H1 as [Ht Ha], H2 as [Ht2 Hb]. rewrite Forall_forall in Ha, Hb.
    assert (a = b) as <-.
    { assert (Hin1 : In a (b :: t2)) by (eapply Permutation_in; [exact Hp|now left]).
      assert (Hin2 : In b (a :: t))
        by (eapply Permutation_in; [apply Permutation_sym; exact Hp|now left]).
      destruct Hin1 as [->|Hin1]; [reflexivity|].
      destruct Hin2 as [->|Hin2]; [reflexivity|].
      apply Hanti; [now left|now right|now apply Ha|now apply Hb]. }
    f_equal. apply IH; auto.
    + intros x y Hx Hy. apply Hanti; now right.
    + now apply Permutation_cons_inv in Hp.
Qed.

Lemma standings_determined (songs : list Song.t) (voteCountMap : list (Id * Z))
    (l : list Entry) :
  NoDup (map Song.queuePosition songs) ->
  Permutation l (map (entryOf voteCountMap) songs) ->
  StronglySorted inOrder l ->
  l = map st_song (standingsOf songs voteCountMap).
Proof.
  intros Hnd Hp Hs.
  destruct (standingsOf_spec songs voteCountMap) as (Hs' & Hp' & _).
  cbv zeta in Hs', Hp'.
  apply (@sorted_perm_eq _ inOrder); auto.
  - intros x y Hx Hy Hxy Hyx.
    apply (Permutation_in _ Hp) in Hx, Hy.
    apply in_map_iff in Hx, Hy.
    destruct Hx as [sx [<- Hsx]], Hy as [sy [<- Hsy]].
    assert (Hq : Song.queuePosition sx = Song.queuePosition sy)
      by (unfold inOrder, entryOf in Hxy, Hyx; simpl in Hxy, Hyx; lia).
    assert (sx = sy); [|now subst].
    clear Hp Hs Hs' Hp' Hxy Hyx.
    induction songs as [|s rest IH]; [contradiction|].
    simpl in Hnd. apply NoDup_cons_iff in Hnd. destruct Hnd as [Hn Hnd].
    destruct Hsx as [->|Hsx], Hsy as [->|Hsy]; auto.
    + exfalso. apply Hn. rewrite Hq. now apply in_map.
    + exfalso. apply Hn. rewrite <- Hq. now apply in_map.
  - clear Hp Hs Hp'.
    induction (standingsOf songs voteCountMap) as [|x t IH]; [constructor|].
    apply StronglySorted_inv in Hs'. destruct Hs' as [Ht Hall].
    simpl. constructor; [now apply IH|].
    rewrite Forall_forall in *. intros y Hy.
    apply in_map_iff in Hy. destruct Hy as [z [<- Hz]]. now apply Hall.
  - eapply perm_trans; [exact Hp|now apply Permutation_sym].
Qed.

(** *** The vote-count map built from [groupBy] *)



Lemma keys_inj (groups : list (Id * Z)) (x y : Id * Z) :
  NoDup (map fst groups) -> In x groups -> In y groups -> fst x = fst y -> x = y.
Proof.
  induction groups as [|e t IH]; intros Hnd Hx Hy Hk; [contradiction|].
  simpl in Hnd. apply NoDup_cons_iff in Hnd. destruct Hnd as [Hnot Hnd].
  destruct Hx as [->|Hx], Hy as [->|Hy]; auto.
  - exfalso. apply Hnot. rewrite Hk. now apply in_map.
  - exfalso. apply Hnot. rewrite <- Hk. now apply in_map.
Qed.

Lemma Map_get_assoc (key : Id) (groups : list (Id * Z)) :
  NoDup (map fst groups) -> Map_get key groups = assoc key groups.
Proof.
  intros Hnd. unfold Map_get, assoc. f_equal.
  destruct (find (fun e => fst e =? key) groups) as [x|] eqn:E.
  - apply find_some in E. destruct E as [Hin Hk].
    apply find_unique; [now rewrite <- in_rev| exact Hk |].
    intros y Hy Hky. rewrite <- in_rev in Hy.
    apply String.eqb_eq in Hk, Hky.
    apply (keys_inj groups); auto. exact (eq_trans Hky (eq_sym Hk)).
  - apply find_all_false. intros x Hx. rewrite <- in_rev in Hx.
    now apply (find_none _ _ E).
Qed.

Lemma bump_keys (key k : Id) (groups : list (Id * Z)) :
  In k (map fst (bump key groups)) <-> k = key \/ In k (map fst groups).
Proof.
  induction groups as [|[k0 n] t IH]; simpl.
  - intuition.
  - destruct (String.eqb_spec k0 key) as [->|Hne]; simpl.
    + intuition.
    + rewrite IH. intuition.
Qed.

Lemma bump_NoDup (key : Id) (groups : list (Id * Z)) :
  NoDup (map fst groups) -> NoDup (map fst (bump key groups)).
Proof.
  induction groups as [|[k0 n] t IH]; simpl; intros Hnd.
  - constructor; [intros []|constructor].
  - apply NoDup_cons_iff in Hnd. destruct Hnd as [Hnot Hnd].
    destruct (String.eqb_spec k0 key) as [->|Hne]; simpl.
    + now constructor.
    + constructor; [|now apply IH].
      rewrite bump_keys. intros [->|Hin]; [now apply Hne|now apply Hnot].
Qed.

Lemma assoc_bump (key k : Id) (groups : list (Id * Z)) :
  orZero (assoc k (bump key groups))
  = orZero (assoc k groups) + (if key =? k then 1 else 0).
Proof.
  unfold assoc. induction groups as [|[k0 n] t IH]; simpl.
  - destruct (key =? k); reflexivity.
  - destruct (String.eqb_spec k0 key) as [->|Hne]; simpl.
    + destruct (String.eqb_spec key k); simpl; lia.
    + destruct (String.eqb_spec k0 k) as [->|Hne']; simpl.
      * destruct (String.eqb_spec key k); [congruence|lia].
      * exact IH.
Qed.

Lemma groupBy_fold (vs : list Vote.t) (k : Id) (groups : list (Id * Z)) :
  NoDup (map fst groups) ->
  let result := fold_left (fun g v => bump (Vote.songId v) g) vs groups in
  NoDup (map fst result)
  /\ orZero (assoc k result)
     = orZero (assoc k groups)
       + Z.of_nat (List.length (filter (fun v => Vote.songId v =? k) vs)).
Proof.
  revert groups. induction vs as [|v vs IH]; intros groups Hnd; simpl.
  - split; [assumption|lia].
  - destruct (IH (bump (Vote.songId v) groups) (bump_NoDup (Vote.songId v) groups Hnd)) as [H1 H2].
    split; [exact H1|]. simpl in H2. rewrite H2, assoc_bump.
    destruct (Vote.songId v =? k); simpl List.length; lia.
Qed.



Lemma voteCountMap_get (d : Db) (party : Party.t) (song : Song.t) :
  orZero (Map_get (Song.id song) (voteCountMapOf d party)) = votesFor d party song.
Proof.
  unfold voteCountMapOf, votesFor.
  destruct (@groupBy_fold
              (filter (fun v => Vote.partyId v =? Party.id party) (votes d))
              (Song.id song) [] (NoDup_nil _)) as [Hnd Hc].
  cbv zeta in Hnd, Hc. rewrite (@Map_get_assoc (Song.id song) _ Hnd), Hc. reflexivity.
Qed.



Lemma entryOf_itemEntry (d : Db) (party : Party.t) (song : Song.t) :
  entryOf (voteCountMapOf d party) song = itemEntry d party song.
Proof. unfold entryOf, itemEntry. now rewrite voteCountMap_get. Qed.

Lemma find_id_of_code (ps : list Party.t) (code : string) (party : Party.t) :
  find (fun p => Party.code p =? code) ps = Some party ->
  exists row, find (fun p => Party.id p =? Party.id party) ps = Some row.
Proof.
  intros H. apply find_some in H. destruct H as [Hin _].
  destruct (find (fun p => Party.id p =? Party.id party) ps) as [row|] eqn:E.
  - now exists row.
  - apply (find_none _ _ E) in Hin. now rewrite String.eqb_refl in Hin.
Qed.

(** ** The handlers, run *)

Lemma postEnd_run (env : Env) (code participantId : string) (w : World) :
  postEnd env code participantId w =
  let room := toUpperCase code in
  if not_ participantId then (error 400 "participantId is required", w)
  else
    match findParty (db w) room with
    | None => (error 404 "Party not found", w)
    | Some party =>
        match Party.status party with
        | ENDED => (error 409 "Party already ended", w)
        | ACTIVE =>
            if negb (isHostOf (db w) (Party.id party) participantId) then
              (error 403 "Only host can end party", w)
            else
              let payload := endPayloadOf (db w) party in
              let d' := updateParty (Party.id party) (endParty (now env)) (db w) in
              (json 200 payload,
               mkWorld d'
                 (log w ++ [DbWrite TParty; Emit room (party_ended payload);
                            Emit room (party_state_updated None ENDED)]
                        ++ snapshotEmits d' room))
        end
    end.
Proof.
  unfold postEnd, endPayloadOf, voteCountMapOf, snapshotEmits, isHostOf, findParty.
  unfold_calls. unfold_monad. reduce.
  destruct (not_ participantId); [reflexivity|].
  destruct (find _ (parties (db w))) as [party|] eqn:Ef; [|reflexivity].
  destruct (Party.status party); [|reflexivity].
  destruct (find _ (participants (db w))); reduce; [|reflexivity].
  destruct (find_id_of_code _ _ Ef) as [row ->]. unfold updateParty. reduce.
  destruct (find _ (map _ _)); reduce; rewrite <- ?app_assoc; reflexivity.
Qed.

(** C1. When EndSession succeeds, the standings it returns are the items
    of the session, each with the number of its votes, sorted by vote
    count descending and then by queue position ascending; the rank of an
    entry is its 1-based index; the winner is the first entry, and it is
    null exactly when the session has no item. *)
Theorem end_session_standings
    (env : Env) (code participantId : string) (w w' : World)
    (payload : EndPayload) :
  postEnd env code participantId w = (json 200 payload, w') ->
  exists party,
    findParty (db w) (toUpperCase code) = Some party
    /\ let items := party_songs (db w) party in
       let standings := finalStandings payload in
       StronglySorted (fun a b => inOrder (st_song a) (st_song b)) standings
       /\ Permutation (map st_song standings) (map (itemEntry (db w) party) items)
       /\ (forall i s, nth_error standings i = Some s -> st_rank s = Z.of_nat i + 1)
       /\ winner payload = nth_error standings 0
       /\ (winner payload = None <-> items = []).
Proof.
  rewrite postEnd_run. cbv zeta.
  destruct (not_ participantId); [discriminate|].
  destruct (findParty (db w) (toUpperCase code)) as [party|]; [|discriminate].
  destruct (Party.status party); [|discriminate].
  destruct (negb _); [discriminate|].
  intros H. inversion H; subst payload; clear H.
  exists party. split; [reflexivity|].
  unfold endPayloadOf. cbn [finalStandings winner].
  destruct (standingsOf_spec (orderBy Song.queuePosition (party_songs (db w) party))
              (voteCountMapOf (db w) party)) as (Hs & Hp & Hr & Hw & Hn).
  cbv zeta in Hs, Hp, Hr, Hw, Hn.
  split; [exact Hs|]. split.
  - eapply perm_trans; [exact Hp|].
    erewrite map_ext; [|intros a; apply entryOf_itemEntry].
    apply Permutation_map. apply sortBy_perm.
  - split; [exact Hr|]. split; [exact Hw|].
    rewrite Hn. unfold orderBy. split; intros E.
    + apply length_zero_iff_nil.
      rewrite <- (sortBy_length (fun a b => Song.queuePosition a - Song.queuePosition b)).
      now rewrite E.
    + now rewrite E.
Qed.

Lemma end_session_standings_witness :
  exists party,
    findParty (db Demo.world) (toUpperCase "abcdef") = Some party
    /\ let items := party_songs (db Demo.world) party in
       let standings := finalStandings (endPayloadOf (db Demo.world) Demo.party) in
       StronglySorted (fun a b => inOrder (st_song a) (st_song b)) standings
       /\ Permutation (map st_song standings)
                      (map (itemEntry (db Demo.world) party) items)
       /\ (forall i s, nth_error standings i = Some s -> st_rank s = Z.of_nat i + 1)
       /\ winner (endPayloadOf (db Demo.world) Demo.party) = nth_error standings 0
       /\ (winner (endPayloadOf (db Demo.world) Demo.party) = None <-> items = []).
Proof.
  apply (@end_session_standings (Demo.env [] 200) "abcdef" "h1"
           Demo.world Demo.ended).
  vm_compute. reflexivity.
Defined.

Lemma getParty_run (code : string) (w : World) :
  getParty code w =
  match findParty (db w) (toUpperCase code) with
  | None => (error 404 "Party not found", w)
  | Some party => (json 200 (snapshotOf (db w) party), w)
  end.
Proof.
  unfold getParty, findParty. unfold_calls. unfold_monad. reduce.
  now destruct (find _ (parties (db w))).
Qed.

Lemma postJoin_run (env : Env) (code name : string) (w : World) :
  postJoin env code name w =
  let room := toUpperCase code in
  if not_ (trim name) then (error 400 "name is required", w)
  else
    match findParty (db w) room with
    | None => (error 404 "Party not found", w)
    | Some party =>
        match Party.status party with
        | ENDED => (error 409 "Party already ended", w)
        | ACTIVE =>
            let row := Participant.mk (newId env 0) (Party.id party) (trim name)
                         false (now env) in
            if participantClash (db w) row then
              (error 409 "That display name is already in use in this party", w)
            else
              let d' := addParticipant row (db w) in
              (json 200 ((Party.id party, Party.code party, Party.name party,
                          Party.status party), row),
               mkWorld d' (log w ++ [DbWrite TParticipant] ++ snapshotEmits d' room))
        end
    end.
Proof.
  unfold postJoin, snapshotEmits, participantClash, addParticipant, findParty.
  unfold_calls. unfold_monad. reduce.
  destruct (not_ (trim name)); [reflexivity|].
  destruct (find _ (parties (db w))) as [party|] eqn:Ef; [|reflexivity].
  destruct (Party.status party); [|reflexivity].
  cbn [Participant.id Participant.partyId Participant.name].
  destruct (existsb _ (participants (db w))); reduce; [reflexivity|].
  rewrite Ef. reduce. rewrite <- ?app_assoc. reflexivity.
Qed.

Lemma postSongs_run (env : Env)
    (code participantId title artist artworkUrl previewUrl externalUrl : string)
    (w : World) :
  postSongs env code participantId title artist artworkUrl previewUrl externalUrl w =
  let room := toUpperCase code in
  if not_ participantId || not_ (trim title) || not_ (trim artist) then
    (error 400 "participantId, title and artist are required", w)
  else
    match findParty (db w) room with
    | None => (error 404 "Party not found", w)
    | Some party =>
        match Party.status party with
        | ENDED => (error 409 "Party already ended", w)
        | ACTIVE =>
            if negb (isMemberOf (db w) (Party.id party) participantId) then
              (error 403 "Participant is not in this party", w)
            else
              let n := List.length (party_songs (db w) party) in
              if queueFull party n then
                (error 409 "Party has reached max songs", w)
              else
                let song := Song.mk (newId env 0) (Party.id party) participantId
                              (trim title) (trim artist)
                              (orNull (trim artworkUrl)) (orNull (trim previewUrl))
                              (orNull (trim externalUrl))
                              (Z.of_nat n + 1) (now env) in
                if songClash (db w) song then (error 500 "Failed to add song", w)
                else
                  let d' := addSong song (db w) in
                  (json 201 (mkSnapshotSong song 0 []),
                   mkWorld d'
                     (log w ++ [DbWrite TSong] ++ snapshotEmits d' room
                            ++ [Emit room (queue_updated (Song.id song))]))
        end
    end.
Proof.
  unfold postSongs, snapshotEmits, songClash, addSong, isMemberOf, queueFull, findParty.
  unfold_calls. unfold_monad. reduce.
  destruct (not_ participantId || not_ (trim title) || not_ (trim artist));
    [reflexivity|].
  destruct (find _ (parties (db w))) as [party|] eqn:Ef; [|reflexivity].
  destruct (Party.status party); [|reflexivity].
  destruct (find _ (participants (db w))); reduce; [|reflexivity].
  destruct (match Party.maxSongs party with Some _ => _ | None => _ end);
    [reflexivity|].
  cbn [Song.id Song.partyId Song.queuePosition].
  destruct (existsb _ (songs (db w))); reduce; [reflexivity|].
  rewrite Ef. reduce. rewrite <- ?app_assoc. reflexivity.
Qed.

Lemma existsb_of_In {A} (p : A -> bool) (l : list A) (x : A) :
  In x l -> p x = true -> existsb p l = true.
Proof. intros Hin Hp. apply existsb_exists. now exists x. Qed.

Lemma postVotes_run (env : Env) (code participantId songId : string) (w : World) :
  postVotes env code participantId songId w =
  let room := toUpperCase code in
  if not_ participantId || not_ songId then
    (error 400 "participantId and songId are required", w)
  else
    match findParty (db w) room with
    | None => (error 404 "Party not found", w)
    | Some party =>
        match Party.status party with
        | ENDED => (error 409 "Party already ended", w)
        | ACTIVE =>
            if negb (isMemberOf (db w) (Party.id party) participantId) then
              (error 403 "Participant is not in this party", w)
            else if negb (hasSong (db w) (Party.id party) songId) then
              (error 404 "Song not found in this party", w)
            else
              match findVote (db w) songId participantId with
              | Some existingVote =>
                  let d' := deleteVote (Vote.id existingVote) (db w) in
                  let voteCount := countVotes d' songId in
                  (json 200 (mkVotePayload songId voteCount false),
                   mkWorld d'
                     (log w ++ [DbWrite TVote;
                                Emit room (votes_updated songId voteCount)]
                            ++ snapshotEmits d' room))
              | None =>
                  let row := Vote.mk (newId env 0) (Party.id party) songId
                               participantId (now env) in
                  if voteClash (db w) row then (error 500 "Failed to update vote", w)
                  else
                    let d' := addVote row (db w) in
                    let voteCount := countVotes d' songId in
                    (json 200 (mkVotePayload songId voteCount true),
                     mkWorld d'
                       (log w ++ [DbWrite TVote;
                                  Emit room (votes_updated songId voteCount)]
                              ++ snapshotEmits d' room))
              end
        end
    end.
Proof.
  unfold postVotes, snapshotEmits, voteClash, addVote, deleteVote, countVotes,
    findVote, isMemberOf, hasSong, findParty.
  unfold_calls. unfold_monad. reduce.
  destruct (not_ participantId || not_ songId); [reflexivity|].
  destruct (find _ (parties (db w))) as [party|] eqn:Ef; [|reflexivity].
  destruct (Party.status party); [|reflexivity].
  destruct (find _ (participants (db w))); reduce; [|reflexivity].
  destruct (find _ (songs (db w))); reduce; [|reflexivity].
  destruct (find _ (votes (db w))) as [v|] eqn:Ev; reduce.
  - apply find_some in Ev. destruct Ev as [Hin _].
    rewrite (existsb_of_In (fun v0 => Vote.id v0 =? Vote.id v) _ v Hin
               (String.eqb_refl _)).
    reduce. rewrite Ef. reduce. rewrite <- ?app_assoc. reflexivity.
  - cbn [Vote.id Vote.songId Vote.participantId].
    destruct (existsb _ (votes (db w))); reduce; [reflexivity|].
    rewrite Ef. reduce. rewrite <- ?app_assoc. reflexivity.
Qed.

Lemma find_map_code (ps : list Party.t) (code : string) (f : Party.t -> Party.t) :
  (forall p, Party.code (f p) = Party.code p) ->
  find (fun p => Party.code p =? code) (map f ps)
  = option_map f (find (fun p => Party.code p =? code) ps).
Proof.
  intros Hf. induction ps as [|p ps IH]; simpl; [reflexivity|].
  rewrite Hf. destruct (Party.code p =? code); [reflexivity|exact IH].
Qed.

Lemma postCurrentSong_run (code participantId songId : string) (w : World) :
  postCurrentSong code participantId songId w =
  let room := toUpperCase code in
  if not_ participantId || not_ songId then
    (error 400 "participantId and songId are required", w)
  else
    match findParty (db w) room with
    | None => (error 404 "Party not found", w)
    | Some party =>
        match Party.status party with
        | ENDED => (error 409 "Party already ended", w)
        | ACTIVE =>
            if negb (isHostOf (db w) (Party.id party) participantId) then
              (error 403 "Only host can change current song", w)
            else if negb (hasSong (db w) (Party.id party) songId) then
              (error 404 "Song not found in this party", w)
            else
              match partyById (db w) (Party.id party) with
              | None => (error 500 "Failed to set current song", w)
              | Some row =>
                  let d' := updateParty (Party.id party) (setCurrentSong songId)
                              (db w) in
                  (json 200 (setCurrentSong songId row),
                   mkWorld d'
                     (log w ++ [DbWrite TParty;
                                Emit room (party_state_updated (Some (Some songId))
                                             (Party.status row))]
                            ++ snapshotEmits d' room))
              end
        end
    end.
Proof.
  unfold postCurrentSong, snapshotEmits, updateParty, partyById, isHostOf,
    hasSong, findParty.
  unfold_calls. unfold_monad. reduce.
  destruct (not_ participantId || not_ songId); [reflexivity|].
  destruct (find _ (parties (db w))) as [party|] eqn:Ef; [|reflexivity].
  destruct (Party.status party); [|reflexivity].
  destruct (find _ (participants (db w))); reduce; [|reflexivity].
  destruct (find _ (songs (db w))); reduce; [|reflexivity].
  destruct (find (fun p => Party.id p =? Party.id party) _) as [row|];
    reduce; [|reflexivity].
  destruct (find _ (map _ _)); reduce; rewrite <- ?app_assoc; reflexivity.
Qed.

Lemma postPlayback_run (env : Env) (code participantId action : string)
    (offsetSec : Number) (w : World) :
  postPlayback env code participantId action offsetSec w =
  let room := toUpperCase code in
  if not_ participantId || not_ (toUpperCase action) then
    (error 400 "participantId and action are required", w)
  else
    match findParty (db w) room with
    | None => (error 404 "Party not found", w)
    | Some party =>
        match Party.status party with
        | ENDED => (error 409 "Party already ended", w)
        | ACTIVE =>
            if negb (isHostOf (db w) (Party.id party) participantId) then
              (error 403 "Only host can control playback", w)
            else
              match playbackAction (toUpperCase action) offsetSec party (now env) with
              | None => (error 400 "action must be PLAY or PAUSE", w)
              | Some (playbackStatus, playbackStartedAt, playbackOffsetSec) =>
                  let payload := mkPlaybackPayload playbackStatus playbackStartedAt
                                   playbackOffsetSec in
                  let d' := updateParty (Party.id party)
                              (setPlayback playbackStatus playbackStartedAt
                                           playbackOffsetSec) (db w) in
                  (json 200 payload,
                   mkWorld d'
                     (log w ++ [DbWrite TParty;
                                Emit room (party_playback_updated payload)]
                            ++ snapshotEmits d' room))
              end
        end
    end.
Proof.
  unfold postPlayback, snapshotEmits, updateParty, isHostOf, findParty.
  unfold_calls. unfold_monad. reduce.
  destruct (not_ participantId || not_ (toUpperCase action)); [reflexivity|].
  destruct (find _ (parties (db w))) as [party|] eqn:Ef; [|reflexivity].
  destruct (Party.status party); [|reflexivity].
  destruct (find _ (participants (db w))); reduce; [|reflexivity].
  destruct (playbackAction _ _ _ _) as [[[st started] off]|]; [|reflexivity].
  destruct (find_id_of_code _ _ Ef) as [row ->]. reduce.
  cbn [setPlayback Party.playbackStatus Party.playbackStartedAt
       Party.playbackOffsetSec].
  destruct (find _ (map _ _)); reduce; rewrite <- ?app_assoc; reflexivity.
Qed.

Lemma generatePartyCode_loop_run (env : Env) (attempts i : nat) (w : World) :
  generatePartyCode_loop env attempts i w =
  (match freshCode env (db w) attempts i with
   | Some code => Return code
   | None => Throw (JsError "Could not generate unique party code")
   end, w).
Proof.
  revert i. induction attempts as [|n IH]; intros i; [reflexivity|].
  cbn [generatePartyCode_loop freshCode]. unfold findParty.
  unfold_calls. unfold_monad.
  destruct (find _ (parties (db w))); [apply IH|reflexivity].
Qed.

Lemma postParties_run (env : Env) (name hostName : string)
    (maxSongs durationMinutes : option Number) (w : World) :
  postParties env name hostName maxSongs durationMinutes w =
  if not_ (trim name) || not_ (trim hostName) then
    (error 400 "name and hostName are required", w)
  else
    match freshCode env (db w) 10 0 with
    | None => (error 500 "Failed to create party", w)
    | Some code =>
        match intArg (parseOptionalNumber maxSongs),
              intArg (parseOptionalNumber durationMinutes) with
        | Some maxSongs, Some durationMinutes =>
            let party := newParty env code (trim name) maxSongs durationMinutes in
            let participant := Participant.mk (newId env 1) (Party.id party)
                                 (trim hostName) true (now env) in
            if partyClash (db w) party then (error 500 "Failed to create party", w)
            else if participantClash (db w) participant then
              (error 500 "Failed to create party", w)
            else
              (json 201 (party, participant),
               mkWorld
                 (updateParty (Party.id party) (setHost (Participant.id participant))
                    (addParticipant participant (addParty party (db w))))
                 (log w ++ [DbWrite TParty; DbWrite TParticipant; DbWrite TParty]))
        | _, _ => (error 500 "Failed to create party", w)
        end
    end.
Proof.
  unfold postParties, generatePartyCode. cbv zeta.
  destruct (not_ (trim name) || not_ (trim hostName)); [reflexivity|].
  unfold tryCatch, bind at 1. rewrite generatePartyCode_loop_run.
  destruct (freshCode env (db w) 10 0) as [code|]; [|reflexivity].
  unfold partyClash, participantClash, updateParty, addParticipant, addParty, newParty.
  unfold_calls.
  destruct (intArg (parseOptionalNumber maxSongs)) as [ms|]; [|reflexivity].
  destruct (intArg (parseOptionalNumber durationMinutes)) as [dm|]; [|reflexivity].
  unfold_monad. reduce.
  cbn [Party.id Party.code Participant.id Participant.partyId Participant.name].
  destruct (existsb _ (parties (db w))); reduce; [reflexivity|].
  destruct (existsb _ (participants (db w))); reduce; [reflexivity|].
  rewrite find_app. cbn [find Party.id]. rewrite String.eqb_refl.
  destruct (find _ (parties (db w))); reduce; rewrite <- ?app_assoc; reflexivity.
Qed.

(** ** CreateSession (C8) *)

Lemma map_update_absent (ps : list Party.t) (id : Id) (f : Party.t -> Party.t) :
  existsb (fun p => Party.id p =? id) ps = false ->
  map (fun p => if Party.id p =? id then f p else p) ps = ps.
Proof.
  induction ps as [|p ps IH]; simpl; intros H; [reflexivity|].
  apply orb_false_iff in H. destruct H as [Hp Hps].
  rewrite Hp. f_equal. now apply IH.
Qed.

Lemma partyClash_id (d : Db) (row : Party.t) :
  partyClash d row = false ->
  existsb (fun p => Party.id p =? Party.id row) (parties d) = false.
Proof.
  unfold partyClash. induction (parties d) as [|p ps IH]; simpl; [reflexivity|].
  intros H. apply orb_false_iff in H. destruct H as [Hp Hps].
  apply orb_false_iff in Hp. destruct Hp as [Hid _].
  rewrite Hid. now apply IH.
Qed.


(** What a successful CreateSession leaves in the database. *)
Lemma created_db (d : Db) (party : Party.t) (participant : Participant.t) :
  partyClash d party = false ->
  updateParty (Party.id party) (setHost (Participant.id participant))
    (addParticipant participant (addParty party d))
  = mkDb (parties d ++ [setHost (Participant.id participant) party])
         (participants d ++ [participant]) (songs d) (votes d).
Proof.
  intros H. unfold updateParty, addParticipant, addParty. cbn [parties participants songs votes].
  rewrite map_app, (map_update_absent _ _ _ (partyClash_id _ _ H)).
  cbn [map]. now rewrite String.eqb_refl.
Qed.

(** C8. CreateSession is atomic.  When it succeeds, the database has
    gained exactly the party, with its host reference set to the new
    participant, and that participant, a host of this party; when it
    fails, the world is the one before the call. *)
Theorem create_session_atomic
    (env : Env) (name hostName : string)
    (maxSongs durationMinutes : option Number) (w : World) :
  match postParties env name hostName maxSongs durationMinutes w with
  | (json _ (party, participant), w') =>
      db w' = mkDb (parties (db w) ++ [setHost (Participant.id participant) party])
                   (participants (db w) ++ [participant])
                   (songs (db w)) (votes (db w))
      /\ Party.hostParticipantId (setHost (Participant.id participant) party)
         = Some (Participant.id participant)
      /\ Participant.partyId participant = Party.id party
      /\ Participant.isHost participant = true
  | (error _ _, w') => w' = w
  end.
Proof.
  rewrite postParties_run.
  destruct (not_ (trim name) || not_ (trim hostName)); [reflexivity|].
  destruct (freshCode env (db w) 10 0) as [code|]; [|reflexivity].
  destruct (intArg (parseOptionalNumber maxSongs)) as [ms|]; [|reflexivity].
  destruct (intArg (parseOptionalNumber durationMinutes)) as [dm|]; [|reflexivity].
  cbv zeta.
  destruct (partyClash (db w) _) eqn:Ec; [reflexivity|].
  destruct (participantClash (db w) _); [reflexivity|].
  cbn [db]. rewrite (created_db _ _ _ Ec). repeat split.
Qed.

(** The two ways CreateSession fails after its validation.  When the
    identifier generated for the host is taken, the party row written just
    before is rolled back with the transaction; when all ten codes drawn
    are taken, nothing is written at all. *)
Example create_session_rolled_back :
  postParties (Demo.env ["p2"; "h1"] 300) "Saturday" "Host" None None Demo.world
  = (error 500 "Failed to create party", Demo.world).
Proof. reflexivity. Qed.

Example create_session_codes_exhausted :
  postParties (mkEnv 300 (Demo.env ["p2"; "h2"] 300).(newId) (fun k => Nat.modulo k 6))
              "Saturday" "Host" None None Demo.world
  = (error 500 "Failed to create party", Demo.world).
Proof. reflexivity. Qed.

Example create_session_second_party :
  exists party participant w',
    postParties (Demo.env ["p2"; "h2"] 300) "Saturday" "Host" None (Some (Finite 90))
                Demo.world
    = (json 201 (party, participant), w')
    /\ Party.code party = "GHJKLM"
    /\ findParty (db w') "GHJKLM"
       = Some (setHost "h2" party).
Proof. do 3 eexists. split; [vm_compute; reflexivity|]. split; reflexivity. Qed.

(** ** The playback clock (C4, C10) *)

(** The position the handler derives is the [position] of the
    specification, the start time 0 (the epoch itself) apart. *)
Lemma currentOffsetSec_position (party : Party.t) (t : Date) :
  Party.playbackStartedAt party <> Some 0 ->
  (currentOffsetSec party t == position party t)%Q.
Proof.
  unfold currentOffsetSec, position. intros H.
  destruct (Party.playbackStatus party); [|apply Qplus_0_r].
  destruct (Party.playbackStartedAt party) as [s|]; [|apply Qplus_0_r].
  destruct (Z.eqb_spec s 0) as [->|_]; [congruence|reflexivity].
Qed.

Lemma findParty_updateParty (d : Db) (code : string) (party : Party.t)
    (f : Party.t -> Party.t) :
  (forall p, Party.code (f p) = Party.code p) ->
  findParty d code = Some party ->
  findParty (updateParty (Party.id party) f d) code = Some (f party).
Proof.
  intros Hf H. unfold findParty, updateParty in *. cbn [parties].
  rewrite find_map_code.
  - rewrite H. simpl. now rewrite String.eqb_refl.
  - intros p. destruct (Party.id p =? Party.id party); [apply Hf|reflexivity].
Qed.

(** The explicit offset of the specification is not what the handler
    stores when the offset is negative: pausing the playing party at
    time 3500 with offset -5 stores 0, not the position 5/2. *)
Lemma playback_negative_offset_counterexample :
  exists payload,
    fst (postPlayback (Demo.env [] 3500) "abcdef" "h1" "pause" (Finite (-5))
           Demo.playing) = json 200 payload
    /\ findParty (db Demo.playing) "ABCDEF" = Some Demo.playingParty
    /\ (specifiedBase (Finite (-5)) Demo.playingParty 3500 == 5 # 2)%Q
    /\ (pp_playbackOffsetSec payload == 0)%Q
    /\ ~ (pp_playbackOffsetSec payload
          == specifiedBase (Finite (-5)) Demo.playingParty 3500)%Q.
Proof.
  eexists. split; [vm_compute; reflexivity|].
  split; [reflexivity|]. split; [reflexivity|]. split; [reflexivity|].
  vm_compute. discriminate.
Qed.

(** A party that started to play at the epoch itself: the handler reads
    the start time 0 as no start time (line 512), so a Pause five seconds
    later stores the offset 0, while the position of the specification is
    5. *)
Example playback_epoch_start :
  let party := setPlayback PLAYING (Some 0) 0%Q Demo.party in
  let w := snd (postPlayback (Demo.env [] 0) "abcdef" "h1" "play" NaN Demo.world) in
  findParty (db w) "ABCDEF" = Some party
  /\ (position party 5000 == 5)%Q
  /\ fst (postPlayback (Demo.env [] 5000) "abcdef" "h1" "pause" NaN w)
     = json 200 (mkPlaybackPayload PAUSED None (0 + 0)%Q).
Proof. cbv zeta. repeat split. Qed.

(** C4, amended.  For a Play or a Pause by the host of an active party
    whose clock did not start at the epoch (time 0), the new offset is the
    explicit offset when it is finite and not negative, 0 when it is
    finite and negative, and otherwise the position at [now] that the
    specification derives from the prior state; Play stores PLAYING and
    the start time [now], Pause stores PAUSED and no start time.  The
    reply carries the same three values that the party row then holds. *)
Theorem playback_play_pause
    (env : Env) (code participantId action : string) (offsetSec : Number)
    (w : World) (party : Party.t) :
  not_ participantId = false ->
  findParty (db w) (toUpperCase code) = Some party ->
  Party.status party = ACTIVE ->
  isHostOf (db w) (Party.id party) participantId = true ->
  toUpperCase action = "PLAY" \/ toUpperCase action = "PAUSE" ->
  Party.playbackStartedAt party <> Some 0 ->
  let play := toUpperCase action =? "PLAY" in
  let playbackStatus := if play then PLAYING else PAUSED in
  let playbackStartedAt := if play then Some (now env) else None in
  let result := postPlayback env code participantId action offsetSec w in
  exists playbackOffsetSec,
    (playbackOffsetSec == clampedBase offsetSec party (now env))%Q
    /\ fst result
       = json 200 (mkPlaybackPayload playbackStatus playbackStartedAt
                                     playbackOffsetSec)
    /\ findParty (db (snd result)) (toUpperCase code)
       = Some (setPlayback playbackStatus playbackStartedAt playbackOffsetSec
                           party).
Proof.
  intros Hp Hf Hs Hh Ha H0. cbv zeta. rewrite postPlayback_run. cbv zeta.
  rewrite Hp, Hf, Hs, Hh.
  assert (Hn : not_ (toUpperCase action) = false)
    by (destruct Ha as [-> | ->]; reflexivity).
  rewrite Hn. cbn [orb negb].
  exists (offsetFrom offsetSec (currentOffsetSec party (now env))).
  split.
  - unfold clampedBase. destruct offsetSec; cbn [offsetFrom];
      try (now apply currentOffsetSec_position).
    unfold max0. reflexivity.
  - unfold playbackAction.
    destruct Ha as [-> | ->]; cbn [String.eqb Ascii.eqb Bool.eqb andb fst snd db];
      (split; [reflexivity|]); apply findParty_updateParty; auto.
Qed.

(** A Pause without an offset on the party that has played for 2.5
    seconds: the base is the position, 5/2. *)
Lemma playback_play_pause_witness :
  let result := postPlayback (Demo.env [] 3500) "abcdef" "h1" "pause" NaN
                  Demo.playing in
  exists playbackOffsetSec,
    (playbackOffsetSec == clampedBase NaN Demo.playingParty 3500)%Q
    /\ fst result = json 200 (mkPlaybackPayload PAUSED None playbackOffsetSec)
    /\ findParty (db (snd result)) (toUpperCase "abcdef")
       = Some (setPlayback PAUSED None playbackOffsetSec Demo.playingParty).
Proof.
  apply (@playback_play_pause (Demo.env [] 3500) "abcdef" "h1" "pause"
           NaN Demo.playing Demo.playingParty).
  - reflexivity.
  - reflexivity.
  - reflexivity.
  - reflexivity.
  - right. reflexivity.
  - discriminate.
Defined.

(** C10. A SetPlayback whose action, upper-cased, is neither PLAY nor
    PAUSE changes nothing.  On an active party and from its host it is
    answered 400; and the answer is the 400 of the action check itself
    exactly when the required fields are present, the party exists, it is
    active and the caller is its host, that is, after the checks for
    NotFound, AlreadyEnded and NotHost. *)
Theorem playback_invalid_action
    (env : Env) (code participantId action : string) (offsetSec : Number)
    (w : World) :
  toUpperCase action <> "PLAY" ->
  toUpperCase action <> "PAUSE" ->
  let result := postPlayback env code participantId action offsetSec w in
  snd result = w
  /\ (forall party,
        findParty (db w) (toUpperCase code) = Some party ->
        Party.status party = ACTIVE ->
        isHostOf (db w) (Party.id party) participantId = true ->
        exists message, fst result = error 400 message)
  /\ (fst result = error 400 "action must be PLAY or PAUSE" <->
      not_ participantId = false /\ not_ (toUpperCase action) = false
      /\ exists party,
           findParty (db w) (toUpperCase code) = Some party
           /\ Party.status party = ACTIVE
           /\ isHostOf (db w) (Party.id party) participantId = true).
Proof.
  intros Hplay Hpause. cbv zeta. rewrite postPlayback_run. cbv zeta.
  assert (Hact : playbackAction (toUpperCase action) offsetSec = fun _ _ => None).
  { unfold playbackAction.
    destruct (String.eqb_spec (toUpperCase action) "PLAY"); [contradiction|].
    destruct (String.eqb_spec (toUpperCase action) "PAUSE"); [contradiction|].
    reflexivity. }
  rewrite Hact.
  destruct (not_ participantId) eqn:Ep; cbn [orb].
  { split; [reflexivity|]. split.
    - intros party _ _ _. now eexists.
    - split; [discriminate|]. intros [H _]. discriminate H. }
  destruct (not_ (toUpperCase action)) eqn:Ea.
  { split; [reflexivity|]. split.
    - intros party _ _ _. now eexists.
    - split; [discriminate|]. intros [_ [H _]]. discriminate H. }
  destruct (findParty (db w) (toUpperCase code)) as [party|].
  2:{ split; [reflexivity|]. split; [intros party H; discriminate H|].
      split; [discriminate|]. intros [_ [_ [party [H _]]]]. discriminate H. }
  destruct (Party.status party) eqn:Es.
  2:{ split; [reflexivity|]. split.
      - intros p H E. inversion H; subst p. congruence.
      - split; [discriminate|]. intros [_ [_ [p [H [E _]]]]].
        inversion H; subst p. congruence. }
  destruct (isHostOf (db w) (Party.id party) participantId) eqn:Eh; cbn [negb].
  - split; [reflexivity|]. split; [intros; now eexists|].
    split; [|reflexivity]. intros _. repeat split. now exists party.
  - split; [reflexivity|]. split.
    + intros p H _ E. inversion H; subst p. congruence.
    + split; [discriminate|]. intros [_ [_ [p [H [_ E]]]]].
      inversion H; subst p. congruence.
Qed.

Lemma playback_invalid_action_witness :
  let result := postPlayback (Demo.env [] 150) "abcdef" "h1" "stop" NaN Demo.world in
  snd result = Demo.world
  /\ (forall party,
        findParty (db Demo.world) (toUpperCase "abcdef") = Some party ->
        Party.status party = ACTIVE ->
        isHostOf (db Demo.world) (Party.id party) "h1" = true ->
        exists message, fst result = error 400 message)
  /\ (fst result = error 400 "action must be PLAY or PAUSE" <->
      not_ "h1" = false /\ not_ (toUpperCase "stop") = false
      /\ exists party,
           findParty (db Demo.world) (toUpperCase "abcdef") = Some party
           /\ Party.status party = ACTIVE
           /\ isHostOf (db Demo.world) (Party.id party) "h1" = true).
Proof.
  apply (@playback_invalid_action (Demo.env [] 150) "abcdef" "h1" "stop" NaN
           Demo.world); vm_compute; discriminate.
Defined.

(** ** Publications (C9) *)

Lemma findParty_addSong (d : Db) (code : string) (row : Song.t) :
  findParty (addSong row d) code = findParty d code.
Proof. reflexivity. Qed.

Lemma snapshotEmits_found (d : Db) (room : string) (party : Party.t) :
  findParty d room = Some party ->
  snapshotEmits d room = [Emit room (party_snapshot (snapshotOf d party))].
Proof. unfold snapshotEmits. now intros ->. Qed.

(** A vote toggled by the host of the demo party publishes the vote
    count before the snapshot. *)
Lemma publication_order_counterexample :
  let result := serve (Demo.env ["v2"] 105) (ToggleVote "abcdef" "h1" "s1")
                      Demo.world in
  fst result = VoteToggled (json 200 (mkVotePayload "s1" 1 true))
  /\ emitted (added Demo.world (snd result)) = ["votes:updated"; "party:snapshot"]
  /\ snapshotFirst (emitted (added Demo.world (snd result))) = false.
Proof. vm_compute. repeat split. Qed.

(** C9, amended.  A call that fails, and a read, leave the world as it
    was.  A mutating call that succeeds first commits and then publishes:
    AddItem the snapshot and then queue-updated; ToggleVote, SetCurrentItem
    and SetPlayback their own event and then the snapshot; EndSession
    ended, state-updated and then the snapshot; JoinSession the snapshot
    alone; CreateSession nothing.  The snapshot published is the one of
    the database after the commit. *)
Theorem publications_after_commit (env : Env) (call : Call) (w : World) :
  let result := serve env call w in
  let w' := snd result in
  match roomOf call with
  | None =>
      match effectsOf call (fst result) [] with
      | Some effects => log w' = log w ++ effects
      | None => w' = w
      end
  | Some room =>
      match effectsOf call (fst result) (snapshotEmits (db w') room) with
      | Some effects =>
          log w' = log w ++ effects
          /\ exists party,
               findParty (db w') room = Some party
               /\ snapshotEmits (db w') room
                  = [Emit room (party_snapshot (snapshotOf (db w') party))]
      | None => w' = w
      end
  end.
Proof.
  destruct call; cbn [serve roomOf on fst snd]; cbv zeta.
  - rewrite postParties_run.
    destruct (not_ _ || not_ _); [reflexivity|].
    destruct (freshCode _ _ _ _); [|reflexivity].
    destruct (intArg _); [|reflexivity]. destruct (intArg _); [|reflexivity].
    cbv zeta. destruct (partyClash _ _); [reflexivity|].
    destruct (participantClash _ _); reflexivity.
  - rewrite postJoin_run. cbv zeta.
    destruct (not_ _); [reflexivity|].
    destruct (findParty _ _) as [party|] eqn:Ef; [|reflexivity].
    destruct (Party.status party); [|reflexivity].
    destruct (participantClash _ _); [reflexivity|].
    cbn [fst snd effectsOf db log]. split; [reflexivity|].
    exists party. split; [exact Ef|]. now apply snapshotEmits_found.
  - rewrite getParty_run. now destruct (findParty _ _).
  - rewrite postSongs_run. cbv zeta.
    destruct (not_ _ || not_ _ || not_ _); [reflexivity|].
    destruct (findParty _ _) as [party|] eqn:Ef; [|reflexivity].
    destruct (Party.status party); [|reflexivity].
    destruct (negb _); [reflexivity|].
    destruct (queueFull _ _); [reflexivity|].
    destruct (songClash _ _); [reflexivity|].
    cbn [fst snd effectsOf db log ss_song Song.id]. split; [reflexivity|].
    exists party. split; [exact Ef|]. now apply snapshotEmits_found.
  - rewrite postVotes_run. cbv zeta.
    destruct (not_ _ || not_ _); [reflexivity|].
    destruct (findParty _ _) as [party|] eqn:Ef; [|reflexivity].
    destruct (Party.status party); [|reflexivity].
    destruct (negb _); [reflexivity|]. destruct (negb _); [reflexivity|].
    destruct (findVote _ _ _).
    + cbn [fst snd effectsOf db log vp_songId vp_voteCount].
      split; [reflexivity|].
      exists party. split; [exact Ef|]. now apply snapshotEmits_found.
    + destruct (voteClash _ _); [reflexivity|].
      cbn [fst snd effectsOf db log vp_songId vp_voteCount].
      split; [reflexivity|].
      exists party. split; [exact Ef|]. now apply snapshotEmits_found.
  - rewrite postCurrentSong_run. cbv zeta.
    destruct (not_ _ || not_ _); [reflexivity|].
    destruct (findParty _ _) as [party|] eqn:Ef; [|reflexivity].
    destruct (Party.status party); [|reflexivity].
    destruct (negb _); [reflexivity|]. destruct (negb _); [reflexivity|].
    destruct (partyById _ _) as [row|]; [|reflexivity].
    cbn [fst snd effectsOf db log]. split; [reflexivity|].
    exists (setCurrentSong songId party).
    assert (Hf := @findParty_updateParty (db w) (toUpperCase code) party
                    (setCurrentSong songId) (fun _ => eq_refl) Ef).
    split; [exact Hf|]. now apply snapshotEmits_found.
  - rewrite postPlayback_run. cbv zeta.
    destruct (not_ _ || not_ _); [reflexivity|].
    destruct (findParty _ _) as [party|] eqn:Ef; [|reflexivity].
    destruct (Party.status party); [|reflexivity].
    destruct (negb _); [reflexivity|].
    destruct (playbackAction _ _ _ _) as [[[st started] off]|]; [|reflexivity].
    cbn [fst snd effectsOf db log]. split; [reflexivity|].
    exists (setPlayback st started off party).
    assert (Hf := @findParty_updateParty (db w) (toUpperCase code) party
                    (setPlayback st started off) (fun _ => eq_refl) Ef).
    split; [exact Hf|]. now apply snapshotEmits_found.
  - rewrite postEnd_run. cbv zeta.
    destruct (not_ _); [reflexivity|].
    destruct (findParty _ _) as [party|] eqn:Ef; [|reflexivity].
    destruct (Party.status party); [|reflexivity].
    destruct (negb _); [reflexivity|].
    cbn [fst snd effectsOf db log]. split; [reflexivity|].
    exists (endParty (now env) party).
    assert (Hf := @findParty_updateParty (db w) (toUpperCase code) party
                    (endParty (now env)) (fun _ => eq_refl) Ef).
    split; [exact Hf|]. now apply snapshotEmits_found.
Qed.

(** ** The invariant *)

Lemma Inv_empty : Inv emptyDb.
Proof.
  constructor; simpl; try constructor.
  intros s [].
Qed.

Lemma existsb_false_not_In {A B} (f : A -> B) (eqb : B -> B -> bool) (l : list A)
    (b : B) :
  (forall x y, eqb x y = true <-> x = y) ->
  existsb (fun a => eqb (f a) b) l = false -> ~ In b (map f l).
Proof.
  intros Heq H Hin. apply in_map_iff in Hin. destruct Hin as [a [<- Ha]].
  assert (existsb (fun x => eqb (f x) (f a)) l = true) as Ht.
  { apply existsb_exists. exists a. split; [exact Ha|]. now apply Heq. }
  rewrite Ht in H. discriminate H.
Qed.

Lemma NoDup_snoc {A} (l : list A) (x : A) :
  NoDup l -> ~ In x l -> NoDup (l ++ [x]).
Proof.
  intros Hl Hx. apply NoDup_app; [exact Hl|repeat constructor; intros []|].
  intros y Hy [<-|[]]. now apply Hx.
Qed.

Lemma NoDup_map_filter {A B} (key : A -> B) (keep : A -> bool) (rows : list A)
    (Hrows : NoDup (map key rows)) :
  NoDup (map key (filter keep rows)).
Proof.
  induction rows as [|row rows IH]; simpl in *; [constructor|].
  apply NoDup_cons_iff in Hrows. destruct Hrows as [Hfresh Hrows].
  destruct (keep row); simpl; [|now apply IH].
  constructor; [|now apply IH].
  intros Hin. apply Hfresh. apply in_map_iff in Hin. destruct Hin as [x [<- Hx]].
  apply filter_In in Hx. apply in_map. tauto.
Qed.

Lemma map_id_update (ps : list Party.t) (id : Id) (f : Party.t -> Party.t) :
  (forall p, Party.id (f p) = Party.id p) ->
  map Party.id (map (fun p => if Party.id p =? id then f p else p) ps)
  = map Party.id ps.
Proof.
  intros Hf. rewrite map_map. apply map_ext. intros p.
  destruct (Party.id p =? id); [apply Hf|reflexivity].
Qed.

Lemma Inv_updateParty (d : Db) (id : Id) (f : Party.t -> Party.t) :
  (forall p, Party.id (f p) = Party.id p) ->
  (forall p, clockOk p -> clockOk (f p)) ->
  Inv d -> Inv (updateParty id f d).
Proof.
  intros Hid Hclock [H1 H0 H2 H3 H4 H5 H6]. constructor; cbn [updateParty parties votes songs];
    try assumption.
  - now rewrite map_id_update.
  - intros s Hs. destruct (H4 s Hs) as [p [Hp Hps]].
    exists (if Party.id p =? id then f p else p). split.
    + apply in_map_iff. now exists p.
    + destruct (Party.id p =? id); [now rewrite Hid|exact Hps].
  - rewrite Forall_forall in *. intros p Hp.
    apply in_map_iff in Hp. destruct Hp as [q [<- Hq]].
    destruct (Party.id q =? id); auto.
Qed.

Lemma Inv_addParticipant (d : Db) (row : Participant.t) :
  Inv d -> Inv (addParticipant row d).
Proof. intros [H1 H0 H2 H3 H4 H5 H6]. now constructor. Qed.

Lemma oneTo_snoc (n : nat) : oneTo (S n) = oneTo n ++ [Z.of_nat n + 1].
Proof.
  unfold oneTo. rewrite seq_S, map_app. simpl. do 2 f_equal. lia.
Qed.

Lemma songsOf_addSong (d : Db) (row : Song.t) (partyId : Id) :
  songsOf (addSong row d) partyId
  = songsOf d partyId ++ (if Song.partyId row =? partyId then [row] else []).
Proof. unfold songsOf, addSong. cbn [songs]. now rewrite filter_app. Qed.

Lemma songClash_fresh (d : Db) (row : Song.t) :
  songClash d row = false -> ~ In (Song.id row) (map Song.id (songs d)).
Proof.
  unfold songClash. intros H Hin. apply in_map_iff in Hin.
  destruct Hin as [s [Hs Hin]].
  assert (existsb (fun s => (Song.id s =? Song.id row)
                            || ((Song.partyId s =? Song.partyId row)
                                && (Song.queuePosition s =? Song.queuePosition row)%Z))
                  (songs d) = true) as Ht.
  { apply existsb_exists. exists s. split; [exact Hin|].
    now rewrite Hs, String.eqb_refl. }
  rewrite Ht in H. discriminate H.
Qed.

Lemma Inv_addSong (d : Db) (party : Party.t) (row : Song.t) :
  songClash d row = false ->
  In party (parties d) ->
  Song.partyId row = Party.id party ->
  Song.queuePosition row = Z.of_nat (List.length (songsOf d (Party.id party))) + 1 ->
  Inv d -> Inv (addSong row d).
Proof.
  intros Hclash Hin Hpid Hpos [H1 H0 H2 H3 H4 H5 H6]. constructor; try assumption.
  - cbn [addSong songs]. rewrite map_app. apply NoDup_snoc; [exact H0|].
    now apply songClash_fresh.
  - intros s Hs. cbn [addSong songs parties] in *. apply in_app_or in Hs.
    destruct Hs as [Hs|[<-|[]]]; [now apply H4|].
    exists party. now split.
  - intros pid. rewrite songsOf_addSong.
    destruct (String.eqb_spec (Song.partyId row) pid) as [E|E].
    + rewrite map_app, length_app, H5. cbn [map List.length].
      rewrite Nat.add_1_r, oneTo_snoc. do 2 f_equal.
      rewrite Hpos. now rewrite <- Hpid, E.
    + now rewrite !app_nil_r.
Qed.

Lemma voteClash_fresh (d : Db) (row : Vote.t) :
  voteClash d row = false ->
  ~ In (Vote.id row) (map Vote.id (votes d))
  /\ ~ In (votePair row) (map votePair (votes d)).
Proof.
  unfold voteClash. intros H. split; intros Hin;
    apply in_map_iff in Hin; destruct Hin as [v [Hv Hin]];
    assert (existsb (fun v => (Vote.id v =? Vote.id row)
                              || ((Vote.songId v =? Vote.songId row)
                                  && (Vote.participantId v =? Vote.participantId row)))
                    (votes d) = true) as Ht;
    try congruence; apply existsb_exists; exists v; split; auto.
  - rewrite Hv, String.eqb_refl. reflexivity.
  - unfold votePair in Hv. inversion Hv. rewrite !String.eqb_refl.
    apply orb_true_r.
Qed.

Lemma Inv_addVote (d : Db) (row : Vote.t) :
  voteClash d row = false -> Inv d -> Inv (addVote row d).
Proof.
  intros Hc [H1 H0 H2 H3 H4 H5 H6]. destruct (voteClash_fresh _ _ Hc) as [Hi Hp].
  constructor; cbn [addVote parties votes songs]; try assumption.
  - rewrite map_app. now apply NoDup_snoc.
  - rewrite map_app. now apply NoDup_snoc.
Qed.

Lemma Inv_deleteVote (d : Db) (id : Id) : Inv d -> Inv (deleteVote id d).
Proof.
  intros [H1 H0 H2 H3 H4 H5 H6].
  constructor; cbn [deleteVote parties votes songs]; try assumption;
    now apply NoDup_map_filter.
Qed.

Lemma clockOk_newParty (env : Env) (code name : string) (ms dm : option Z) (h : Id) :
  clockOk (setHost h (newParty env code name ms dm)).
Proof. unfold clockOk. simpl. split; [congruence|discriminate]. Qed.

Lemma Inv_created (d : Db) (party : Party.t) (participant : Participant.t) :
  partyClash d party = false ->
  clockOk (setHost (Participant.id participant) party) ->
  Inv d ->
  Inv (mkDb (parties d ++ [setHost (Participant.id participant) party])
            (participants d ++ [participant]) (songs d) (votes d)).
Proof.
  intros Hc Hk [H1 H0 H2 H3 H4 H5 H6]. constructor; cbn [parties votes songs];
    try assumption.
  - rewrite map_app. apply NoDup_snoc; [exact H1|]. cbn [setHost Party.id].
    apply (existsb_false_not_In Party.id String.eqb); [apply String.eqb_eq|].
    now apply partyClash_id.
  - intros s Hs. destruct (H4 s Hs) as [p [Hp Hps]].
    exists p. split; [apply in_or_app; now left|exact Hps].
  - apply Forall_app. split; [exact H6|now constructor].
Qed.

Lemma findParty_In (d : Db) (code : string) (party : Party.t) :
  findParty d code = Some party -> In party (parties d) /\ Party.code party = code.
Proof.
  unfold findParty. intros H. apply find_some in H.
  destruct H as [Hin Hc]. split; [exact Hin|now apply String.eqb_eq].
Qed.

Lemma clockOk_setPlayback (action : string) (offsetSec : Number) (party : Party.t)
    (t : Date) (st : PlaybackStatus) (started : option Date) (off : Q) (p : Party.t) :
  playbackAction action offsetSec party t = Some (st, started, off) ->
  clockOk (setPlayback st started off p).
Proof.
  unfold playbackAction, clockOk.
  destruct (action =? "PLAY").
  - intros H. inversion H. simpl. split; [reflexivity|discriminate].
  - destruct (action =? "PAUSE"); [|discriminate].
    intros H. inversion H. simpl. split; [congruence|discriminate].
Qed.

Lemma serve_Inv (env : Env) (call : Call) (w : World) :
  Inv (db w) -> Inv (db (snd (serve env call w))).
Proof.
  intros HI. destruct call; cbn [serve on fst snd].
  - rewrite postParties_run.
    destruct (not_ _ || not_ _); [exact HI|].
    destruct (freshCode _ _ _ _); [|exact HI].
    destruct (intArg _); [|exact HI]. destruct (intArg _); [|exact HI].
    cbv zeta. destruct (partyClash _ _) eqn:Ec; [exact HI|].
    destruct (participantClash _ _); [exact HI|].
    cbn [snd db]. rewrite (created_db _ _ _ Ec).
    apply Inv_created; [exact Ec|apply clockOk_newParty|exact HI].
  - rewrite postJoin_run. cbv zeta.
    destruct (not_ _); [exact HI|].
    destruct (findParty _ _) as [party|]; [|exact HI].
    destruct (Party.status party); [|exact HI].
    destruct (participantClash _ _); [exact HI|].
    now apply Inv_addParticipant.
  - rewrite getParty_run. now destruct (findParty _ _).
  - rewrite postSongs_run. cbv zeta.
    destruct (not_ _ || not_ _ || not_ _); [exact HI|].
    destruct (findParty _ _) as [party|] eqn:Ef; [|exact HI].
    destruct (Party.status party); [|exact HI].
    destruct (negb _); [exact HI|].
    destruct (queueFull _ _); [exact HI|].
    destruct (songClash _ _) eqn:Ec; [exact HI|].
    cbn [snd db]. apply Inv_addSong with (party := party); auto.
    now apply findParty_In in Ef.
  - rewrite postVotes_run. cbv zeta.
    destruct (not_ _ || not_ _); [exact HI|].
    destruct (findParty _ _) as [party|]; [|exact HI].
    destruct (Party.status party); [|exact HI].
    destruct (negb _); [exact HI|]. destruct (negb _); [exact HI|].
    destruct (findVote _ _ _).
    + now apply Inv_deleteVote.
    + destruct (voteClash _ _) eqn:Ec; [exact HI|]. now apply Inv_addVote.
  - rewrite postCurrentSong_run. cbv zeta.
    destruct (not_ _ || not_ _); [exact HI|].
    destruct (findParty _ _) as [party|]; [|exact HI].
    destruct (Party.status party); [|exact HI].
    destruct (negb _); [exact HI|]. destruct (negb _); [exact HI|].
    destruct (partyById _ _); [|exact HI].
    apply Inv_updateParty; auto.
    intros p _. unfold clockOk. simpl. split; [congruence|discriminate].
  - rewrite postPlayback_run. cbv zeta.
    destruct (not_ _ || not_ _); [exact HI|].
    destruct (findParty _ _) as [party|]; [|exact HI].
    destruct (Party.status party); [|exact HI].
    destruct (negb _); [exact HI|].
    destruct (playbackAction _ _ _ _) as [[[st started] off]|] eqn:Ea; [|exact HI].
    apply Inv_updateParty; auto.
    intros p _. eapply clockOk_setPlayback. exact Ea.
  - rewrite postEnd_run. cbv zeta.
    destruct (not_ _); [exact HI|].
    destruct (findParty _ _) as [party|]; [|exact HI].
    destruct (Party.status party); [|exact HI].
    destruct (negb _); [exact HI|].
    apply Inv_updateParty; auto.
Qed.

Lemma run_cons (env : Env) (call : Call) (rest : list (Env * Call)) (w : World) :
  run ((env, call) :: rest) w
  = (fst (serve env call w) :: fst (run rest (snd (serve env call w))),
     snd (run rest (snd (serve env call w)))).
Proof.
  cbn [run]. destruct (serve env call w) as [r w1]. cbn [fst snd].
  now destruct (run rest w1).
Qed.

Lemma run_Inv (calls : list (Env * Call)) (w : World) :
  Inv (db w) -> Inv (db (snd (run calls w))).
Proof.
  revert w. induction calls as [|[env call] rest IH]; intros w HI; [exact HI|].
  rewrite run_cons. cbn [snd]. apply IH. now apply serve_Inv.
Qed.

Lemma reachable_Inv (w : World) : reachable w -> Inv (db w).
Proof. intros [calls <-]. apply run_Inv. exact Inv_empty. Qed.

Lemma demo_reachable : reachable Demo.world.
Proof. exists Demo.setup. vm_compute. reflexivity. Defined.

Lemma demo_playing_reachable : reachable Demo.playing.
Proof.
  exists (Demo.setup
          ++ [(Demo.env [] 1000, SetPlayback "abcdef" "h1" "play" NaN)]).
  vm_compute. reflexivity.
Defined.

(** ** The clock invariant (C6) *)

(** C6. In every state the server reaches, by any sequence of calls, each
    party has a playback start time if and only if its playback status is
    PLAYING. *)
Theorem playback_started_iff_playing (w : World) (party : Party.t) :
  reachable w ->
  In party (parties (db w)) ->
  Party.playbackStartedAt party <> None <-> Party.playbackStatus party = PLAYING.
Proof.
  intros Hr Hin. apply reachable_Inv in Hr. destruct Hr as [_ _ _ _ _ _ H].
  rewrite Forall_forall in H. exact (H party Hin).
Qed.

Lemma playback_started_iff_playing_witness :
  Party.playbackStartedAt Demo.playingParty <> None
  <-> Party.playbackStatus Demo.playingParty = PLAYING.
Proof.
  apply (@playback_started_iff_playing Demo.playing Demo.playingParty).
  - exact demo_playing_reachable.
  - simpl. left. reflexivity.
Defined.

(** ** The queue (C2) *)

Lemma findParty_updateParty_any (d : Db) (room : string) (id : Id)
    (f : Party.t -> Party.t) :
  (forall p, Party.code (f p) = Party.code p) ->
  findParty (updateParty id f d) room
  = option_map (fun p => if Party.id p =? id then f p else p) (findParty d room).
Proof.
  intros Hf. unfold findParty, updateParty. cbn [parties].
  apply find_map_code. intros p.
  destruct (Party.id p =? id); [apply Hf|reflexivity].
Qed.

Lemma songCount_updateParty (d : Db) (room : string) (id : Id)
    (f : Party.t -> Party.t) :
  (forall p, Party.code (f p) = Party.code p) ->
  (forall p, Party.id (f p) = Party.id p) ->
  songCount (updateParty id f d) room = songCount d room.
Proof.
  intros Hc Hi. unfold songCount. rewrite findParty_updateParty_any by exact Hc.
  destruct (findParty d room) as [p|]; [|reflexivity]. cbn [option_map].
  destruct (Party.id p =? id); [rewrite Hi|]; reflexivity.
Qed.

Lemma party_id_inj (d : Db) (p q : Party.t) :
  NoDup (map Party.id (parties d)) ->
  In p (parties d) -> In q (parties d) -> Party.id p = Party.id q -> p = q.
Proof.
  induction (parties d) as [|a l IH]; intros Hnd Hp Hq E; [contradiction|].
  simpl in Hnd. apply NoDup_cons_iff in Hnd. destruct Hnd as [Hn Hnd].
  destruct Hp as [->|Hp], Hq as [->|Hq]; auto.
  - exfalso. apply Hn. rewrite E. now apply in_map.
  - exfalso. apply Hn. rewrite <- E. now apply in_map.
Qed.

Lemma songCount_addSong (d : Db) (room code : string) (party : Party.t)
    (row : Song.t) :
  Inv d ->
  findParty d code = Some party ->
  Song.partyId row = Party.id party ->
  songCount (addSong row d) room
  = (songCount d room + (if String.eqb code room then 1 else 0))%nat.
Proof.
  intros HI Hf Hrow. unfold songCount. rewrite findParty_addSong.
  destruct (String.eqb_spec code room) as [<-|Hne].
  - rewrite Hf, songsOf_addSong, Hrow, String.eqb_refl, length_app. reflexivity.
  - destruct (findParty d room) as [p|] eqn:Ep; [|reflexivity].
    rewrite songsOf_addSong, Hrow.
    destruct (String.eqb_spec (Party.id party) (Party.id p)) as [E|_].
    + exfalso. apply findParty_In in Hf, Ep.
      destruct Hf as [Hin1 Hc1], Ep as [Hin2 Hc2].
      assert (party = p) by (apply (party_id_inj d); auto; apply HI).
      apply Hne. congruence.
    + now rewrite app_nil_r, Nat.add_0_r.
Qed.

Lemma songsOf_fresh_party (d : Db) (row : Party.t) :
  Inv d -> partyClash d row = false -> songsOf d (Party.id row) = [].
Proof.
  intros HI Hc. unfold songsOf.
  destruct (filter _ (songs d)) as [|s l] eqn:E; [reflexivity|exfalso].
  assert (Hs : In s (filter (fun s => Song.partyId s =? Party.id row) (songs d)))
    by (rewrite E; now left).
  apply filter_In in Hs. destruct Hs as [Hin Hid]. apply String.eqb_eq in Hid.
  destruct (inv_song_party HI s Hin) as [p [Hp Hps]].
  apply partyClash_id in Hc.
  assert (existsb (fun q => Party.id q =? Party.id row) (parties d) = true) as Ht.
  { apply existsb_exists. exists p. split; [exact Hp|].
    apply String.eqb_eq. congruence. }
  rewrite Ht in Hc. discriminate Hc.
Qed.

Lemma songCount_created (d : Db) (room : string) (party : Party.t)
    (participant : Participant.t) :
  Inv d -> partyClash d party = false ->
  songCount (mkDb (parties d ++ [setHost (Participant.id participant) party])
                  (participants d ++ [participant]) (songs d) (votes d)) room
  = songCount d room.
Proof.
  intros HI Hc. unfold songCount, findParty. cbn [parties]. rewrite find_app.
  fold (findParty d room).
  destruct (findParty d room) as [p|]; [reflexivity|].
  cbn [find setHost Party.code].
  destruct (Party.code party =? room); [|reflexivity].
  cbn [setHost Party.id]. unfold songsOf at 1. cbn [songs].
  fold (songsOf d (Party.id party)).
  now rewrite (@songsOf_fresh_party d party HI Hc).
Qed.

Lemma serve_songCount (env : Env) (call : Call) (w : World) (room : string) :
  Inv (db w) ->
  songCount (db (snd (serve env call w))) room
  = (songCount (db w) room + addsTo room call (fst (serve env call w)))%nat.
Proof.
  intros HI. destruct call; cbn [serve on fst snd addsTo].
  - rewrite postParties_run.
    destruct (not_ _ || not_ _); [apply plus_n_O|].
    destruct (freshCode _ _ _ _); [|apply plus_n_O].
    destruct (intArg _); [|apply plus_n_O]. destruct (intArg _); [|apply plus_n_O].
    cbv zeta. destruct (partyClash _ _) eqn:Ec; [apply plus_n_O|].
    destruct (participantClash _ _); [apply plus_n_O|].
    cbn [fst snd db]. rewrite (created_db _ _ _ Ec), Nat.add_0_r.
    now apply songCount_created.
  - rewrite postJoin_run. cbv zeta.
    destruct (not_ _); [apply plus_n_O|].
    destruct (findParty _ _) as [party|]; [|apply plus_n_O].
    destruct (Party.status party); [|apply plus_n_O].
    destruct (participantClash _ _); apply plus_n_O.
  - rewrite getParty_run. destruct (findParty _ _); apply plus_n_O.
  - rewrite postSongs_run. cbv zeta.
    destruct (not_ _ || not_ _ || not_ _); [apply plus_n_O|].
    destruct (findParty _ _) as [party|] eqn:Ef; [|apply plus_n_O].
    destruct (Party.status party); [|apply plus_n_O].
    destruct (negb _); [apply plus_n_O|].
    destruct (queueFull _ _); [apply plus_n_O|].
    destruct (songClash _ _); [apply plus_n_O|].
    cbn [fst snd db]. now apply songCount_addSong with (party := party).
  - rewrite postVotes_run. cbv zeta.
    destruct (not_ _ || not_ _); [apply plus_n_O|].
    destruct (findParty _ _) as [party|]; [|apply plus_n_O].
    destruct (Party.status party); [|apply plus_n_O].
    destruct (negb _); [apply plus_n_O|]. destruct (negb _); [apply plus_n_O|].
    destruct (findVote _ _ _); [apply plus_n_O|].
    destruct (voteClash _ _); apply plus_n_O.
  - rewrite postCurrentSong_run. cbv zeta.
    destruct (not_ _ || not_ _); [apply plus_n_O|].
    destruct (findParty _ _) as [party|]; [|apply plus_n_O].
    destruct (Party.status party); [|apply plus_n_O].
    destruct (negb _); [apply plus_n_O|]. destruct (negb _); [apply plus_n_O|].
    destruct (partyById _ _); [|apply plus_n_O].
    cbn [fst snd db]. rewrite Nat.add_0_r. now apply songCount_updateParty.
  - rewrite postPlayback_run. cbv zeta.
    destruct (not_ _ || not_ _); [apply plus_n_O|].
    destruct (findParty _ _) as [party|]; [|apply plus_n_O].
    destruct (Party.status party); [|apply plus_n_O].
    destruct (negb _); [apply plus_n_O|].
    destruct (playbackAction _ _ _ _) as [[[st started] off]|]; [|apply plus_n_O].
    cbn [fst snd db]. rewrite Nat.add_0_r. now apply songCount_updateParty.
  - rewrite postEnd_run. cbv zeta.
    destruct (not_ _); [apply plus_n_O|].
    destruct (findParty _ _) as [party|]; [|apply plus_n_O].
    destruct (Party.status party); [|apply plus_n_O].
    destruct (negb _); [apply plus_n_O|].
    cbn [fst snd db]. rewrite Nat.add_0_r. now apply songCount_updateParty.
Qed.

Lemma run_songCount (calls : list (Env * Call)) (w : World) (room : string) :
  Inv (db w) ->
  songCount (db (snd (run calls w))) room
  = (songCount (db w) room + successfulAdds room calls (fst (run calls w)))%nat.
Proof.
  revert w. induction calls as [|[env call] rest IH]; intros w HI.
  - simpl. apply plus_n_O.
  - rewrite run_cons. cbn [fst snd successfulAdds].
    rewrite IH by now apply serve_Inv.
    rewrite serve_songCount by exact HI. symmetry. apply Nat.add_assoc.
Qed.

(** The order of the checks: at capacity, an AddItem from someone who is
    not in the party is refused as such (403), before the capacity is
    looked at. *)
Example add_item_checks_member_first :
  (exists party,
     findParty (db Demo.world) "ABCDEF" = Some party
     /\ Party.maxSongs party = Some 2
     /\ List.length (songsOf (db Demo.world) (Party.id party)) = 2%nat)
  /\ serve (Demo.env ["s3"] 105)
           (AddItem "abcdef" "nobody" "Gamma" "Cyd" "" "" "") Demo.world
     = (ItemAdded (error 403 "Participant is not in this party"), Demo.world).
Proof.
  split; [exists Demo.party; repeat split|reflexivity].
Qed.

(** C2.  After any run from the empty database, the queue positions of
    the items of a party, oldest first, are exactly 1..N, where N is the
    number of AddItem calls on that party that succeeded.  When the party
    has a capacity and the number of its items has reached it, a further
    AddItem (its required fields present, the party active, the caller a
    participant of it) fails with 409 "Party has reached max songs"; and
    any AddItem on that party then fails and adds nothing. *)
Theorem queue_positions_and_capacity :
  (forall (calls : list (Env * Call)) (room : string) (party : Party.t),
     let result := run calls initialWorld in
     findParty (db (snd result)) room = Some party ->
     map Song.queuePosition (songsOf (db (snd result)) (Party.id party))
     = oneTo (successfulAdds room calls (fst result)))
  /\ (forall (env : Env)
        (code participantId title artist artworkUrl previewUrl externalUrl : string)
        (w : World) (party : Party.t) (maxSongs : Z),
        findParty (db w) (toUpperCase code) = Some party ->
        Party.maxSongs party = Some maxSongs ->
        Z.of_nat (List.length (songsOf (db w) (Party.id party))) >= maxSongs ->
        let result := postSongs env code participantId title artist
                        artworkUrl previewUrl externalUrl w in
        snd result = w
        /\ (exists status message, fst result = error status message)
        /\ (not_ participantId = false ->
            not_ (trim title) = false ->
            not_ (trim artist) = false ->
            Party.status party = ACTIVE ->
            isMemberOf (db w) (Party.id party) participantId = true ->
            fst result = error 409 "Party has reached max songs")).
Proof.
  split.
  - intros calls room party result Hf.
    assert (HI : Inv (db (snd result))) by (apply run_Inv; exact Inv_empty).
    rewrite (inv_positions HI). f_equal.
    assert (Hc := run_songCount calls initialWorld room Inv_empty).
    fold result in Hc. unfold songCount in Hc. rewrite Hf in Hc.
    exact Hc.
  - intros env code participantId title artist artworkUrl previewUrl externalUrl
           w party maxSongs Hf Hm Hfull. cbv zeta.
    rewrite postSongs_run. cbv zeta. rewrite Hf.
    assert (Hq : queueFull party (List.length (party_songs (db w) party)) = true).
    { unfold queueFull. rewrite Hm. apply Z.geb_le.
      change (party_songs (db w) party) with (songsOf (db w) (Party.id party)).
      lia. }
    rewrite Hq.
    destruct (not_ participantId || not_ (trim title) || not_ (trim artist)) eqn:Ev.
    { split; [reflexivity|]. split; [now eexists; eexists|].
      intros H1 H2 H3. rewrite H1, H2, H3 in Ev. discriminate Ev. }
    destruct (Party.status party).
    2:{ split; [reflexivity|]. split; [now eexists; eexists|]. discriminate. }
    destruct (isMemberOf (db w) (Party.id party) participantId); cbn [negb].
    + split; [reflexivity|]. split; [now eexists; eexists|]. reflexivity.
    + split; [reflexivity|]. split; [now eexists; eexists|]. discriminate.
Qed.

Lemma queue_positions_and_capacity_witness :
  map Song.queuePosition (songsOf (db Demo.world) "p1") = [1; 2]
  /\ serve (Demo.env ["s3"] 105)
           (AddItem "abcdef" "g1" "Gamma" "Cyd" "" "" "") Demo.world
     = (ItemAdded (error 409 "Party has reached max songs"), Demo.world).
Proof.
  destruct queue_positions_and_capacity as [Hpos Hfull]. split.
  - exact (Hpos Demo.setup "ABCDEF" Demo.party eq_refl).
  - destruct (Hfull (Demo.env ["s3"] 105) "abcdef" "g1" "Gamma" "Cyd" "" "" ""
                Demo.world Demo.party 2 eq_refl eq_refl) as [Hw [_ Hr]].
    + vm_compute. discriminate.
    + unfold serve, on.
      rewrite Hw, (Hr eq_refl eq_refl eq_refl eq_refl eq_refl). reflexivity.
Defined.

(** ** Votes (C5) *)

Lemma db_eta (d : Db) : mkDb (parties d) (participants d) (songs d) (votes d) = d.
Proof. now destruct d. Qed.

Lemma filter_all {A} (p : A -> bool) (l : list A) :
  (forall x, In x l -> p x = true) -> filter p l = l.
Proof.
  induction l as [|a l IH]; simpl; intros H; [reflexivity|].
  rewrite (H a (or_introl eq_refl)). f_equal. apply IH. intros x Hx. apply H. now right.
Qed.

Lemma vote_id_inj (l : list Vote.t) (x y : Vote.t) :
  NoDup (map Vote.id l) -> In x l -> In y l -> Vote.id x = Vote.id y -> x = y.
Proof.
  induction l as [|a l IH]; intros Hnd Hx Hy E; [contradiction|].
  simpl in Hnd. apply NoDup_cons_iff in Hnd. destruct Hnd as [Hn Hnd].
  destruct Hx as [->|Hx], Hy as [->|Hy]; auto.
  - exfalso. apply Hn. rewrite E. now apply in_map.
  - exfalso. apply Hn. rewrite <- E. now apply in_map.
Qed.

Lemma vote_pair_inj (l : list Vote.t) (x y : Vote.t) :
  NoDup (map votePair l) -> In x l -> In y l -> votePair x = votePair y -> x = y.
Proof.
  induction l as [|a l IH]; intros Hnd Hx Hy E; [contradiction|].
  simpl in Hnd. apply NoDup_cons_iff in Hnd. destruct Hnd as [Hn Hnd].
  destruct Hx as [->|Hx], Hy as [->|Hy]; auto.
  - exfalso. apply Hn. rewrite E. now apply in_map.
  - exfalso. apply Hn. rewrite <- E. now apply in_map.
Qed.

(** Deleting the vote of identifier [Vote.id v0] removes [v0] alone. *)
Lemma count_without (f : Vote.t -> bool) (l : list Vote.t) (v0 : Vote.t) :
  NoDup (map Vote.id l) -> In v0 l ->
  List.length (filter f l)
  = (List.length
       (filter f (filter (fun v => negb (String.eqb (Vote.id v) (Vote.id v0))) l))
     + (if f v0 then 1 else 0))%nat.
Proof.
  induction l as [|a l IH]; intros Hnd Hin; [contradiction|].
  assert (Hnd' := Hnd). simpl in Hnd'. apply NoDup_cons_iff in Hnd'.
  destruct Hnd' as [Hn Hl].
  cbn [filter]. destruct (String.eqb_spec (Vote.id a) (Vote.id v0)) as [E|E];
    cbn [negb].
  - assert (a = v0) by (apply (vote_id_inj (a :: l)); auto; now left). subst a.
    rewrite (filter_all (fun v => negb (Vote.id v =? Vote.id v0)) l).
    + destruct (f v0); cbn [List.length]; lia.
    + intros x Hx. destruct (String.eqb_spec (Vote.id x) (Vote.id v0)) as [Ex|];
        [|reflexivity].
      exfalso. apply Hn. rewrite <- Ex. now apply in_map.
  - destruct Hin as [->|Hin]; [congruence|].
    cbn [filter]. destruct (f a); cbn [List.length]; rewrite (IH Hl Hin); lia.
Qed.

Lemma hasVote_existsb (d : Db) (songId participantId : Id) :
  hasVote d songId participantId
  = existsb (fun v => (Vote.songId v =? songId) && (Vote.participantId v =? participantId))
            (votes d).
Proof.
  unfold hasVote, findVote. induction (votes d) as [|v l IH]; simpl; [reflexivity|].
  destruct ((Vote.songId v =? songId) && (Vote.participantId v =? participantId));
    [reflexivity|exact IH].
Qed.

Lemma pair_eqb (v : Vote.t) (s p : Id) :
  (Vote.songId v =? s) && (Vote.participantId v =? p) = true <-> votePair v = (s, p).
Proof.
  unfold votePair. rewrite andb_true_iff, !String.eqb_eq.
  split; [intros [-> ->]; reflexivity|intros H; inversion H; auto].
Qed.

Lemma findVote_In (d : Db) (s p : Id) (v : Vote.t) :
  findVote d s p = Some v -> In v (votes d) /\ votePair v = (s, p).
Proof.
  unfold findVote. intros H. apply find_some in H. destruct H as [Hin Hp].
  split; [exact Hin|now apply pair_eqb].
Qed.

(** The database after a vote is created and deleted again. *)
Lemma delete_added (d : Db) (row : Vote.t) :
  voteClash d row = false -> deleteVote (Vote.id row) (addVote row d) = d.
Proof.
  intros Hc. destruct (voteClash_fresh _ _ Hc) as [Hid _].
  unfold deleteVote, addVote. cbn [parties participants songs votes].
  rewrite filter_app. cbn [filter]. rewrite String.eqb_refl. cbn [negb].
  rewrite app_nil_r, filter_all; [apply db_eta|].
  intros x Hx. destruct (String.eqb_spec (Vote.id x) (Vote.id row)) as [E|];
    [|reflexivity].
  exfalso. apply Hid. rewrite <- E. now apply in_map.
Qed.

(** Once the vote of a pair is deleted, the pair has no vote. *)
Lemma findVote_deleted (d : Db) (s p : Id) (v0 : Vote.t) :
  Inv d -> findVote d s p = Some v0 ->
  findVote (deleteVote (Vote.id v0) d) s p = None.
Proof.
  intros HI Hf. apply findVote_In in Hf. destruct Hf as [Hin Hp].
  unfold findVote, deleteVote. cbn [votes]. apply find_all_false.
  intros x Hx. apply filter_In in Hx. destruct Hx as [Hx Hid].
  destruct ((Vote.songId x =? s) && (Vote.participantId x =? p)) eqn:E;
    [|reflexivity].
  apply pair_eqb in E.
  assert (x = v0) by (apply (vote_pair_inj (votes d)); auto;
                      [apply HI|congruence]).
  subst x. now rewrite String.eqb_refl in Hid.
Qed.

Lemma countVotes_readded (d : Db) (s : Id) (v0 row : Vote.t) :
  Inv d -> In v0 (votes d) -> Vote.songId row = Vote.songId v0 ->
  countVotes (addVote row (deleteVote (Vote.id v0) d)) s = countVotes d s.
Proof.
  intros HI Hin Hs. unfold countVotes, addVote, deleteVote. cbn [votes].
  rewrite filter_app, length_app.
  rewrite (count_without (fun v => Vote.songId v =? s) (votes d) v0
             (inv_vote_ids HI) Hin).
  cbn [filter]. rewrite Hs. now destruct (Vote.songId v0 =? s).
Qed.

Lemma hasVote_readded (d : Db) (s p : Id) (v0 row : Vote.t) :
  Inv d -> In v0 (votes d) -> votePair row = votePair v0 ->
  hasVote (addVote row (deleteVote (Vote.id v0) d)) s p = hasVote d s p.
Proof.
  intros HI Hin Hp. rewrite !hasVote_existsb.
  unfold addVote, deleteVote. cbn [votes].
  apply eq_true_iff_eq. rewrite !existsb_exists. split.
  - intros [x [Hx Hm]]. apply in_app_or in Hx. destruct Hx as [Hx|[<-|[]]].
    + apply filter_In in Hx. exists x. tauto.
    + exists v0. split; [exact Hin|]. apply pair_eqb. apply pair_eqb in Hm.
      congruence.
  - intros [x [Hx Hm]].
    destruct (String.eqb_spec (Vote.id x) (Vote.id v0)) as [E|E].
    + assert (x = v0) by (apply (vote_id_inj (votes d)); auto; apply HI).
      subst x. exists row. split; [apply in_or_app; right; now left|].
      apply pair_eqb. apply pair_eqb in Hm. congruence.
    + exists x. split; [|exact Hm]. apply in_or_app. left.
      apply filter_In. split; [exact Hx|].
      now destruct (String.eqb_spec (Vote.id x) (Vote.id v0)).
Qed.

Lemma findParty_deleteVote (d : Db) (id : Id) (room : string) :
  findParty (deleteVote id d) room = findParty d room.
Proof. reflexivity. Qed.

Lemma isMemberOf_deleteVote (d : Db) (id partyId participantId : Id) :
  isMemberOf (deleteVote id d) partyId participantId
  = isMemberOf d partyId participantId.
Proof. reflexivity. Qed.

Lemma hasSong_deleteVote (d : Db) (id partyId songId : Id) :
  hasSong (deleteVote id d) partyId songId = hasSong d partyId songId.
Proof. reflexivity. Qed.

Lemma findParty_addVote (d : Db) (row : Vote.t) (room : string) :
  findParty (addVote row d) room = findParty d room.
Proof. reflexivity. Qed.

Lemma isMemberOf_addVote (d : Db) (row : Vote.t) (partyId participantId : Id) :
  isMemberOf (addVote row d) partyId participantId
  = isMemberOf d partyId participantId.
Proof. reflexivity. Qed.

Lemma hasSong_addVote (d : Db) (row : Vote.t) (partyId songId : Id) :
  hasSong (addVote row d) partyId songId = hasSong d partyId songId.
Proof. reflexivity. Qed.

(** C5. Two ToggleVote calls in succession for the same item and
    participant, both answered, undo each other: the first answers
    voted=true exactly when the participant had no vote on the item, the
    second answers the opposite, the vote count it reports is the count
    before the first call, and afterwards every item has the vote count
    and every pair the vote it had before. *)
Theorem toggle_vote_twice
    (env1 env2 : Env) (code participantId songId : string)
    (w w1 w2 : World) (first second : VotePayload) :
  reachable w ->
  postVotes env1 code participantId songId w = (json 200 first, w1) ->
  postVotes env2 code participantId songId w1 = (json 200 second, w2) ->
  vp_voted first = negb (hasVote (db w) songId participantId)
  /\ vp_voted second = negb (vp_voted first)
  /\ vp_voteCount second = countVotes (db w) songId
  /\ (forall s, countVotes (db w2) s = countVotes (db w) s)
  /\ (forall s p, hasVote (db w2) s p = hasVote (db w) s p).
Proof.
  intros Hr H1 H2. apply reachable_Inv in Hr.
  rewrite postVotes_run in H1. cbv zeta in H1.
  destruct (not_ participantId || not_ songId) eqn:Ev; [discriminate|].
  destruct (findParty (db w) (toUpperCase code)) as [party|] eqn:Ef; [|discriminate].
  destruct (Party.status party) eqn:Es; [|discriminate].
  destruct (isMemberOf (db w) (Party.id party) participantId) eqn:Em;
    [|discriminate].
  destruct (hasSong (db w) (Party.id party) songId) eqn:Eh; [|discriminate].
  cbn [negb] in H1. unfold hasVote at 1.
  rewrite postVotes_run in H2. cbv zeta in H2. rewrite Ev in H2.
  destruct (findVote (db w) songId participantId) as [v0|] eqn:E0.
  - (* a vote was there: deleted, then created again *)
    inversion H1; subst first w1; clear H1. cbn [db vp_voted] in *.
    rewrite findParty_deleteVote, Ef, Es, isMemberOf_deleteVote, Em,
      hasSong_deleteVote, Eh in H2.
    cbn [negb] in H2.
    rewrite (findVote_deleted _ _ Hr E0) in H2.
    destruct (voteClash _ _); [discriminate|].
    inversion H2; subst second w2; clear H2. cbn [db vp_voted vp_voteCount].
    apply findVote_In in E0. destruct E0 as [Hin Hp].
    assert (Hs : Vote.songId v0 = songId) by (inversion Hp; reflexivity).
    repeat split.
    + apply countVotes_readded; auto.
    + intros s. apply countVotes_readded; auto.
    + intros s p. apply hasVote_readded; auto.
  - (* no vote was there: created, then deleted again *)
    destruct (voteClash (db w) _) eqn:Ec; [discriminate|].
    inversion H1; subst first w1; clear H1. cbn [db vp_voted] in *.
    rewrite findParty_addVote, Ef, Es, isMemberOf_addVote, Em,
      hasSong_addVote, Eh in H2.
    cbn [negb] in H2.
    match type of H2 with
    | context [findVote ?d' songId participantId] =>
        assert (Hfound : findVote d' songId participantId
                         = Some (Vote.mk (newId env1 0) (Party.id party) songId
                                         participantId (now env1)))
    end.
    { unfold findVote, addVote in *. cbn [votes]. rewrite find_app, E0.
      cbn [find Vote.songId Vote.participantId].
      now rewrite !String.eqb_refl. }
    rewrite Hfound in H2. cbn [Vote.id] in H2.
    match type of H2 with
    | context [deleteVote ?i ?d'] =>
        assert (Hback : deleteVote i d' = db w) by (exact (delete_added _ _ Ec))
    end.
    rewrite Hback in H2.
    inversion H2; subst second w2; clear H2. cbn [db vp_voted vp_voteCount].
    repeat split.
Qed.

Lemma voteClash_false (d : Db) (row : Vote.t) :
  ~ In (Vote.id row) (map Vote.id (votes d)) ->
  findVote d (Vote.songId row) (Vote.participantId row) = None ->
  voteClash d row = false.
Proof.
  intros Hid Hpair. unfold voteClash.
  destruct (existsb _ (votes d)) eqn:E; [exfalso|reflexivity].
  apply existsb_exists in E. destruct E as [x [Hx Hm]].
  apply orb_true_iff in Hm. destruct Hm as [Hm|Hm].
  - apply String.eqb_eq in Hm. apply Hid. rewrite <- Hm. now apply in_map.
  - unfold findVote in Hpair. apply (find_none _ _ Hpair) in Hx.
    rewrite Hm in Hx. discriminate Hx.
Qed.

(** The second toggle is answered: always when the first one added the
    vote, and when the first one removed it as soon as the identifier
    generated for the new vote is not that of a vote in the table. *)
Lemma toggle_again_answered
    (env1 env2 : Env) (code participantId songId : string)
    (w w1 : World) (first : VotePayload) :
  reachable w ->
  postVotes env1 code participantId songId w = (json 200 first, w1) ->
  (vp_voted first = false ->
   ~ In (newId env2 0) (map Vote.id (votes (db w1)))) ->
  exists second w2,
    postVotes env2 code participantId songId w1 = (json 200 second, w2).
Proof.
  intros Hr H1 Hfresh. apply reachable_Inv in Hr.
  rewrite postVotes_run in H1. cbv zeta in H1.
  destruct (not_ participantId || not_ songId) eqn:Ev; [discriminate|].
  destruct (findParty (db w) (toUpperCase code)) as [party|] eqn:Ef; [|discriminate].
  destruct (Party.status party) eqn:Es; [|discriminate].
  destruct (isMemberOf (db w) (Party.id party) participantId) eqn:Em;
    [|discriminate].
  destruct (hasSong (db w) (Party.id party) songId) eqn:Eh; [|discriminate].
  cbn [negb] in H1. rewrite postVotes_run. cbv zeta. rewrite Ev.
  destruct (findVote (db w) songId participantId) as [v0|] eqn:E0.
  - inversion H1; subst first w1; clear H1. cbn [db vp_voted] in *.
    rewrite findParty_deleteVote, Ef, Es, isMemberOf_deleteVote, Em,
      hasSong_deleteVote, Eh.
    cbn [negb]. rewrite (findVote_deleted _ _ Hr E0).
    rewrite voteClash_false.
    + eexists. eexists. reflexivity.
    + exact (Hfresh eq_refl).
    + cbn [Vote.songId Vote.participantId]. exact (findVote_deleted _ _ Hr E0).
  - destruct (voteClash (db w) _) eqn:Ec; [discriminate|].
    inversion H1; subst first w1; clear H1. cbn [db].
    rewrite findParty_addVote, Ef, Es, isMemberOf_addVote, Em,
      hasSong_addVote, Eh.
    cbn [negb].
    destruct (findVote (addVote _ (db w)) songId participantId) eqn:E1.
    + eexists. eexists. reflexivity.
    + exfalso. unfold findVote, addVote in E1. cbn [votes] in E1.
      rewrite find_app in E1. unfold findVote in E0. rewrite E0 in E1.
      cbn [find Vote.songId Vote.participantId] in E1.
      rewrite !String.eqb_refl in E1. discriminate E1.
Qed.

Lemma toggle_vote_twice_witness :
  let first := mkVotePayload "s2" 0 false in
  let second := mkVotePayload "s2" 1 true in
  let w1 := snd (postVotes (Demo.env [] 105) "abcdef" "g1" "s2" Demo.world) in
  let w2 := snd (postVotes (Demo.env ["v2"] 106) "abcdef" "g1" "s2" w1) in
  vp_voted first = negb (hasVote (db Demo.world) "s2" "g1")
  /\ vp_voted second = negb (vp_voted first)
  /\ vp_voteCount second = countVotes (db Demo.world) "s2"
  /\ (forall s, countVotes (db w2) s = countVotes (db Demo.world) s)
  /\ (forall s p, hasVote (db w2) s p = hasVote (db Demo.world) s p).
Proof.
  cbv zeta.
  apply (@toggle_vote_twice (Demo.env [] 105) (Demo.env ["v2"] 106)
           "abcdef" "g1" "s2" Demo.world
           (snd (postVotes (Demo.env [] 105) "abcdef" "g1" "s2" Demo.world))).
  - exact demo_reachable.
  - vm_compute. reflexivity.
  - vm_compute. reflexivity.
Defined.

(** ** After the end (C3, C7) *)

Lemma isEnded_updateParty (d : Db) (room : string) (id : Id)
    (f : Party.t -> Party.t) :
  (forall p, Party.code (f p) = Party.code p) ->
  (forall p, Party.status p = ENDED -> Party.status (f p) = ENDED) ->
  isEnded d room -> isEnded (updateParty id f d) room.
Proof.
  intros Hc Hs [party [Hf He]]. unfold isEnded.
  rewrite findParty_updateParty_any by exact Hc. rewrite Hf. cbn [option_map].
  eexists. split; [reflexivity|].
  destruct (Party.id party =? id); auto.
Qed.

Lemma serve_isEnded (env : Env) (call : Call) (w : World) (room : string) :
  isEnded (db w) room -> isEnded (db (snd (serve env call w))) room.
Proof.
  intros HE. destruct call; cbn [serve on fst snd].
  - rewrite postParties_run.
    destruct (not_ _ || not_ _); [exact HE|].
    destruct (freshCode _ _ _ _); [|exact HE].
    destruct (intArg _); [|exact HE]. destruct (intArg _); [|exact HE].
    cbv zeta. destruct (partyClash _ _) eqn:Ec; [exact HE|].
    destruct (participantClash _ _); [exact HE|].
    cbn [snd db]. rewrite (created_db _ _ _ Ec).
    destruct HE as [party [Hf He]]. exists party. split; [|exact He].
    unfold findParty in *. cbn [parties]. now rewrite find_app, Hf.
  - rewrite postJoin_run. cbv zeta.
    destruct (not_ _); [exact HE|].
    destruct (findParty _ _) as [party|]; [|exact HE].
    destruct (Party.status party); [|exact HE].
    destruct (participantClash _ _); exact HE.
  - rewrite getParty_run. now destruct (findParty _ _).
  - rewrite postSongs_run. cbv zeta.
    destruct (not_ _ || not_ _ || not_ _); [exact HE|].
    destruct (findParty _ _) as [party|]; [|exact HE].
    destruct (Party.status party); [|exact HE].
    destruct (negb _); [exact HE|].
    destruct (queueFull _ _); [exact HE|].
    destruct (songClash _ _); exact HE.
  - rewrite postVotes_run. cbv zeta.
    destruct (not_ _ || not_ _); [exact HE|].
    destruct (findParty _ _) as [party|]; [|exact HE].
    destruct (Party.status party); [|exact HE].
    destruct (negb _); [exact HE|]. destruct (negb _); [exact HE|].
    destruct (findVote _ _ _); [exact HE|].
    destruct (voteClash _ _); exact HE.
  - rewrite postCurrentSong_run. cbv zeta.
    destruct (not_ _ || not_ _); [exact HE|].
    destruct (findParty _ _) as [party|]; [|exact HE].
    destruct (Party.status party); [|exact HE].
    destruct (negb _); [exact HE|]. destruct (negb _); [exact HE|].
    destruct (partyById _ _); [|exact HE].
    apply isEnded_updateParty; auto.
  - rewrite postPlayback_run. cbv zeta.
    destruct (not_ _ || not_ _); [exact HE|].
    destruct (findParty _ _) as [party|]; [|exact HE].
    destruct (Party.status party); [|exact HE].
    destruct (negb _); [exact HE|].
    destruct (playbackAction _ _ _ _) as [[[st started] off]|]; [|exact HE].
    apply isEnded_updateParty; auto.
  - rewrite postEnd_run. cbv zeta.
    destruct (not_ _); [exact HE|].
    destruct (findParty _ _) as [party|]; [|exact HE].
    destruct (Party.status party); [|exact HE].
    destruct (negb _); [exact HE|].
    apply isEnded_updateParty; auto.
Qed.

Lemma run_isEnded (calls : list (Env * Call)) (w : World) (room : string) :
  isEnded (db w) room -> isEnded (db (snd (run calls w))) room.
Proof.
  revert w. induction calls as [|[env call] rest IH]; intros w HE; [exact HE|].
  rewrite run_cons. cbn [snd]. apply IH. now apply serve_isEnded.
Qed.

(** What a successful EndSession is and does. *)
Lemma postEnd_success (env : Env) (code participantId : string) (w w1 : World)
    (payload : EndPayload) :
  postEnd env code participantId w = (json 200 payload, w1) ->
  exists party,
    findParty (db w) (toUpperCase code) = Some party
    /\ payload = endPayloadOf (db w) party
    /\ db w1 = updateParty (Party.id party) (endParty (now env)) (db w)
    /\ isEnded (db w1) (toUpperCase code).
Proof.
  rewrite postEnd_run. cbv zeta.
  destruct (not_ participantId); [discriminate|].
  destruct (findParty (db w) (toUpperCase code)) as [party|] eqn:Ef; [|discriminate].
  destruct (Party.status party); [|discriminate].
  destruct (negb _); [discriminate|].
  intros H. inversion H; subst. exists party. cbn [db].
  repeat split.
  exists (endParty (now env) party). split; [|reflexivity].
  now apply findParty_updateParty.
Qed.

(** A mutating call on an ended party, run. *)
Lemma serve_on_ended (env : Env) (call : Call) (w : World) (room : string) :
  mutating call = true ->
  roomOf call = Some room ->
  isEnded (db w) room ->
  serve env call w = (fst (serve env call w), w)
  /\ failure (fst (serve env call w))
     = Some (if requiredFields call then (409, "Party already ended")
             else (400, validationMessage call)).
Proof.
  intros Hm Hroom [party [Hf He]].
  destruct call; try discriminate Hm; cbn [roomOf] in Hroom;
    inversion Hroom; subst room; clear Hroom;
    cbn [serve on fst snd requiredFields validationMessage failure].
  - rewrite postSongs_run. cbv zeta. rewrite Hf, He.
    now destruct (not_ _ || not_ _ || not_ _).
  - rewrite postVotes_run. cbv zeta. rewrite Hf, He.
    now destruct (not_ _ || not_ _).
  - rewrite postCurrentSong_run. cbv zeta. rewrite Hf, He.
    now destruct (not_ _ || not_ _).
  - rewrite postPlayback_run. cbv zeta. rewrite Hf, He.
    now destruct (not_ _ || not_ _).
  - rewrite postEnd_run. cbv zeta. rewrite Hf, He.
    now destruct (not_ _).
Qed.

(** The order of the checks: an EndSession without a participant is
    refused for the missing field (400) before the party is read, on the
    ended demo party as on any other. *)
Example end_session_checks_fields_first :
  (exists payload,
     postEnd (Demo.env [] 200) "abcdef" "h1" Demo.world
     = (json 200 payload, Demo.ended))
  /\ serve (Demo.env [] 201) (EndSession "abcdef" "") Demo.ended
     = (SessionEnded (error 400 "participantId is required"), Demo.ended)
  /\ failure (fst (serve (Demo.env [] 201) (EndSession "abcdef" "") Demo.ended))
     <> Some (409, "Party already ended").
Proof.
  split; [eexists; vm_compute; reflexivity|].
  split; [reflexivity|]. vm_compute. discriminate.
Qed.

(** C3.  After EndSession has succeeded on a party, and whatever calls
    follow, every further AddItem, ToggleVote, SetCurrentItem, SetPlayback
    and EndSession on that party (its required fields present) fails with
    409 "Party already ended" and leaves the world as it is.  A request
    without its required fields is refused with the 400 of the validation,
    as on any party, and changes nothing either. *)
Theorem ended_session_rejects
    (env0 : Env) (code participantId : string) (w0 w1 : World)
    (payload : EndPayload)
    (calls : list (Env * Call)) (env : Env) (call : Call) :
  postEnd env0 code participantId w0 = (json 200 payload, w1) ->
  mutating call = true ->
  roomOf call = Some (toUpperCase code) ->
  let w := snd (run calls w1) in
  snd (serve env call w) = w
  /\ failure (fst (serve env call w))
     = Some (if requiredFields call then (409, "Party already ended")
             else (400, validationMessage call)).
Proof.
  intros Hend Hm Hroom w.
  destruct (postEnd_success _ _ _ _ Hend) as [party [_ [_ [_ HE]]]].
  assert (HE' : isEnded (db w) (toUpperCase code)) by now apply run_isEnded.
  destruct (serve_on_ended env call w Hm Hroom HE') as [Hw Hr].
  split; [now rewrite Hw|exact Hr].
Qed.

Lemma ended_session_rejects_witness :
  let w := snd (run [(Demo.env [] 201, GetSnapshot "abcdef")] Demo.ended) in
  let call := AddItem "ABCDEF" "g1" "Gamma" "Cyd" "" "" "" in
  snd (serve (Demo.env ["s3"] 202) call w) = w
  /\ failure (fst (serve (Demo.env ["s3"] 202) call w))
     = Some (if requiredFields call then (409, "Party already ended")
             else (400, validationMessage call)).
Proof.
  apply (@ended_session_rejects (Demo.env [] 200) "abcdef" "h1" Demo.world
           Demo.ended (endPayloadOf (db Demo.world) Demo.party)
           [(Demo.env [] 201, GetSnapshot "abcdef")] (Demo.env ["s3"] 202)
           (AddItem "ABCDEF" "g1" "Gamma" "Cyd" "" "" ""));
    vm_compute; reflexivity.
Defined.

(** *** An ended party is frozen *)

Lemma snapshotOf_ext (d d' : Db) (party : Party.t) :
  party_participants d' party = party_participants d party ->
  party_songs d' party = party_songs d party ->
  (forall s, In s (party_songs d party) -> song_votes d' s = song_votes d s) ->
  snapshotOf d' party = snapshotOf d party.
Proof.
  intros Hp Hs Hv. unfold snapshotOf. rewrite Hp, Hs. f_equal.
  apply map_ext_in. intros s Hin. rewrite Hv; [reflexivity|].
  unfold orderBy in Hin. eapply Permutation_in; [apply sortBy_perm|exact Hin].
Qed.

Lemma song_id_inj (l : list Song.t) (x y : Song.t) :
  NoDup (map Song.id l) -> In x l -> In y l -> Song.id x = Song.id y -> x = y.
Proof.
  induction l as [|a l IH]; intros Hnd Hx Hy E; [contradiction|].
  simpl in Hnd. apply NoDup_cons_iff in Hnd. destruct Hnd as [Hn Hnd].
  destruct Hx as [->|Hx], Hy as [->|Hy]; auto.
  - exfalso. apply Hn. rewrite E. now apply in_map.
  - exfalso. apply Hn. rewrite <- E. now apply in_map.
Qed.

(** An active party is not the ended one, and has another identifier. *)
Lemma other_party (d : Db) (room : string) (ended other : Party.t) :
  Inv d ->
  findParty d room = Some ended -> Party.status ended = ENDED ->
  In other (parties d) -> Party.status other = ACTIVE ->
  (Party.id other =? Party.id ended) = false.
Proof.
  intros HI Hf He Hin Ha. apply findParty_In in Hf. destruct Hf as [Hin' _].
  destruct (String.eqb_spec (Party.id other) (Party.id ended)) as [E|]; [|reflexivity].
  assert (other = ended) by (apply (party_id_inj d); auto; apply HI).
  congruence.
Qed.

(** The songs of the ended party are not songs of another party. *)
Lemma song_of_other (d : Db) (ended other : Party.t) (songId : Id) (s : Song.t) :
  Inv d ->
  (Party.id other =? Party.id ended) = false ->
  hasSong d (Party.id other) songId = true ->
  In s (party_songs d ended) ->
  (songId =? Song.id s) = false.
Proof.
  intros HI Hne Hhas Hs. unfold hasSong in Hhas.
  destruct (find _ (songs d)) as [s'|] eqn:E; [|discriminate].
  apply find_some in E. destruct E as [Hin' Hm].
  apply andb_true_iff in Hm. destruct Hm as [Hid Hpid].
  apply String.eqb_eq in Hid, Hpid.
  apply filter_In in Hs. destruct Hs as [Hin Hp]. apply String.eqb_eq in Hp.
  destruct (String.eqb_spec songId (Song.id s)) as [E|]; [|reflexivity].
  assert (s' = s) by (apply (song_id_inj (songs d)); auto; [apply HI|congruence]).
  subst s'. rewrite Hpid in Hp. rewrite Hp, String.eqb_refl in Hne. discriminate.
Qed.

Lemma filter_filter_same {A} (p q : A -> bool) (l : list A) :
  (forall x, In x l -> p x = true -> q x = true) ->
  filter p (filter q l) = filter p l.
Proof.
  induction l as [|a l IH]; intros H; [reflexivity|]. cbn [filter].
  assert (IH' : filter p (filter q l) = filter p l)
    by (apply IH; intros x Hx; apply H; now right).
  destruct (q a) eqn:Eq.
  - cbn [filter]. now rewrite IH'.
  - destruct (p a) eqn:Ep; [|exact IH'].
    rewrite (H a (or_introl eq_refl) Ep) in Eq. discriminate Eq.
Qed.

Lemma viewOf_updateParty (d : Db) (room : string) (ended other : Party.t)
    (f : Party.t -> Party.t) :
  (forall p, Party.code (f p) = Party.code p) ->
  findParty d room = Some ended ->
  (Party.id other =? Party.id ended) = false ->
  viewOf (updateParty (Party.id other) f d) room = viewOf d room.
Proof.
  intros Hc Hf Hne. unfold viewOf.
  rewrite findParty_updateParty_any by exact Hc. rewrite Hf. cbn [option_map].
  rewrite String.eqb_sym, Hne. reflexivity.
Qed.

(** No call changes what a read of an ended party returns. *)
Lemma serve_view (env : Env) (call : Call) (w : World) (room : string) :
  Inv (db w) -> isEnded (db w) room ->
  viewOf (db (snd (serve env call w))) room = viewOf (db w) room.
Proof.
  intros HI [ended [Hf He]].
  assert (Hother : forall code other,
            findParty (db w) code = Some other -> Party.status other = ACTIVE ->
            (Party.id other =? Party.id ended) = false).
  { intros code other Hfo Ha. apply other_party with (d := db w) (room := room); auto.
    now apply findParty_In in Hfo. }
  destruct call; cbn [serve on fst snd].
  - rewrite postParties_run.
    destruct (not_ _ || not_ _); [reflexivity|].
    destruct (freshCode _ _ _ _); [|reflexivity].
    destruct (intArg _); [|reflexivity]. destruct (intArg _); [|reflexivity].
    cbv zeta. destruct (partyClash _ _) eqn:Ec; [reflexivity|].
    destruct (participantClash _ _); [reflexivity|].
    cbn [snd db]. rewrite (created_db _ _ _ Ec).
    unfold viewOf, findParty in *. cbn [parties]. rewrite find_app, Hf.
    cbn [option_map]. f_equal. apply snapshotOf_ext; try reflexivity.
    unfold party_participants. cbn [participants]. rewrite filter_app.
    cbn [filter Participant.partyId newParty Party.id].
    apply find_some in Hf. destruct Hf as [Hin _].
    apply partyClash_id in Ec. cbn [newParty Party.id] in Ec.
    destruct (String.eqb_spec (newId env 0) (Party.id ended)) as [E|];
      [|apply app_nil_r].
    exfalso.
    assert (existsb (fun p => Party.id p =? newId env 0) (parties (db w)) = true) as Ht.
    { apply existsb_exists. exists ended. split; [exact Hin|].
      rewrite E. apply String.eqb_refl. }
    rewrite Ht in Ec. discriminate Ec.
  - rewrite postJoin_run. cbv zeta.
    destruct (not_ _); [reflexivity|].
    destruct (findParty (db w) (toUpperCase code)) as [party|] eqn:Efo; [|reflexivity].
    destruct (Party.status party) eqn:Es; [|reflexivity].
    destruct (participantClash _ _); [reflexivity|].
    cbn [snd db]. unfold viewOf. rewrite Hf. cbn [option_map].
    change (findParty (addParticipant _ (db w)) room) with (findParty (db w) room).
    rewrite Hf. cbn [option_map]. f_equal. apply snapshotOf_ext; try reflexivity.
    unfold party_participants, addParticipant. cbn [participants].
    rewrite filter_app. cbn [filter Participant.partyId].
    rewrite (Hother _ _ Efo Es). apply app_nil_r.
  - rewrite getParty_run. now destruct (findParty (db w) (toUpperCase code)).
  - rewrite postSongs_run. cbv zeta.
    destruct (not_ _ || not_ _ || not_ _); [reflexivity|].
    destruct (findParty (db w) (toUpperCase code)) as [party|] eqn:Efo; [|reflexivity].
    destruct (Party.status party) eqn:Es; [|reflexivity].
    destruct (negb _); [reflexivity|].
    destruct (queueFull _ _); [reflexivity|].
    destruct (songClash _ _); [reflexivity|].
    cbn [snd db]. unfold viewOf. rewrite findParty_addSong, Hf. cbn [option_map].
    f_equal. apply snapshotOf_ext; try reflexivity.
    unfold party_songs, addSong. cbn [songs].
    rewrite filter_app. cbn [filter Song.partyId].
    rewrite (Hother _ _ Efo Es). apply app_nil_r.
  - rewrite postVotes_run. cbv zeta.
    destruct (not_ _ || not_ _); [reflexivity|].
    destruct (findParty (db w) (toUpperCase code)) as [party|] eqn:Efo; [|reflexivity].
    destruct (Party.status party) eqn:Es; [|reflexivity].
    destruct (negb _); [reflexivity|].
    destruct (hasSong (db w) (Party.id party) songId) eqn:Eh; [|reflexivity].
    cbn [negb].
    assert (Hsong : forall s, In s (party_songs (db w) ended) ->
                              (songId =? Song.id s) = false).
    { intros s Hs. apply song_of_other with (d := db w) (ended := ended) (other := party); auto.
      exact (Hother _ _ Efo Es). }
    destruct (findVote (db w) songId participantId) as [v0|] eqn:E0.
    + cbn [snd db]. unfold viewOf. rewrite findParty_deleteVote, Hf.
      cbn [option_map]. f_equal. apply snapshotOf_ext; try reflexivity.
      intros s Hs. unfold song_votes, deleteVote. cbn [votes].
      apply filter_filter_same. intros x Hx Hsx.
      apply String.eqb_eq in Hsx.
      destruct (String.eqb_spec (Vote.id x) (Vote.id v0)) as [E|]; [|reflexivity].
      exfalso. apply findVote_In in E0. destruct E0 as [Hin0 Hp0].
      assert (x = v0) by (apply (vote_id_inj (votes (db w))); auto; apply HI).
      subst x.
      assert (Hs0 : Vote.songId v0 = songId) by (inversion Hp0; reflexivity).
      specialize (Hsong s Hs). rewrite <- Hs0, Hsx, String.eqb_refl in Hsong.
      discriminate Hsong.
    + destruct (voteClash _ _); [reflexivity|].
      cbn [snd db]. unfold viewOf. rewrite findParty_addVote, Hf.
      cbn [option_map]. f_equal. apply snapshotOf_ext; try reflexivity.
      intros s Hs. unfold song_votes, addVote. cbn [votes].
      rewrite filter_app. cbn [filter Vote.songId].
      rewrite (Hsong s Hs). apply app_nil_r.
  - rewrite postCurrentSong_run. cbv zeta.
    destruct (not_ _ || not_ _); [reflexivity|].
    destruct (findParty (db w) (toUpperCase code)) as [party|] eqn:Efo; [|reflexivity].
    destruct (Party.status party) eqn:Es; [|reflexivity].
    destruct (negb _); [reflexivity|]. destruct (negb _); [reflexivity|].
    destruct (partyById _ _); [|reflexivity].
    cbn [snd db]. apply viewOf_updateParty with (ended := ended); auto.
    exact (Hother _ _ Efo Es).
  - rewrite postPlayback_run. cbv zeta.
    destruct (not_ _ || not_ _); [reflexivity|].
    destruct (findParty (db w) (toUpperCase code)) as [party|] eqn:Efo; [|reflexivity].
    destruct (Party.status party) eqn:Es; [|reflexivity].
    destruct (negb _); [reflexivity|].
    destruct (playbackAction _ _ _ _) as [[[st started] off]|]; [|reflexivity].
    cbn [snd db]. apply viewOf_updateParty with (ended := ended); auto.
    exact (Hother _ _ Efo Es).
  - rewrite postEnd_run. cbv zeta.
    destruct (not_ _); [reflexivity|].
    destruct (findParty (db w) (toUpperCase code)) as [party|] eqn:Efo; [|reflexivity].
    destruct (Party.status party) eqn:Es; [|reflexivity].
    destruct (negb _); [reflexivity|].
    cbn [snd db]. apply viewOf_updateParty with (ended := ended); auto.
    exact (Hother _ _ Efo Es).
Qed.

Lemma run_view (calls : list (Env * Call)) (w : World) (room : string) :
  Inv (db w) -> isEnded (db w) room ->
  viewOf (db (snd (run calls w))) room = viewOf (db w) room.
Proof.
  revert w. induction calls as [|[env call] rest IH]; intros w HI HE; [reflexivity|].
  rewrite run_cons. cbn [snd].
  rewrite IH; [now apply serve_view|now apply serve_Inv|now apply serve_isEnded].
Qed.

(** EndSession on the demo party ranks the second song first; what it
    stores is the party row with the status and the end time, the same
    row whether or not the vote was there; and a read of the ended party
    returns the songs in queue order, not the standings. *)
Lemma standings_not_persisted_counterexample :
  let unvoted := snd (postVotes (Demo.env [] 105) "abcdef" "g1" "s2" Demo.world) in
  exists payload snapshot,
    postEnd (Demo.env [] 200) "abcdef" "h1" Demo.world = (json 200 payload, Demo.ended)
    /\ standingsOrder payload = ["s2"; "s1"]
    /\ db Demo.ended = updateParty "p1" (endParty 200) (db Demo.world)
    /\ getParty "abcdef" Demo.ended = (json 200 snapshot, Demo.ended)
    /\ snapshotOrder snapshot = ["s1"; "s2"]
    /\ standingsOrder payload <> snapshotOrder snapshot
    /\ parties (db (snd (postEnd (Demo.env [] 200) "abcdef" "h1" unvoted)))
       = parties (db Demo.ended)
    /\ fst (postEnd (Demo.env [] 200) "abcdef" "h1" unvoted) <> json 200 payload.
Proof.
  cbv zeta. eexists. eexists.
  split; [vm_compute; reflexivity|].
  split; [reflexivity|]. split; [reflexivity|].
  split; [vm_compute; reflexivity|].
  split; [reflexivity|]. split; [vm_compute; discriminate|].
  split; [reflexivity|]. vm_compute. discriminate.
Qed.

Lemma getParty_view (code : string) (w : World) (snapshot : PartySnapshot) :
  viewOf (db w) (toUpperCase code) = Some snapshot ->
  getParty code w = (json 200 snapshot, w).
Proof.
  unfold viewOf. rewrite getParty_run.
  destruct (findParty (db w) (toUpperCase code)); [|discriminate].
  cbn [option_map]. now intros [= <-].
Qed.

(** Two EndSession calls that overlap: the second has read the party
    while it was active and is then overtaken by the first, which ends the
    party; the second still writes and publishes, so the ended event goes
    out twice.  Nothing in the handler makes its check and its update one
    step. *)
Example end_session_overlapping :
  let first := (Demo.env [] 200, EndSession "abcdef" "h1") in
  exists payload w2,
    fst (serve (fst first) (snd first) Demo.world) = SessionEnded (json 200 payload)
    /\ postEnd_around (Demo.env [] 201) "abcdef" "h1" [] [] [first] [] Demo.world
       = (json 200 payload, w2)
    /\ emitted (added Demo.world w2)
       = ["party:ended"; "party:state-updated"; "party:snapshot";
          "party:ended"; "party:state-updated"; "party:snapshot"].
Proof.
  do 2 eexists. split; [vm_compute; reflexivity|].
  split; [vm_compute; reflexivity|]. reflexivity.
Qed.

(** C7, amended.  With the calls served one at a time: a successful
    EndSession computes the winner and the standings from the items and
    votes of the party, returns them and publishes them in the ended
    event; what it stores is the status ENDED and the end time of the
    party, not the result.  From then on, whatever calls follow, an
    EndSession on that party, under any spelling of its code, is refused
    (409 when its participant is given) and changes nothing, so the
    ranking is computed once; and every read of the party, under any
    spelling of its code, returns one and the same snapshot, that of the
    ended party. *)
Theorem ranking_once_at_end_session
    (env : Env) (code participantId : string) (w w1 : World)
    (payload : EndPayload) (calls : list (Env * Call)) :
  reachable w ->
  postEnd env code participantId w = (json 200 payload, w1) ->
  let room := toUpperCase code in
  let w' := snd (run calls w1) in
  (exists party,
     findParty (db w) room = Some party
     /\ payload = endPayloadOf (db w) party
     /\ db w1 = updateParty (Party.id party) (endParty (now env)) (db w)
     /\ log w1 = log w ++ [DbWrite TParty; Emit room (party_ended payload);
                           Emit room (party_state_updated None ENDED)]
                       ++ snapshotEmits (db w1) room)
  /\ (forall env' code' participantId',
        toUpperCase code' = room ->
        exists status message,
          postEnd env' code' participantId' w' = (error status message, w')
          /\ (not_ participantId' = false -> status = 409))
  /\ (exists snapshot,
        viewOf (db w1) room = Some snapshot
        /\ Party.status (snap_party snapshot) = ENDED
        /\ forall code', toUpperCase code' = room ->
             getParty code' w' = (json 200 snapshot, w')).
Proof.
  intros Hr Hend room w'. subst room.
  destruct (postEnd_success _ _ _ _ Hend) as [party [Hf [Hp [Hd HE]]]].
  assert (HI : Inv (db w1)).
  { apply reachable_Inv in Hr.
    apply (serve_Inv env (EndSession code participantId)) in Hr.
    cbn [serve on snd] in Hr. now rewrite Hend in Hr. }
  assert (HE' : isEnded (db w') (toUpperCase code)) by now apply run_isEnded.
  split; [|split].
  - exists party. repeat split; auto.
    rewrite postEnd_run in Hend. cbv zeta in Hend.
    rewrite Hf in Hend.
    destruct (not_ participantId); [discriminate|].
    destruct (Party.status party); [|discriminate].
    destruct (negb _); [discriminate|].
    inversion Hend; subst. reflexivity.
  - intros env' code' participantId' Hc'. destruct HE' as [party' [Hf' He']].
    rewrite postEnd_run. cbv zeta. rewrite Hc', Hf', He'.
    destruct (not_ participantId'); eexists; eexists;
      (split; [reflexivity|]); [discriminate|reflexivity].
  - assert (Hv := @run_view calls w1 (toUpperCase code) HI HE). fold w' in Hv.
    destruct HE as [party1 [Hf1 He1]].
    exists (snapshotOf (db w1) party1).
    assert (Hv1 : viewOf (db w1) (toUpperCase code)
                  = Some (snapshotOf (db w1) party1))
      by (unfold viewOf; now rewrite Hf1).
    split; [exact Hv1|]. split; [exact He1|].
    intros code' Hc'. apply getParty_view. now rewrite Hc', Hv.
Qed.

(** On the ended demo party, after a vote and an add that are both
    refused: an EndSession under the code in upper case, and a read under
    the code in lower case. *)
Lemma ranking_once_at_end_session_witness :
  let w' := snd (run [(Demo.env ["v3"] 250, ToggleVote "abcdef" "h1" "s1");
                      (Demo.env ["s3"] 260,
                       AddItem "abcdef" "g1" "Gamma" "Cyd" "" "" "")]
                     Demo.ended) in
  (exists status message,
     postEnd (Demo.env [] 300) "ABCDEF" "h1" w' = (error status message, w')
     /\ (not_ "h1" = false -> status = 409))
  /\ (exists snapshot,
        viewOf (db Demo.ended) "ABCDEF" = Some snapshot
        /\ Party.status (snap_party snapshot) = ENDED
        /\ getParty "abcdef" w' = (json 200 snapshot, w')).
Proof.
  intros w'.
  destruct (@ranking_once_at_end_session (Demo.env [] 200) "abcdef" "h1"
              Demo.world Demo.ended (endPayloadOf (db Demo.world) Demo.party)
              [(Demo.env ["v3"] 250, ToggleVote "abcdef" "h1" "s1");
               (Demo.env ["s3"] 260,
                AddItem "abcdef" "g1" "Gamma" "Cyd" "" "" "")])
    as [_ [H1 [snapshot [H2 [H3 H4]]]]].
  - exact demo_reachable.
  - vm_compute. reflexivity.
  - split; [exact (H1 (Demo.env [] 300) "ABCDEF" "h1" eq_refl)|].
    exists snapshot. split; [exact H2|]. split; [exact H3|].
    exact (H4 "abcdef" eq_refl).
Defined.

(** * Further properties of the server and the client *)

(** ** Every call is a step *)

Lemma findVote_pair (d : Db) (s p : Id) (v : Vote.t) :
  findVote d s p = Some v -> Vote.songId v = s /\ Vote.participantId v = p.
Proof.
  intros H. apply findVote_In in H. destruct H as [_ H].
  inversion H. split; reflexivity.
Qed.

Lemma serve_Step (env : Env) (call : Call) (w : World) :
  Step (db w) (db (snd (serve env call w))).
Proof.
  destruct call; cbn [serve on fst snd].
  - rewrite postParties_run.
    destruct (not_ _ || not_ _); [constructor|].
    destruct (freshCode _ _ _ _) as [code|] eqn:Ecode; [|constructor].
    destruct (intArg _); [|constructor]. destruct (intArg _); [|constructor].
    cbv zeta. destruct (partyClash _ _) eqn:Ec; [constructor|].
    destruct (participantClash _ _) eqn:Ep; [constructor|].
    cbn [snd db]. rewrite (created_db _ _ _ Ec).
    now apply step_create.
  - rewrite postJoin_run. cbv zeta.
    destruct (not_ _); [constructor|].
    destruct (findParty _ _) as [party|] eqn:Ef; [|constructor].
    destruct (Party.status party) eqn:Es; [|constructor].
    destruct (participantClash _ _) eqn:Ep; [constructor|].
    cbn [snd db]. now apply step_join with (room := toUpperCase code).
  - rewrite getParty_run. destruct (findParty _ _); constructor.
  - rewrite postSongs_run. cbv zeta.
    destruct (not_ _ || not_ _ || not_ _); [constructor|].
    destruct (findParty _ _) as [party|] eqn:Ef; [|constructor].
    destruct (Party.status party) eqn:Es; [|constructor].
    destruct (isMemberOf _ _ _) eqn:Em; cbn [negb]; [|constructor].
    destruct (queueFull _ _) eqn:Eq; [constructor|].
    destruct (songClash _ _) eqn:Ec; [constructor|].
    cbn [snd db].
    now apply step_add_song with (room := toUpperCase code) (party := party).
  - rewrite postVotes_run. cbv zeta.
    destruct (not_ _ || not_ _); [constructor|].
    destruct (findParty _ _) as [party|] eqn:Ef; [|constructor].
    destruct (Party.status party) eqn:Es; [|constructor].
    destruct (isMemberOf _ _ _) eqn:Em; cbn [negb]; [|constructor].
    destruct (hasSong _ _ _) eqn:Eh; cbn [negb]; [|constructor].
    destruct (findVote _ _ _) as [v0|] eqn:E0.
    + cbn [snd db]. destruct (findVote_pair _ _ _ E0) as [Hs Hp].
      apply step_delete_vote with (room := toUpperCase code) (party := party);
        auto; try (rewrite Hp; exact Em); try (rewrite Hs; exact Eh).
      now rewrite Hs, Hp.
    + destruct (voteClash _ _) eqn:Ec; [constructor|].
      cbn [snd db].
      now apply step_add_vote with (room := toUpperCase code) (party := party).
  - rewrite postCurrentSong_run. cbv zeta.
    destruct (not_ participantId || not_ songId) eqn:Ev; [constructor|].
    destruct (findParty _ _) as [party|] eqn:Ef; [|constructor].
    destruct (Party.status party) eqn:Es; [|constructor].
    destruct (isHostOf _ _ _) eqn:Eh; cbn [negb]; [|constructor].
    destruct (hasSong _ _ _) eqn:Ehs; cbn [negb]; [|constructor].
    destruct (partyById _ _); [|constructor].
    cbn [snd db]. apply orb_false_iff in Ev. destruct Ev as [_ Ev].
    now apply step_current_song with (room := toUpperCase code)
                                     (participantId := participantId).
  - rewrite postPlayback_run. cbv zeta.
    destruct (not_ _ || not_ _); [constructor|].
    destruct (findParty _ _) as [party|] eqn:Ef; [|constructor].
    destruct (Party.status party) eqn:Es; [|constructor].
    destruct (isHostOf _ _ _) eqn:Eh; cbn [negb]; [|constructor].
    destruct (playbackAction _ _ _ _) as [[[st started] off]|] eqn:Ea; [|constructor].
    cbn [snd db].
    now apply step_playback with (room := toUpperCase code)
      (participantId := participantId) (action := toUpperCase action)
      (offsetSec := offsetSec) (t := now env).
  - rewrite postEnd_run. cbv zeta.
    destruct (not_ _); [constructor|].
    destruct (findParty _ _) as [party|] eqn:Ef; [|constructor].
    destruct (Party.status party) eqn:Es; [|constructor].
    destruct (isHostOf _ _ _) eqn:Eh; cbn [negb]; [|constructor].
    cbn [snd db].
    now apply step_end with (room := toUpperCase code)
                            (participantId := participantId).
Qed.

(** An invariant of the steps holds of every database the server reaches. *)
Lemma reachable_invariant (P : Db -> Prop) :
  P emptyDb ->
  (forall d d', Step d d' -> P d -> P d') ->
  forall w, reachable w -> P (db w).
Proof.
  intros H0 Hstep w [calls <-].
  assert (H : forall w0, P (db w0) -> P (db (snd (run calls w0)))).
  { induction calls as [|[env call] rest IH]; intros w0 Hw0; [exact Hw0|].
    rewrite run_cons. cbn [snd]. apply IH.
    apply (Hstep (db w0)); [apply serve_Step|exact Hw0]. }
  apply H. exact H0.
Qed.

Lemma Step_Inv (d d' : Db) : Step d d' -> Inv d -> Inv d'.
Proof.
  intros Hs HI. destruct Hs.
  - exact HI.
  - apply Inv_created; [assumption|apply clockOk_newParty|exact HI].
  - now apply Inv_addParticipant.
  - apply Inv_addSong with (party := party); auto.
    now apply findParty_In in H.
  - now apply Inv_addVote.
  - now apply Inv_deleteVote.
  - apply Inv_updateParty; auto.
    intros p _. unfold clockOk. simpl. split; [congruence|discriminate].
  - apply Inv_updateParty; auto.
    intros p _. eapply clockOk_setPlayback. eassumption.
  - apply Inv_updateParty; auto.
Qed.

(** ** Party codes *)

Lemma alphabet_get (n : nat) :
  (n < 32)%nat ->
  exists c, String.get n alphabet = Some c /\ inAlphabet c = true.
Proof.
  intros H.
  do 32 (destruct n as [|n]; [eexists; split; reflexivity|]).
  exfalso. lia.
Qed.

Lemma pick_spec (draw : nat) :
  exists c, pick draw = String c EmptyString /\ inAlphabet c = true.
Proof.
  unfold pick.
  assert (Hlt : (Nat.modulo draw (String.length alphabet) < 32)%nat)
    by (apply Nat.mod_upper_bound; discriminate).
  destruct (alphabet_get Hlt) as [c [Hc Hin]].
  exists c. now rewrite Hc.
Qed.

Lemma randomCode_spec (env : Env) (k j : nat) :
  String.length (randomCode env k j) = j
  /\ forallb inAlphabet (list_ascii_of_string (randomCode env k j)) = true.
Proof.
  revert k. induction j as [|j IH]; intros k; [split; reflexivity|].
  cbn [randomCode]. destruct (pick_spec (random env k)) as [c [-> Hc]].
  destruct (IH (S k)) as [Hlen Hall].
  cbn [String.append String.length list_ascii_of_string forallb].
  now rewrite Hlen, Hc, Hall.
Qed.

Lemma randomCode_ok (env : Env) (k : nat) : codeOk (randomCode env k 6) = true.
Proof.
  unfold codeOk. destruct (randomCode_spec env k 6) as [-> ->]. reflexivity.
Qed.

Lemma freshCode_spec (env : Env) (d : Db) (attempts i : nat) (code : string) :
  freshCode env d attempts i = Some code ->
  codeOk code = true /\ findParty d code = None.
Proof.
  revert i. induction attempts as [|n IH]; intros i; [discriminate|].
  cbn [freshCode].
  destruct (findParty d (randomCode env (6 * i) 6)) eqn:E.
  - apply IH.
  - intros [= <-]. split; [apply randomCode_ok|exact E].
Qed.

(** The code is exhausted only when each of the ten draws is taken. *)
Lemma freshCode_none (env : Env) (d : Db) (attempts i : nat) :
  freshCode env d attempts i = None ->
  forall j, (j < attempts)%nat ->
            findParty d (randomCode env (6 * (i + j)) 6) <> None.
Proof.
  revert i. induction attempts as [|n IH]; intros i H j Hj; [lia|].
  cbn [freshCode] in H.
  destruct (findParty d (randomCode env (6 * i) 6)) eqn:E; [|discriminate].
  destruct j as [|j].
  - rewrite Nat.add_0_r, E. discriminate.
  - replace (i + S j)%nat with (S i + j)%nat by lia. apply IH; [exact H|lia].
Qed.

Lemma inAlphabet_upper (c : ascii) : inAlphabet c = true -> upperChar c = c.
Proof.
  unfold inAlphabet. intros H. apply existsb_exists in H.
  destruct H as [x [Hin Hx]]. apply Ascii.eqb_eq in Hx. subst x.
  cbn in Hin.
  repeat (destruct Hin as [<-|Hin]; [reflexivity|]). contradiction.
Qed.

Lemma codeOk_upper (code : string) : codeOk code = true -> toUpperCase code = code.
Proof.
  unfold codeOk. intros H. apply andb_true_iff in H. destruct H as [_ H].
  induction code as [|c t IH]; [reflexivity|].
  cbn in H. apply andb_true_iff in H. destruct H as [Hc Ht].
  cbn [toUpperCase]. rewrite (inAlphabet_upper _ Hc). f_equal. now apply IH.
Qed.

(** ** The further invariant *)

Lemma max0_nonneg (x : Q) : (0 <= max0 x)%Q.
Proof.
  unfold max0. destruct (Qle_bool 0 x) eqn:E.
  - now apply Qle_bool_iff.
  - apply Qle_refl.
Qed.

Lemma Qplus_nonneg (a b : Q) : (0 <= a)%Q -> (0 <= b)%Q -> (0 <= a + b)%Q.
Proof.
  intros Ha Hb. apply Qle_trans with (0 + 0)%Q; [apply Qle_refl|].
  now apply Qplus_le_compat.
Qed.

Lemma currentOffsetSec_nonneg (party : Party.t) (t : Date) :
  (0 <= Party.playbackOffsetSec party)%Q -> (0 <= currentOffsetSec party t)%Q.
Proof.
  intros H. unfold currentOffsetSec. apply Qplus_nonneg; [exact H|].
  destruct (Party.playbackStatus party); [|apply Qle_refl].
  destruct (Party.playbackStartedAt party) as [s|]; [|apply Qle_refl].
  destruct (s =? 0)%Z; [apply Qle_refl|apply max0_nonneg].
Qed.

Lemma playbackAction_nonneg (action : string) (offsetSec : Number) (party : Party.t)
    (t : Date) (st : PlaybackStatus) (started : option Date) (off : Q) :
  (0 <= Party.playbackOffsetSec party)%Q ->
  playbackAction action offsetSec party t = Some (st, started, off) ->
  (0 <= off)%Q.
Proof.
  intros H0. unfold playbackAction.
  assert (Hoff : (0 <= offsetFrom offsetSec (currentOffsetSec party t))%Q).
  { destruct offsetSec; cbn [offsetFrom];
      try now apply currentOffsetSec_nonneg.
    apply max0_nonneg. }
  destruct (action =? "PLAY"); [intros [= _ _ <-]; exact Hoff|].
  destruct (action =? "PAUSE"); [intros [= _ _ <-]; exact Hoff|discriminate].
Qed.

Lemma participantClash_fresh (d : Db) (row : Participant.t) :
  participantClash d row = false ->
  ~ In (Participant.id row) (map Participant.id (participants d))
  /\ ~ In (nameKey row) (map nameKey (participants d)).
Proof.
  unfold participantClash. intros H.
  assert (Hall : forall m, In m (participants d) ->
            (Participant.id m =? Participant.id row)
            || ((Participant.partyId m =? Participant.partyId row)
                && (Participant.name m =? Participant.name row)) = false).
  { intros m Hm. destruct (_ || _) eqn:E; [|reflexivity].
    assert (existsb (fun m => (Participant.id m =? Participant.id row)
                              || ((Participant.partyId m =? Participant.partyId row)
                                  && (Participant.name m =? Participant.name row)))
                    (participants d) = true) as Ht
      by (apply existsb_exists; now exists m).
    rewrite Ht in H. discriminate H. }
  split; intros Hin; apply in_map_iff in Hin; destruct Hin as [m [Hm Hin]];
    specialize (Hall m Hin).
  - rewrite Hm, String.eqb_refl in Hall. discriminate Hall.
  - unfold nameKey in Hm. inversion Hm as [[H1 H2]].
    rewrite H1, H2, !String.eqb_refl, orb_true_r in Hall. discriminate Hall.
Qed.

Lemma partyClash_fresh (d : Db) (row : Party.t) :
  partyClash d row = false ->
  (forall p, In p (parties d) -> Party.id p <> Party.id row)
  /\ ~ In (Party.code row) (map Party.code (parties d)).
Proof.
  unfold partyClash. intros H.
  assert (Hall : forall p, In p (parties d) ->
            (Party.id p =? Party.id row) || (Party.code p =? Party.code row) = false).
  { intros p Hp. destruct (_ || _) eqn:E; [|reflexivity].
    assert (existsb (fun p => (Party.id p =? Party.id row)
                              || (Party.code p =? Party.code row))
                    (parties d) = true) as Ht
      by (apply existsb_exists; now exists p).
    rewrite Ht in H. discriminate H. }
  split.
  - intros p Hp E. specialize (Hall p Hp).
    rewrite E, String.eqb_refl in Hall. discriminate Hall.
  - intros Hin. apply in_map_iff in Hin. destruct Hin as [p [Hc Hp]].
    specialize (Hall p Hp). rewrite Hc, String.eqb_refl, orb_true_r in Hall.
    discriminate Hall.
Qed.

Lemma isMemberOf_In (d : Db) (partyId participantId : Id) :
  isMemberOf d partyId participantId = true ->
  exists m, In m (participants d) /\ Participant.id m = participantId
            /\ Participant.partyId m = partyId.
Proof.
  unfold isMemberOf. destruct (find _ (participants d)) as [m|] eqn:E; [|discriminate].
  intros _. apply find_some in E. destruct E as [Hin Hm].
  apply andb_true_iff in Hm. destruct Hm as [H1 H2].
  exists m. now rewrite String.eqb_eq in H1, H2.
Qed.

Lemma hasSong_In (d : Db) (partyId songId : Id) :
  hasSong d partyId songId = true ->
  exists s, In s (songs d) /\ Song.id s = songId /\ Song.partyId s = partyId.
Proof.
  unfold hasSong. destruct (find _ (songs d)) as [s|] eqn:E; [|discriminate].
  intros _. apply find_some in E. destruct E as [Hin Hs].
  apply andb_true_iff in Hs. destruct Hs as [H1 H2].
  exists s. now rewrite String.eqb_eq in H1, H2.
Qed.

Lemma hostOf_participants (d d' : Db) (p p' : Party.t) (host : Participant.t) :
  (forall m, In m (participants d) -> In m (participants d')) ->
  (forall m, In m (participants d') -> In m (participants d)
             \/ (Participant.partyId m = Party.id p -> Participant.isHost m = false)) ->
  Party.id p' = Party.id p ->
  Party.hostParticipantId p' = Party.hostParticipantId p ->
  hostOf d p host -> hostOf d' p' host.
Proof.
  intros Hsub Hnew Hid Hh (H1 & H2 & H3 & H4 & H5).
  repeat split; auto; try congruence.
  intros m Hm Hp Hi. rewrite Hid in Hp.
  destruct (Hnew m Hm) as [Hold|Hnot]; [now apply H5|].
  rewrite (Hnot Hp) in Hi. discriminate Hi.
Qed.

Lemma Consistent_empty : Consistent emptyDb.
Proof. constructor; simpl; try constructor; contradiction. Qed.

Lemma Consistent_updateParty (d : Db) (id : Id) (f : Party.t -> Party.t) :
  (forall p, Party.id (f p) = Party.id p) ->
  (forall p, Party.code (f p) = Party.code p) ->
  (forall p, Party.hostParticipantId (f p) = Party.hostParticipantId p) ->
  (forall p, Party.maxSongs (f p) = Party.maxSongs p) ->
  (forall p c, In p (parties d) -> Party.id p = id ->
               Party.currentSongId (f p) = Some c ->
               exists s, In s (songs d) /\ Song.id s = c
                         /\ Song.partyId s = Party.id p) ->
  (forall p c, In p (parties d) -> Party.id p = id ->
               Party.currentSongId (f p) = Some c -> not_ c = false) ->
  (forall p, In p (parties d) -> Party.id p = id ->
             (0 <= Party.playbackOffsetSec (f p))%Q) ->
  (forall p, (Party.endedAt p <> None <-> Party.status p = ENDED) ->
             (Party.endedAt (f p) <> None <-> Party.status (f p) = ENDED)) ->
  Consistent d -> Consistent (updateParty id f d).
Proof.
  intros Hid Hcode Hhost Hmax Hcur Hset Hoff Hend HC.
  assert (Hrow : forall q, In q (parties (updateParty id f d)) ->
            exists p, In p (parties d)
                      /\ ((Party.id p = id /\ q = f p) \/ q = p)).
  { intros q Hq. cbn [updateParty parties] in Hq. apply in_map_iff in Hq.
    destruct Hq as [p [Hq Hp]]. exists p. split; [exact Hp|].
    destruct (String.eqb_spec (Party.id p) id); [left|right]; auto. }
  destruct HC as [C1 C2 C3 C4 C5 C6 C7 C8 C9 C10 C10' C11 C12 C13].
  constructor; unfold updateParty; cbn [parties participants songs votes];
    try assumption.
  - rewrite map_map.
    erewrite map_ext; [exact C3|].
    intros p. cbn beta. destruct (Party.id p =? id); [apply Hcode|reflexivity].
  - intros q Hq. destruct (Hrow q Hq) as [p [Hp [[_ ->]| ->]]];
      [rewrite Hcode|]; now apply C4.
  - intros m Hm. destruct (C5 m Hm) as [p [Hp Hpm]].
    exists (if Party.id p =? id then f p else p). split.
    + apply in_map_iff. now exists p.
    + destruct (Party.id p =? id); [now rewrite Hid|exact Hpm].
  - intros q Hq. destruct (Hrow q Hq) as [p [Hp Hcase]].
    destruct (C6 p Hp) as [host Hhostof]. exists host.
    destruct Hcase as [[_ ->]| ->].
    + apply hostOf_participants with (d := d) (p := p); auto.
    + exact Hhostof.
  - intros q c Hq Hc. destruct (Hrow q Hq) as [p [Hp [[Hpid ->]| ->]]].
    + rewrite Hid. now apply Hcur.
    + now apply C10.
  - intros q c Hq Hc. destruct (Hrow q Hq) as [p [Hp [[Hpid ->]| ->]]].
    + now apply (Hset p).
    + now apply (C10' p).
  - intros q Hq. destruct (Hrow q Hq) as [p [Hp [[Hpid ->]| ->]]].
    + now apply Hoff.
    + now apply C11.
  - intros q Hq. destruct (Hrow q Hq) as [p [Hp [[Hpid ->]| ->]]].
    + apply Hend. now apply C12.
    + now apply C12.
  - intros q m Hq Hm. destruct (Hrow q Hq) as [p [Hp [[Hpid ->]| ->]]].
    + rewrite Hid. rewrite Hmax in Hm. now apply C13.
    + now apply C13.
Qed.

Lemma Consistent_created (env : Env) (d : Db) (code name hostName : string)
    (maxSongs durationMinutes : option Z) :
  let party := newParty env code name maxSongs durationMinutes in
  let host := Participant.mk (newId env 1) (Party.id party) hostName true (now env) in
  freshCode env d 10 0 = Some code ->
  partyClash d party = false ->
  participantClash d host = false ->
  Inv d -> Consistent d ->
  Consistent (mkDb (parties d ++ [setHost (Participant.id host) party])
                   (participants d ++ [host]) (songs d) (votes d)).
Proof.
  intros party host Hcode Hpc Hmc HI HC.
  destruct (freshCode_spec _ _ _ _ Hcode) as [Hok _].
  destruct (partyClash_fresh _ _ Hpc) as [Hpid Hpcode].
  destruct (participantClash_fresh _ _ Hmc) as [Hmid Hmname].
  assert (Hnone : forall m, In m (participants d) ->
                            Participant.partyId m <> Party.id party).
  { intros m Hm E. destruct (con_participant_party HC m Hm) as [p [Hp Hpm]].
    apply (Hpid p Hp). congruence. }
  destruct HC as [C1 C2 C3 C4 C5 C6 C7 C8 C9 C10 C10' C11 C12 C13].
  constructor; cbn [parties participants songs votes].
  - rewrite map_app. now apply NoDup_snoc.
  - rewrite map_app. now apply NoDup_snoc.
  - rewrite map_app. now apply NoDup_snoc.
  - intros p Hp. apply in_app_or in Hp. destruct Hp as [Hp|[<-|[]]]; auto.
  - intros m Hm. apply in_app_or in Hm. destruct Hm as [Hm|[<-|[]]].
    + destruct (C5 m Hm) as [p [Hp Hpm]]. exists p.
      split; [apply in_or_app; now left|exact Hpm].
    + exists (setHost (Participant.id host) party).
      split; [apply in_or_app; right; now left|reflexivity].
  - intros p Hp. apply in_app_or in Hp. destruct Hp as [Hp|[<-|[]]].
    + destruct (C6 p Hp) as [h Hh]. exists h.
      apply hostOf_participants with (d := d) (p := p); auto.
      * intros m Hm. apply in_or_app. now left.
      * intros m Hm. cbn [participants] in Hm. apply in_app_or in Hm.
        destruct Hm as [Hm|[<-|[]]]; [now left|right].
        intros E. exfalso. apply (Hpid p Hp). symmetry. exact E.
    + exists host. repeat split.
      * apply in_or_app. right. now left.
      * intros m Hm Hp _. cbn [participants] in Hm. apply in_app_or in Hm.
        destruct Hm as [Hm|[<-|[]]]; [|reflexivity].
        exfalso. now apply (Hnone m Hm).
  - exact C7.
  - intros v Hv. destruct (C8 v Hv) as [m [Hm Hrest]]. exists m.
    split; [apply in_or_app; now left|exact Hrest].
  - intros s Hs. destruct (C9 s Hs) as [m [Hm Hrest]]. exists m.
    split; [apply in_or_app; now left|exact Hrest].
  - intros p c Hp Hc. apply in_app_or in Hp. destruct Hp as [Hp|[<-|[]]].
    + now apply C10.
    + discriminate Hc.
  - intros p c Hp Hc. apply in_app_or in Hp. destruct Hp as [Hp|[<-|[]]].
    + now apply (C10' p).
    + discriminate Hc.
  - intros p Hp. apply in_app_or in Hp. destruct Hp as [Hp|[<-|[]]].
    + now apply C11.
    + apply Qle_refl.
  - intros p Hp. apply in_app_or in Hp. destruct Hp as [Hp|[<-|[]]].
    + now apply C12.
    + cbn. split; [congruence|discriminate].
  - intros p m Hp Hm. apply in_app_or in Hp. destruct Hp as [Hp|[<-|[]]].
    + now apply C13.
    + cbn [setHost Party.id].
      change (songsOf _ (Party.id party)) with (songsOf d (Party.id party)).
      rewrite (@songsOf_fresh_party d party HI Hpc). cbn. lia.
Qed.

Lemma Consistent_addParticipant (d : Db) (party : Party.t) (row : Participant.t) :
  In party (parties d) ->
  Participant.partyId row = Party.id party ->
  Participant.isHost row = false ->
  participantClash d row = false ->
  Consistent d -> Consistent (addParticipant row d).
Proof.
  intros Hin Hpid Hhost Hclash HC.
  destruct (participantClash_fresh _ _ Hclash) as [Hmid Hmname].
  destruct HC as [C1 C2 C3 C4 C5 C6 C7 C8 C9 C10 C10' C11 C12 C13].
  constructor; cbn [addParticipant parties participants songs votes];
    try assumption.
  - rewrite map_app. now apply NoDup_snoc.
  - rewrite map_app. now apply NoDup_snoc.
  - intros m Hm. apply in_app_or in Hm. destruct Hm as [Hm|[<-|[]]]; auto.
    exists party. now split.
  - intros p Hp. destruct (C6 p Hp) as [h Hh]. exists h.
    apply hostOf_participants with (d := d) (p := p); auto.
    + intros m Hm. apply in_or_app. now left.
    + intros m Hm. cbn [addParticipant participants] in Hm.
      apply in_app_or in Hm. destruct Hm as [Hm|[<-|[]]]; [now left|right].
      intros _. exact Hhost.
  - intros v Hv. destruct (C8 v Hv) as [m [Hm Hrest]]. exists m.
    split; [apply in_or_app; now left|exact Hrest].
  - intros s Hs. destruct (C9 s Hs) as [m [Hm Hrest]]. exists m.
    split; [apply in_or_app; now left|exact Hrest].
Qed.

Lemma Consistent_addSong (d : Db) (room : string) (party : Party.t) (row : Song.t) :
  findParty d room = Some party ->
  isMemberOf d (Party.id party) (Song.addedById row) = true ->
  queueFull party (List.length (party_songs d party)) = false ->
  Song.partyId row = Party.id party ->
  Inv d -> Consistent d -> Consistent (addSong row d).
Proof.
  intros Hf Hmem Hfull Hpid HI HC.
  apply findParty_In in Hf. destruct Hf as [Hin _].
  destruct HC as [C1 C2 C3 C4 C5 C6 C7 C8 C9 C10 C10' C11 C12 C13].
  constructor; cbn [addSong parties participants songs votes]; try assumption.
  - intros v Hv. destruct (C7 v Hv) as [s [Hs Hrest]]. exists s.
    split; [apply in_or_app; now left|exact Hrest].
  - intros s Hs. apply in_app_or in Hs. destruct Hs as [Hs|[<-|[]]]; auto.
    destruct (isMemberOf_In _ _ _ Hmem) as [m [Hm [Hid Hp]]].
    exists m. repeat split; auto. congruence.
  - intros p c Hp Hc. destruct (C10 p c Hp Hc) as [s [Hs Hrest]]. exists s.
    split; [apply in_or_app; now left|exact Hrest].
  - intros p m Hp Hm. rewrite songsOf_addSong, length_app.
    specialize (C13 p m Hp Hm).
    destruct (String.eqb_spec (Song.partyId row) (Party.id p)) as [E|_];
      [|cbn [List.length]; lia].
    assert (p = party)
      by (apply (party_id_inj d); auto; [apply HI|congruence]).
    subst p. unfold queueFull in Hfull. rewrite Hm in Hfull.
    change (party_songs d party) with (songsOf d (Party.id party)) in Hfull.
    cbn [List.length]. rewrite Z.geb_leb in Hfull. apply Z.leb_gt in Hfull. lia.
Qed.

Lemma Consistent_addVote (d : Db) (party : Party.t) (row : Vote.t) :
  isMemberOf d (Party.id party) (Vote.participantId row) = true ->
  hasSong d (Party.id party) (Vote.songId row) = true ->
  Vote.partyId row = Party.id party ->
  Consistent d -> Consistent (addVote row d).
Proof.
  intros Hmem Hsong Hpid HC.
  destruct HC as [C1 C2 C3 C4 C5 C6 C7 C8 C9 C10 C10' C11 C12 C13].
  constructor; cbn [addVote parties participants songs votes]; try assumption.
  - intros v Hv. apply in_app_or in Hv. destruct Hv as [Hv|[<-|[]]]; auto.
    destruct (hasSong_In _ _ _ Hsong) as [s [Hs [Hid Hp]]].
    exists s. repeat split; auto. congruence.
  - intros v Hv. apply in_app_or in Hv. destruct Hv as [Hv|[<-|[]]]; auto.
    destruct (isMemberOf_In _ _ _ Hmem) as [m [Hm [Hid Hp]]].
    exists m. repeat split; auto. congruence.
Qed.

Lemma Consistent_deleteVote (d : Db) (id : Id) :
  Consistent d -> Consistent (deleteVote id d).
Proof.
  intros HC. destruct HC as [C1 C2 C3 C4 C5 C6 C7 C8 C9 C10 C10' C11 C12 C13].
  constructor; cbn [deleteVote parties participants songs votes]; try assumption.
  - intros v Hv. apply filter_In in Hv. now apply C7.
  - intros v Hv. apply filter_In in Hv. now apply C8.
Qed.

Lemma Step_Consistent (d d' : Db) :
  Step d d' -> Inv d -> Consistent d -> Consistent d'.
Proof.
  intros Hs HI HC. destruct Hs.
  - exact HC.
  - now apply Consistent_created.
  - apply Consistent_addParticipant with (party := party); auto.
    now apply findParty_In in H.
  - now apply Consistent_addSong with (room := room) (party := party).
  - now apply Consistent_addVote with (party := party).
  - now apply Consistent_deleteVote.
  - apply Consistent_updateParty; auto.
    + intros p c Hp Hid [= <-].
      destruct (hasSong_In _ _ _ H3) as [s [Hs [Hsid Hsp]]].
      exists s. repeat split; auto. congruence.
    + intros p c _ _ [= <-]. assumption.
    + intros p _ _. apply Qle_refl.
  - apply Consistent_updateParty; auto.
    + intros p c Hp _ Hc. now apply (con_current HC).
    + intros p c Hp _ Hc. now apply (con_current_set HC p).
    + intros p _ _. cbn [setPlayback Party.playbackOffsetSec].
      eapply playbackAction_nonneg; [|eassumption].
      apply (con_offset HC). now apply findParty_In in H.
  - apply Consistent_updateParty; auto.
    + intros p c Hp _ Hc. now apply (con_current HC).
    + intros p c Hp _ Hc. now apply (con_current_set HC p).
    + intros p Hp _. cbn [endParty Party.playbackOffsetSec].
      now apply (con_offset HC).
    + intros p _. cbn. split; [intros _; reflexivity|intros _; discriminate].
Qed.

Lemma reachable_Consistent (w : World) : reachable w -> Consistent (db w).
Proof.
  intros Hr.
  assert (H : Inv (db w) /\ Consistent (db w)); [|apply H].
  revert w Hr. apply (reachable_invariant (fun d => Inv d /\ Consistent d)).
  - split; [exact Inv_empty|exact Consistent_empty].
  - intros d d' Hs [HI HC]. split;
      [now apply (Step_Inv Hs)|now apply (Step_Consistent Hs)].
Qed.

(** ** Party codes, drawn and looked up *)

(** The code returned is the first of the drawn codes that no party has. *)
Lemma freshCode_first (env : Env) (d : Db) (attempts i : nat) (code : string) :
  freshCode env d attempts i = Some code ->
  exists j, (j < attempts)%nat
            /\ code = randomCode env (6 * (i + j)) 6
            /\ forall j', (j' < j)%nat ->
                 findParty d (randomCode env (6 * (i + j')) 6) <> None.
Proof.
  revert i. induction attempts as [|n IH]; intros i; [discriminate|].
  cbn [freshCode].
  destruct (findParty d (randomCode env (6 * i) 6)) eqn:E.
  - intros H. destruct (IH _ H) as [j [Hj [Hc Hb]]].
    exists (S j). split; [lia|]. split.
    + rewrite Hc. do 2 f_equal. lia.
    + intros [|j'] Hj'.
      * rewrite Nat.add_0_r, E. discriminate.
      * replace (i + S j')%nat with (S i + j')%nat by lia. apply Hb. lia.
  - intros H. exists 0%nat. split; [lia|]. split.
    + replace (i + 0)%nat with i by lia. congruence.
    + intros j' Hj'. lia.
Qed.

(** X1. [generatePartyCode] never writes.  The code it returns is the
    first of its ten draws that no party has: six characters of the
    alphabet, equal to its own upper-case form.  It throws only when each
    of the ten draws is the code of a party. *)
Theorem generated_code_is_fresh (env : Env) (w : World) :
  snd (generatePartyCode env w) = w
  /\ match fst (generatePartyCode env w) with
     | Return code =>
         codeOk code = true
         /\ toUpperCase code = code
         /\ findParty (db w) code = None
         /\ exists i, (i < 10)%nat
                      /\ code = randomCode env (6 * i) 6
                      /\ forall j, (j < i)%nat ->
                           findParty (db w) (randomCode env (6 * j) 6) <> None
     | Throw e =>
         e = JsError "Could not generate unique party code"
         /\ forall j, (j < 10)%nat ->
              findParty (db w) (randomCode env (6 * j) 6) <> None
     end.
Proof.
  unfold generatePartyCode. rewrite generatePartyCode_loop_run.
  split; [reflexivity|]. cbn [fst].
  destruct (freshCode env (db w) 10 0) as [code|] eqn:E.
  - destruct (freshCode_spec _ _ _ _ E) as [Hok Hnone].
    split; [exact Hok|]. split; [now apply codeOk_upper|].
    split; [exact Hnone|]. exact (@freshCode_first env (db w) 10 0 code E).
  - split; [reflexivity|]. exact (@freshCode_none env (db w) 10 0 E).
Qed.

Lemma codeOk_nonempty (code : string) : codeOk code = true -> not_ code = false.
Proof. destruct code; [discriminate|reflexivity]. Qed.

(** A party of a reachable database is the one found under its code. *)
Lemma findParty_own (d : Db) (party : Party.t) :
  Consistent d -> In party (parties d) -> findParty d (Party.code party) = Some party.
Proof.
  intros HC Hin. apply find_unique; [exact Hin|apply String.eqb_refl|].
  intros q Hq Hc. apply String.eqb_eq in Hc.
  assert (Hnd := con_codes HC). revert Hin Hq Hc Hnd.
  induction (parties d) as [|a l IH]; [contradiction|].
  simpl. intros Hin Hq Hc Hnd. apply NoDup_cons_iff in Hnd. destruct Hnd as [Hn Hnd].
  destruct Hin as [->|Hin], Hq as [->|Hq]; auto.
  - exfalso. apply Hn. rewrite <- Hc. now apply in_map.
  - exfalso. apply Hn. rewrite Hc. now apply in_map.
Qed.

Lemma onJoinRoom_run (partyCode : string) (w : World) :
  onJoinRoom partyCode w =
  let room := toUpperCase partyCode in
  if not_ room then ignored
  else match findParty (db w) room with
       | None => party_not_found room
       | Some party => room_joined room (snapshotOf (db w) party)
       end.
Proof.
  unfold onJoinRoom, findParty. unfold_calls. unfold_monad. cbv zeta. reduce.
  destruct (not_ _); [reflexivity|].
  now destruct (find _ (parties (db w))).
Qed.

(** X2. In every state the server reaches, a party is read and
    subscribed to under its code written in any letter case: GetSnapshot
    answers 200 with the snapshot of that party, and [party:join-room]
    joins the room of the upper-case code and receives the same snapshot;
    neither writes. *)
Theorem party_found_in_any_case (w : World) (party : Party.t) (code : string) :
  reachable w -> In party (parties (db w)) ->
  toUpperCase code = Party.code party ->
  getParty code w = (json 200 (snapshotOf (db w) party), w)
  /\ onJoinRoom code w = room_joined (Party.code party) (snapshotOf (db w) party)
  /\ toUpperCase (Party.code party) = Party.code party.
Proof.
  intros Hr Hin Hc. assert (HC := reachable_Consistent Hr).
  assert (Hok := con_code_ok HC party Hin).
  rewrite getParty_run, onJoinRoom_run. cbv zeta. rewrite Hc.
  rewrite (@findParty_own _ _ HC Hin), (@codeOk_nonempty _ Hok).
  repeat split. now apply codeOk_upper.
Qed.

Lemma party_found_in_any_case_witness :
  getParty "abcdef" Demo.world
  = (json 200 (snapshotOf (db Demo.world) Demo.party), Demo.world)
  /\ onJoinRoom "abcdef" Demo.world
     = room_joined (Party.code Demo.party) (snapshotOf (db Demo.world) Demo.party)
  /\ toUpperCase (Party.code Demo.party) = Party.code Demo.party.
Proof.
  apply (@party_found_in_any_case Demo.world Demo.party "abcdef").
  - exact demo_reachable.
  - vm_compute. left. reflexivity.
  - reflexivity.
Defined.

(** ** Hosts and participants *)

Lemma filter_none {A} (keep : A -> bool) (rows : list A) :
  (forall x, In x rows -> keep x = false) -> filter keep rows = [].
Proof.
  induction rows as [|a rows IH]; intros H; simpl; [reflexivity|].
  rewrite (H a (or_introl eq_refl)). apply IH. intros x Hx. apply H. now right.
Qed.

Lemma requireHost_run (partyId participantId : Id) (w : World) :
  requireHost partyId participantId w
  = (Return (isHostOf (db w) partyId participantId), w).
Proof.
  unfold requireHost, isHostOf. unfold_calls. unfold_monad. reduce.
  now destruct (find _ (participants (db w))).
Qed.

Lemma participant_id_inj (l : list Participant.t) (x y : Participant.t) :
  NoDup (map Participant.id l) -> In x l -> In y l ->
  Participant.id x = Participant.id y -> x = y.
Proof.
  induction l as [|a l IH]; intros Hnd Hx Hy E; [contradiction|].
  simpl in Hnd. apply NoDup_cons_iff in Hnd. destruct Hnd as [Hn Hnd].
  destruct Hx as [->|Hx], Hy as [->|Hy]; auto.
  - exfalso. apply Hn. rewrite E. now apply in_map.
  - exfalso. apply Hn. rewrite <- E. now apply in_map.
Qed.

Lemma isHostOf_spec (d : Db) (party : Party.t) (participantId : Id) :
  Consistent d -> In party (parties d) ->
  (isHostOf d (Party.id party) participantId = true
   <-> Party.hostParticipantId party = Some participantId).
Proof.
  intros HC Hin.
  destruct (con_host HC party Hin) as [host (H1 & H2 & H3 & H4 & H5)].
  unfold isHostOf. split.
  - destruct (find _ (participants d)) as [m|] eqn:E; [|discriminate]. intros _.
    apply find_some in E. destruct E as [Hm Hc].
    apply andb_true_iff in Hc. destruct Hc as [Hc Hh].
    apply andb_true_iff in Hc. destruct Hc as [Hi Hp].
    apply String.eqb_eq in Hi, Hp. rewrite (H5 m Hm Hp Hh) in Hi. congruence.
  - intros Hh. rewrite H4 in Hh. injection Hh as Hh.
    destruct (find _ (participants d)) eqn:E; [reflexivity|].
    apply (find_none _ _ E) in H1.
    rewrite Hh, H2, H3, !String.eqb_refl in H1. discriminate.
Qed.

(** The participants of a party as a snapshot lists them. *)
Lemma snapshot_participant (d : Db) (party : Party.t) (m : Participant.t) :
  In m (snap_participants (snapshotOf d party))
  <-> In m (participants d) /\ Participant.partyId m = Party.id party.
Proof.
  cbn [snapshotOf snap_participants]. unfold orderBy, party_participants.
  split.
  - intros H. apply (Permutation_in _ (sortBy_perm _ _)) in H.
    apply filter_In in H. now rewrite String.eqb_eq in H.
  - intros H. apply (Permutation_in _ (Permutation_sym (sortBy_perm _ _))).
    apply filter_In. now rewrite String.eqb_eq.
Qed.

(** X3. CreateSession, read back.  After a successful CreateSession from
    a state the server reaches, GetSnapshot under the code of the reply
    answers 200 with the party, now referring to its host, the host as
    its only participant, and no song; [requireHost] holds of the
    creator. *)
Theorem created_party_snapshot
    (env : Env) (name hostName : string) (maxSongs durationMinutes : option Number)
    (w w' : World) (party : Party.t) (participant : Participant.t) :
  reachable w ->
  postParties env name hostName maxSongs durationMinutes w
  = (json 201 (party, participant), w') ->
  getParty (Party.code party) w'
  = (json 200 (mkPartySnapshot (setHost (Participant.id participant) party)
                               [participant] []), w')
  /\ requireHost (Party.id party) (Participant.id participant) w'
     = (Return true, w').
Proof.
  intros Hr H. assert (HI := reachable_Inv Hr).
  assert (HC := reachable_Consistent Hr).
  rewrite postParties_run in H.
  destruct (not_ (trim name) || not_ (trim hostName)); [discriminate|].
  destruct (freshCode env (db w) 10 0) as [code|] eqn:Ecode; [|discriminate].
  destruct (intArg (parseOptionalNumber maxSongs)) as [ms|]; [|discriminate].
  destruct (intArg (parseOptionalNumber durationMinutes)) as [dm|]; [|discriminate].
  cbv zeta in H.
  destruct (partyClash (db w) _) eqn:Epc; [discriminate|].
  destruct (participantClash (db w) _) eqn:Emc; [discriminate|].
  rewrite (@created_db _ _ _ Epc) in H.
  destruct (@freshCode_spec _ _ _ _ _ Ecode) as [Hok Hnone].
  destruct (@partyClash_fresh _ _ Epc) as [Hpid _].
  destruct (@participantClash_fresh _ _ Emc) as [Hmid _].
  assert (Hsongs := @songsOf_fresh_party _ _ HI Epc).
  inversion H; subst party participant w'; clear H.
  set (party := newParty env code (trim name) ms dm) in *.
  set (host := Participant.mk (newId env 1) (Party.id party) (trim hostName) true
                 (now env)) in *.
  assert (Hold : filter (fun m => Participant.partyId m =? Party.id party)
                        (participants (db w)) = []).
  { apply filter_none. intros m Hm. apply String.eqb_neq. intros E.
    destruct (con_participant_party HC m Hm) as [p [Hp Hpm]].
    apply (Hpid p Hp). congruence. }
  split.
  - rewrite getParty_run. cbn [db].
    replace (Party.code party) with code by reflexivity.
    rewrite (codeOk_upper _ Hok). unfold findParty in *. cbn [parties].
    rewrite find_app, Hnone. cbn [find setHost Party.code].
    replace (Party.code party) with code by reflexivity.
    rewrite String.eqb_refl. do 2 f_equal.
    unfold snapshotOf, party_participants, party_songs, orderBy.
    cbn [participants songs setHost Party.id].
    rewrite filter_app, Hold. unfold songsOf in Hsongs. rewrite Hsongs.
    cbn [filter app Participant.partyId host]. rewrite String.eqb_refl.
    reflexivity.
  - rewrite requireHost_run. f_equal. f_equal. unfold isHostOf. cbn [db participants].
    rewrite find_app.
    rewrite find_all_false.
    + cbn [find Participant.id Participant.partyId Participant.isHost host].
      now rewrite !String.eqb_refl.
    + intros m Hm. cbv beta. cbn [Participant.id].
      destruct (String.eqb_spec (Participant.id m) (newId env 1))
        as [E|E]; [|reflexivity].
      exfalso. apply Hmid. change (Participant.id host) with (newId env 1).
      rewrite <- E. now apply in_map.
Qed.

Lemma created_party_snapshot_witness :
  let env := Demo.env ["p1"; "h1"] 100 in
  let party := newParty env "ABCDEF" "Friday" (Some 2) None in
  let host := Participant.mk "h1" "p1" "Host" true 100 in
  let w' := snd (postParties env " Friday " "Host" (Some (Finite 2)) None
                   initialWorld) in
  getParty (Party.code party) w'
  = (json 200 (mkPartySnapshot (setHost (Participant.id host) party) [host] []), w')
  /\ requireHost (Party.id party) (Participant.id host) w' = (Return true, w').
Proof.
  intros env party host w'.
  apply (@created_party_snapshot env " Friday " "Host" (Some (Finite 2)) None
           initialWorld w' party host).
  - exists []. reflexivity.
  - vm_compute. reflexivity.
Defined.

(** X4. In every state the server reaches, a party refers to a host, and
    [requireHost] answers whether the participant is that host; it never
    writes. *)
Theorem require_host_is_the_host (w : World) (party : Party.t) (participantId : Id) :
  reachable w -> In party (parties (db w)) ->
  exists host,
    Party.hostParticipantId party = Some host
    /\ requireHost (Party.id party) participantId w
       = (Return (host =? participantId), w).
Proof.
  intros Hr Hin. assert (HC := reachable_Consistent Hr).
  destruct (con_host HC party Hin) as [host Hhost].
  exists (Participant.id host). split; [apply Hhost|].
  rewrite requireHost_run. do 2 f_equal.
  assert (Hs := @isHostOf_spec _ party participantId HC Hin).
  destruct Hhost as (_ & _ & _ & H4 & _). rewrite H4 in Hs.
  destruct (String.eqb_spec (Participant.id host) participantId) as [E|E].
  - apply Hs. now rewrite E.
  - destruct (isHostOf _ _ _); [|reflexivity].
    exfalso. apply E. destruct Hs as [Hs _]. specialize (Hs eq_refl). congruence.
Qed.

Lemma require_host_is_the_host_witness :
  exists host,
    Party.hostParticipantId Demo.party = Some host
    /\ requireHost (Party.id Demo.party) "g1" Demo.world
       = (Return (host =? "g1"), Demo.world).
Proof.
  apply (@require_host_is_the_host Demo.world Demo.party "g1").
  - exact demo_reachable.
  - vm_compute. left. reflexivity.
Defined.

(** X5. The page decides who is the host as the server does: on the
    snapshot of a party in a state the server reaches, [isHost] of the
    client equals [requireHost] of the server for every participant
    identifier. *)
Theorem client_host_is_server_host (w : World) (party : Party.t) (participantId : Id) :
  reachable w -> In party (parties (db w)) ->
  requireHost (Party.id party) participantId w
  = (Return (Client.isHost (snapshotOf (db w) party) participantId), w).
Proof.
  intros Hr Hin. assert (HC := reachable_Consistent Hr).
  rewrite requireHost_run. do 2 f_equal.
  unfold Client.isHost, Client.me, isHostOf.
  destruct (find _ (snap_participants _)) as [m|] eqn:Em.
  - apply find_some in Em. destruct Em as [Hm Hid].
    apply snapshot_participant in Hm. destruct Hm as [Hm Hp].
    apply String.eqb_eq in Hid.
    destruct (find _ (participants (db w))) as [m'|] eqn:Em'.
    + apply find_some in Em'. destruct Em' as [Hm' Hc].
      apply andb_true_iff in Hc. destruct Hc as [Hc Hh].
      apply andb_true_iff in Hc. destruct Hc as [Hi _].
      apply String.eqb_eq in Hi.
      assert (m' = m)
        by (apply (participant_id_inj (participants (db w)));
            [apply HC|assumption|assumption|congruence]).
      subst m'. now rewrite Hh.
    + apply (find_none _ _ Em') in Hm.
      rewrite Hid, Hp, !String.eqb_refl in Hm. simpl in Hm. now rewrite Hm.
  - destruct (find _ (participants (db w))) as [m'|] eqn:Em'; [|reflexivity].
    apply find_some in Em'. destruct Em' as [Hm' Hc].
    apply andb_true_iff in Hc. destruct Hc as [Hc Hh].
    apply andb_true_iff in Hc. destruct Hc as [Hi Hp].
    apply String.eqb_eq in Hp.
    assert (Hs : In m' (snap_participants (snapshotOf (db w) party)))
      by (apply snapshot_participant; now split).
    apply (find_none _ _ Em) in Hs. congruence.
Qed.

Lemma client_host_is_server_host_witness :
  requireHost (Party.id Demo.party) "h1" Demo.world
  = (Return (Client.isHost (snapshotOf (db Demo.world) Demo.party) "h1"),
     Demo.world).
Proof.
  apply (@client_host_is_server_host Demo.world Demo.party "h1").
  - exact demo_reachable.
  - vm_compute. left. reflexivity.
Defined.

(** ** JoinSession *)

Lemma names_distinct (l : list Participant.t) (partyId : Id) :
  NoDup (map nameKey l) ->
  NoDup (map Participant.name
             (filter (fun m => Participant.partyId m =? partyId) l)).
Proof.
  induction l as [|a l IH]; simpl; intros Hnd; [constructor|].
  apply NoDup_cons_iff in Hnd. destruct Hnd as [Hn Hnd].
  destruct (String.eqb_spec (Participant.partyId a) partyId) as [E|E];
    [|now apply IH].
  simpl. constructor; [|now apply IH].
  intros Hin. apply in_map_iff in Hin. destruct Hin as [m [Hname Hm]].
  apply filter_In in Hm. destruct Hm as [Hm Hp]. apply String.eqb_eq in Hp.
  apply Hn. apply in_map_iff. exists m. split; [|exact Hm].
  unfold nameKey. congruence.
Qed.

(** X6. JoinSession with a display name that a participant of the
    active party already has is answered 409, and nothing is written or
    published. *)
Theorem join_name_in_use
    (env : Env) (code name : string) (w : World) (party : Party.t)
    (m : Participant.t) :
  not_ (trim name) = false ->
  findParty (db w) (toUpperCase code) = Some party ->
  Party.status party = ACTIVE ->
  In m (participants (db w)) ->
  Participant.partyId m = Party.id party ->
  Participant.name m = trim name ->
  postJoin env code name w
  = (error 409 "That display name is already in use in this party", w).
Proof.
  intros Hn Hf Hs Hm Hp Hname. rewrite postJoin_run. cbv zeta.
  rewrite Hn, Hf, Hs.
  assert (Hclash : participantClash (db w)
            (Participant.mk (newId env 0) (Party.id party) (trim name) false (now env))
          = true).
  { apply existsb_exists. exists m. split; [exact Hm|].
    cbn [Participant.id Participant.partyId Participant.name].
    rewrite Hp, Hname, !String.eqb_refl. apply orb_true_r. }
  now rewrite Hclash.
Qed.

Lemma join_name_in_use_witness :
  postJoin (Demo.env ["g2"] 300) "abcdef" " Guest " Demo.world
  = (error 409 "That display name is already in use in this party", Demo.world).
Proof.
  apply (@join_name_in_use (Demo.env ["g2"] 300) "abcdef" " Guest " Demo.world
           Demo.party (Participant.mk "g1" "p1" "Guest" false 101)).
  - reflexivity.
  - reflexivity.
  - reflexivity.
  - vm_compute. right. left. reflexivity.
  - reflexivity.
  - reflexivity.
Defined.

(** X7. In every state the server reaches, the participants of a
    snapshot are the participants of the party, with pairwise distinct
    identifiers and pairwise distinct display names, and exactly one of
    them is a host: the one the party refers to. *)
Theorem snapshot_participants_distinct (w : World) (party : Party.t) :
  reachable w -> In party (parties (db w)) ->
  let members := snap_participants (snapshotOf (db w) party) in
  NoDup (map Participant.id members)
  /\ NoDup (map Participant.name members)
  /\ (forall m, In m members
                <-> In m (participants (db w))
                    /\ Participant.partyId m = Party.id party)
  /\ exists host,
       In host members
       /\ Party.hostParticipantId party = Some (Participant.id host)
       /\ forall m, In m members -> (Participant.isHost m = true <-> m = host).
Proof.
  intros Hr Hin members. assert (HC := reachable_Consistent Hr).
  assert (Hperm : Permutation members (party_participants (db w) party))
    by apply sortBy_perm.
  split; [|split; [|split]].
  - apply (Permutation_NoDup (Permutation_sym (Permutation_map _ Hperm))).
    apply NoDup_map_filter. apply HC.
  - apply (Permutation_NoDup (Permutation_sym (Permutation_map _ Hperm))).
    apply names_distinct. apply HC.
  - intros m. apply snapshot_participant.
  - destruct (con_host HC party Hin) as [host (H1 & H2 & H3 & H4 & H5)].
    exists host. split; [apply snapshot_participant; now split|].
    split; [exact H4|].
    intros m Hm. apply snapshot_participant in Hm. destruct Hm as [Hm Hp].
    split; [now apply H5|now intros ->].
Qed.

Lemma snapshot_participants_distinct_witness :
  let members := snap_participants (snapshotOf (db Demo.world) Demo.party) in
  NoDup (map Participant.id members)
  /\ NoDup (map Participant.name members)
  /\ (forall m, In m members
                <-> In m (participants (db Demo.world))
                    /\ Participant.partyId m = Party.id Demo.party)
  /\ exists host,
       In host members
       /\ Party.hostParticipantId Demo.party = Some (Participant.id host)
       /\ forall m, In m members -> (Participant.isHost m = true <-> m = host).
Proof.
  apply (@snapshot_participants_distinct Demo.world Demo.party).
  - exact demo_reachable.
  - vm_compute. left. reflexivity.
Defined.

(** X8. A successful JoinSession adds one participant and nothing else:
    the new participant has the trimmed name, belongs to the party, may
    add items and vote ([participant.findFirst] finds it), and is not a
    host ([requireHost] is false of it). *)
Theorem joined_is_member_not_host
    (env : Env) (code name : string) (w w' : World)
    (joined : JoinedParty) (participant : Participant.t) :
  postJoin env code name w = (json 200 (joined, participant), w') ->
  exists party,
    findParty (db w) (toUpperCase code) = Some party
    /\ joined = (Party.id party, Party.code party, Party.name party, ACTIVE)
    /\ Participant.name participant = trim name
    /\ Participant.partyId participant = Party.id party
    /\ db w' = addParticipant participant (db w)
    /\ isMemberOf (db w') (Party.id party) (Participant.id participant) = true
    /\ requireHost (Party.id party) (Participant.id participant) w'
       = (Return false, w').
Proof.
  rewrite postJoin_run. cbv zeta.
  destruct (not_ (trim name)); [discriminate|].
  destruct (findParty (db w) (toUpperCase code)) as [party|]; [|discriminate].
  destruct (Party.status party) eqn:Es; [|discriminate].
  destruct (participantClash (db w) _) eqn:Ec; [discriminate|].
  intros H. inversion H; subst joined participant w'; clear H.
  destruct (@participantClash_fresh _ _ Ec) as [Hid _].
  cbn [Participant.id] in Hid.
  exists party. repeat split.
  - unfold isMemberOf, addParticipant. cbn [db participants].
    rewrite find_app, find_all_false.
    + cbn [find Participant.id Participant.partyId]. now rewrite !String.eqb_refl.
    + intros m Hm. cbv beta. cbn [Participant.id].
      destruct (String.eqb_spec (Participant.id m) (newId env 0)) as [E|E];
        [|reflexivity].
      exfalso. apply Hid. rewrite <- E. now apply in_map.
  - rewrite requireHost_run. do 2 f_equal.
    unfold isHostOf, addParticipant. cbn [db participants].
    rewrite find_app, find_all_false.
    + cbn [find Participant.id Participant.partyId Participant.isHost].
      now rewrite !String.eqb_refl.
    + intros m Hm. cbv beta. cbn [Participant.id].
      destruct (String.eqb_spec (Participant.id m) (newId env 0)) as [E|E];
        [|reflexivity].
      exfalso. apply Hid. rewrite <- E. now apply in_map.
Qed.

Lemma joined_is_member_not_host_witness :
  let w' := snd (postJoin (Demo.env ["g2"] 300) "abcdef" " Ann " Demo.world) in
  let participant := Participant.mk "g2" "p1" "Ann" false 300 in
  exists party,
    findParty (db Demo.world) (toUpperCase "abcdef") = Some party
    /\ ("p1", "ABCDEF", "Friday", ACTIVE)
       = (Party.id party, Party.code party, Party.name party, ACTIVE)
    /\ Participant.name participant = trim " Ann "
    /\ Participant.partyId participant = Party.id party
    /\ db w' = addParticipant participant (db Demo.world)
    /\ isMemberOf (db w') (Party.id party) (Participant.id participant) = true
    /\ requireHost (Party.id party) (Participant.id participant) w'
       = (Return false, w').
Proof.
  intros w' participant.
  apply (@joined_is_member_not_host (Demo.env ["g2"] 300) "abcdef" " Ann "
           Demo.world w' ("p1", "ABCDEF", "Friday", ACTIVE) participant).
  vm_compute. reflexivity.
Defined.

(** ** The queue and the votes of a snapshot *)

Lemma served_reachable (env : Env) (call : Call) (w : World) :
  reachable w -> reachable (snd (serve env call w)).
Proof.
  intros [calls <-]. exists (calls ++ [(env, call)]).
  generalize initialWorld. induction calls as [|[e c] rest IH]; intros w0.
  - rewrite app_nil_l, run_cons. reflexivity.
  - rewrite <- app_comm_cons, !run_cons. cbn [snd]. apply IH.
Qed.

(** A list already in order is left as it is. *)
Lemma sortBy_id {A} (compare : A -> A -> Z) (l : list A) :
  StronglySorted (ordered compare) l -> sortBy compare l = l.
Proof.
  induction l as [|x t IH]; intros Hs; [reflexivity|].
  apply StronglySorted_inv in Hs. destruct Hs as [Ht Hall].
  simpl. rewrite (IH Ht). destruct t as [|y t']; [reflexivity|].
  simpl. apply Forall_inv in Hall. unfold ordered in Hall.
  apply Z.leb_le in Hall. now rewrite Hall.
Qed.

Lemma positions_sorted (l : list Song.t) (k n : nat) :
  map Song.queuePosition l = map Z.of_nat (seq k n) ->
  StronglySorted (ordered (fun a b => Song.queuePosition a - Song.queuePosition b)) l
  /\ Forall (fun s => Z.of_nat k <= Song.queuePosition s) l.
Proof.
  revert k n. induction l as [|x t IH]; intros k n H.
  - split; constructor.
  - destruct n as [|n]; [discriminate|]. simpl in H. injection H as Hx Ht.
    destruct (IH _ _ Ht) as [Hs Hall]. rewrite Forall_forall in Hall.
    split.
    + constructor; [exact Hs|]. apply Forall_forall. intros s Hin.
      unfold ordered. specialize (Hall s Hin). lia.
    + constructor; [lia|]. apply Forall_forall. intros s Hin.
      specialize (Hall s Hin). lia.
Qed.

(** The songs of a party come out of the table in queue order. *)
Lemma orderBy_songs (d : Db) (party : Party.t) :
  Inv d -> orderBy Song.queuePosition (party_songs d party) = party_songs d party.
Proof.
  intros HI. unfold orderBy. apply sortBy_id.
  apply (@positions_sorted _ 1 (List.length (party_songs d party))).
  exact (inv_positions HI (Party.id party)).
Qed.

(** A vote on a song of the party is a vote of the party. *)
Lemma vote_of_party (d : Db) (party : Party.t) (song : Song.t) (v : Vote.t) :
  Inv d -> Consistent d -> In song (party_songs d party) ->
  In v (votes d) -> Vote.songId v = Song.id song ->
  Vote.partyId v = Party.id party.
Proof.
  intros HI HC Hs Hv E. apply filter_In in Hs. destruct Hs as [Hs Hp].
  apply String.eqb_eq in Hp.
  destruct (con_vote_song HC v Hv) as [s [Hin [Hid Hsp]]].
  assert (s = song)
    by (apply (song_id_inj (songs d)); [apply HI|assumption|assumption|congruence]).
  congruence.
Qed.

Lemma votesFor_count (d : Db) (party : Party.t) (song : Song.t) :
  Inv d -> Consistent d -> In song (party_songs d party) ->
  votesFor d party song = Z.of_nat (List.length (song_votes d song)).
Proof.
  intros HI HC Hs. unfold votesFor, song_votes. do 2 f_equal.
  apply filter_filter_same. intros v Hv E. apply String.eqb_eq in E.
  apply String.eqb_eq. now apply (vote_of_party party song v HI HC).
Qed.

Lemma voters_distinct (l : list Vote.t) (songId : Id) :
  NoDup (map votePair l) ->
  NoDup (map Vote.participantId (filter (fun v => Vote.songId v =? songId) l)).
Proof.
  induction l as [|a l IH]; simpl; intros Hnd; [constructor|].
  apply NoDup_cons_iff in Hnd. destruct Hnd as [Hn Hnd].
  destruct (String.eqb_spec (Vote.songId a) songId) as [E|E]; [|now apply IH].
  simpl. constructor; [|now apply IH].
  intros Hin. apply in_map_iff in Hin. destruct Hin as [v [Hp Hv]].
  apply filter_In in Hv. destruct Hv as [Hv Hs]. apply String.eqb_eq in Hs.
  apply Hn. apply in_map_iff. exists v. split; [|exact Hv].
  unfold votePair. congruence.
Qed.

Lemma snapshot_songs (d : Db) (party : Party.t) :
  Inv d ->
  snap_songs (snapshotOf d party)
  = map (fun song => mkSnapshotSong song (countVotes d (Song.id song))
                       (map Vote.participantId (song_votes d song)))
        (party_songs d party).
Proof. intros HI. cbn [snapshotOf snap_songs]. now rewrite orderBy_songs. Qed.

(** X9. In every state the server reaches, the songs of a snapshot are
    the songs of the party in the order they were added, at the queue
    positions 1, 2, ..., N; the vote count of each is the number of its
    voter identifiers, which are pairwise distinct and are identifiers of
    participants of the snapshot. *)
Theorem snapshot_songs_in_order (w : World) (party : Party.t) :
  reachable w -> In party (parties (db w)) ->
  let snapshot := snapshotOf (db w) party in
  map ss_song (snap_songs snapshot) = party_songs (db w) party
  /\ map (fun s => Song.queuePosition (ss_song s)) (snap_songs snapshot)
     = oneTo (List.length (snap_songs snapshot))
  /\ forall s, In s (snap_songs snapshot) ->
       ss_voteCount s = Z.of_nat (List.length (ss_voterIds s))
       /\ NoDup (ss_voterIds s)
       /\ forall voter, In voter (ss_voterIds s) ->
            exists m, In m (snap_participants snapshot)
                      /\ Participant.id m = voter.
Proof.
  intros Hr Hin snapshot. assert (HI := reachable_Inv Hr).
  assert (HC := reachable_Consistent Hr).
  unfold snapshot. rewrite (snapshot_songs party HI).
  split; [|split].
  - rewrite map_map. cbn [ss_song]. apply map_id.
  - rewrite map_map, length_map. cbn [ss_song].
    exact (inv_positions HI (Party.id party)).
  - intros s Hs. apply in_map_iff in Hs. destruct Hs as [song [<- Hsong]].
    cbn [ss_voteCount ss_voterIds ss_song]. split; [|split].
    + now rewrite length_map.
    + apply voters_distinct. apply HI.
    + intros voter Hv. apply in_map_iff in Hv. destruct Hv as [v [<- Hv]].
      apply filter_In in Hv. destruct Hv as [Hv Hs]. apply String.eqb_eq in Hs.
      destruct (con_vote_voter HC v Hv) as [m [Hm [Hid Hp]]].
      exists m. split; [|exact Hid]. apply snapshot_participant.
      split; [exact Hm|]. rewrite Hp.
      now apply (vote_of_party party song v HI HC).
Qed.

Lemma snapshot_songs_in_order_witness :
  let snapshot := snapshotOf (db Demo.world) Demo.party in
  map ss_song (snap_songs snapshot) = party_songs (db Demo.world) Demo.party
  /\ map (fun s => Song.queuePosition (ss_song s)) (snap_songs snapshot)
     = oneTo (List.length (snap_songs snapshot))
  /\ forall s, In s (snap_songs snapshot) ->
       ss_voteCount s = Z.of_nat (List.length (ss_voterIds s))
       /\ NoDup (ss_voterIds s)
       /\ forall voter, In voter (ss_voterIds s) ->
            exists m, In m (snap_participants snapshot)
                      /\ Participant.id m = voter.
Proof.
  apply (@snapshot_songs_in_order Demo.world Demo.party).
  - exact demo_reachable.
  - vm_compute. left. reflexivity.
Defined.

(** ** What AddItem and ToggleVote answer, in the snapshot *)

(** X11. After a successful AddItem from a state the server reaches, the
    songs of the snapshot of the party are the songs it showed before
    followed by the item of the reply, with no vote; the queue position
    of the item is the new number of songs, and it does not exceed the
    capacity of the party. *)
Theorem added_item_is_last
    (env : Env)
    (code participantId title artist artworkUrl previewUrl externalUrl : string)
    (w w' : World) (item : SnapshotSong) :
  reachable w ->
  postSongs env code participantId title artist artworkUrl previewUrl externalUrl w
  = (json 201 item, w') ->
  exists party,
    findParty (db w) (toUpperCase code) = Some party
    /\ findParty (db w') (toUpperCase code) = Some party
    /\ snap_songs (snapshotOf (db w') party)
       = snap_songs (snapshotOf (db w) party) ++ [item]
    /\ Song.queuePosition (ss_song item)
       = Z.of_nat (List.length (snap_songs (snapshotOf (db w') party)))
    /\ forall maxSongs, Party.maxSongs party = Some maxSongs ->
         Song.queuePosition (ss_song item) <= maxSongs.
Proof.
  intros Hr H. assert (HI := reachable_Inv Hr).
  assert (HC := reachable_Consistent Hr).
  assert (HI' : Inv (db w')).
  { replace w' with (snd (serve env (AddItem code participantId title artist
                                       artworkUrl previewUrl externalUrl) w))
      by (cbn [serve on]; now rewrite H).
    now apply serve_Inv. }
  rewrite postSongs_run in H. cbv zeta in H.
  destruct (not_ participantId || not_ (trim title) || not_ (trim artist));
    [discriminate|].
  destruct (findParty (db w) (toUpperCase code)) as [party|] eqn:Ef; [|discriminate].
  destruct (Party.status party); [|discriminate].
  destruct (negb _); [discriminate|].
  destruct (queueFull party _) eqn:Efull; [discriminate|].
  destruct (songClash (db w) _) eqn:Ec; [discriminate|].
  inversion H; subst item w'; clear H. cbn [db] in *.
  set (song := Song.mk (newId env 0) (Party.id party) participantId (trim title)
                 (trim artist) (orNull (trim artworkUrl)) (orNull (trim previewUrl))
                 (orNull (trim externalUrl))
                 (Z.of_nat (List.length (party_songs (db w) party)) + 1) (now env))
    in *.
  assert (Hfresh := @songClash_fresh _ _ Ec).
  assert (Hsongs : party_songs (addSong song (db w)) party
                   = party_songs (db w) party ++ [song]).
  { change (songsOf (addSong song (db w)) (Party.id party)
            = songsOf (db w) (Party.id party) ++ [song]).
    rewrite songsOf_addSong. cbn [song Song.partyId]. now rewrite String.eqb_refl. }
  exists party. split; [reflexivity|]. split; [exact Ef|].
  rewrite (snapshot_songs party HI'), (snapshot_songs party HI), Hsongs.
  split; [|split].
  - rewrite map_app. cbn [map]. do 2 f_equal.
    unfold countVotes, song_votes. cbn [addSong votes].
    rewrite filter_none; [reflexivity|].
    intros v Hv. apply String.eqb_neq. intros E.
    destruct (con_vote_song HC v Hv) as [s [Hs [Hid _]]].
    apply Hfresh. rewrite <- E, <- Hid. now apply in_map.
  - rewrite length_map, length_app. cbn [ss_song Song.queuePosition song List.length].
    lia.
  - intros maxSongs Hmax. cbn [ss_song Song.queuePosition song].
    unfold queueFull in Efull. rewrite Hmax in Efull.
    rewrite Z.geb_leb in Efull. apply Z.leb_gt in Efull. lia.
Qed.

(** A second song onto a queue of one, under a capacity of three. *)
Lemma added_item_is_last_witness :
  let env := Demo.env ["s9"] 300 in
  let w := snd (run [(Demo.env ["p1"; "h1"] 100,
                      CreateSession "Friday" "Host" (Some (Finite 3)) None);
                     (Demo.env ["s1"] 102,
                      AddItem "abcdef" "h1" "Alpha" "Ann" "" "" "")]
                    initialWorld) in
  let w' := snd (postSongs env "abcdef" "h1" "Beta" "Bob" "" "" "" w) in
  let item := mkSnapshotSong
                (Song.mk "s9" "p1" "h1" "Beta" "Bob" None None None 2 300) 0 [] in
  exists party,
    findParty (db w) (toUpperCase "abcdef") = Some party
    /\ findParty (db w') (toUpperCase "abcdef") = Some party
    /\ snap_songs (snapshotOf (db w') party)
       = snap_songs (snapshotOf (db w) party) ++ [item]
    /\ Song.queuePosition (ss_song item)
       = Z.of_nat (List.length (snap_songs (snapshotOf (db w') party)))
    /\ forall maxSongs, Party.maxSongs party = Some maxSongs ->
         Song.queuePosition (ss_song item) <= maxSongs.
Proof.
  intros env w w' item.
  apply (@added_item_is_last env "abcdef" "h1" "Beta" "Bob" "" "" "" w w' item).
  - eexists. reflexivity.
  - vm_compute. reflexivity.
Defined.



(** ** The current song and the clock, on the server and on the page *)

Lemma partyById_found (d : Db) (room : string) (party : Party.t) :
  Inv d -> findParty d room = Some party -> partyById d (Party.id party) = Some party.
Proof.
  intros HI Hf. apply findParty_In in Hf. destruct Hf as [Hin _].
  apply find_unique; [exact Hin|apply String.eqb_refl|].
  intros q Hq E. apply String.eqb_eq in E.
  apply (party_id_inj d); [apply HI|assumption|assumption|exact E].
Qed.

Lemma max0_id (x : Q) : (0 <= x)%Q -> max0 x = x.
Proof. intros H. unfold max0. apply Qle_bool_iff in H. now rewrite H. Qed.

Lemma elapsed_seconds (t s : Z) :
  ((inject_Z t - inject_Z s) / 1000 == Qmake (t - s) 1000)%Q.
Proof.
  unfold Qeq, Qdiv, Qminus, Qplus, Qopp, Qmult, Qinv, inject_Z. simpl. lia.
Qed.

Lemma elapsed_nonneg (t s : Z) : s <= t -> (0 <= Qmake (t - s) 1000)%Q.
Proof. intros H. unfold Qle. simpl. lia. Qed.

(** X13. In every state the server reaches, the current song of a party,
    when set, is a song of that party, and the page finds it:
    [currentSong] on the snapshot is that song. *)
Theorem current_song_is_shown (w : World) (party : Party.t) (songId : Id) :
  reachable w -> In party (parties (db w)) ->
  Party.currentSongId party = Some songId ->
  exists s,
    Client.currentSong (snapshotOf (db w) party) = Some s
    /\ Song.id (ss_song s) = songId
    /\ Song.partyId (ss_song s) = Party.id party
    /\ hasSong (db w) (Party.id party) songId = true.
Proof.
  intros Hr Hin Hc. assert (HI := reachable_Inv Hr).
  assert (HC := reachable_Consistent Hr).
  destruct (@con_current _ HC party songId Hin Hc) as [song [Hs [Hid Hp]]].
  assert (Hps : In song (party_songs (db w) party))
    by (apply filter_In; split; [exact Hs|now apply String.eqb_eq]).
  unfold Client.currentSong. cbn [snapshotOf snap_party]. rewrite Hc.
  rewrite (@con_current_set _ HC party songId Hin Hc).
  change (map _ (orderBy Song.queuePosition (party_songs (db w) party)))
    with (snap_songs (snapshotOf (db w) party)).
  rewrite (snapshot_songs party HI).
  destruct (find _ (map _ (party_songs (db w) party))) as [s|] eqn:E.
  - exists s. apply find_some in E. destruct E as [Hin' Hs'].
    apply String.eqb_eq in Hs'. split; [reflexivity|]. split; [exact Hs'|].
    apply in_map_iff in Hin'. destruct Hin' as [x [<- Hx]]. cbn [ss_song].
    apply filter_In in Hx. destruct Hx as [Hx Hxp]. apply String.eqb_eq in Hxp.
    split; [exact Hxp|].
    unfold hasSong. destruct (find _ (songs (db w))) eqn:E'; [reflexivity|].
    apply (find_none _ _ E') in Hs. rewrite Hid, Hp, !String.eqb_refl in Hs.
    discriminate Hs.
  - exfalso.
    assert (Hm : In (mkSnapshotSong song (countVotes (db w) (Song.id song))
                       (map Vote.participantId (song_votes (db w) song)))
                    (map (fun song => mkSnapshotSong song
                                        (countVotes (db w) (Song.id song))
                                        (map Vote.participantId
                                             (song_votes (db w) song)))
                         (party_songs (db w) party)))
      by (apply in_map_iff; now exists song).
    apply (find_none _ _ E) in Hm. cbn [ss_song] in Hm.
    rewrite Hid, String.eqb_refl in Hm. discriminate Hm.
Qed.

Lemma current_song_is_shown_witness :
  let w := snd (postCurrentSong "abcdef" "h1" "s2" Demo.world) in
  let party := Party.mk "p1" "ABCDEF" "Friday" (Some "h1") (Some 2) None (Some "s2")
                 ACTIVE PAUSED None 0%Q 100 None in
  exists s,
    Client.currentSong (snapshotOf (db w) party) = Some s
    /\ Song.id (ss_song s) = "s2"
    /\ Song.partyId (ss_song s) = Party.id party
    /\ hasSong (db w) (Party.id party) "s2" = true.
Proof.
  intros w party.
  apply (@current_song_is_shown w party "s2").
  - apply (@served_reachable (Demo.env [] 0) (SetCurrentItem "abcdef" "h1" "s2")
             Demo.world).
    exact demo_reachable.
  - vm_compute. left. reflexivity.
  - reflexivity.
Defined.

(** X14. A successful SetCurrentItem from a state the server reaches
    stores and answers the party with the song as its current song and
    the clock paused at 0 with no start time: whatever was playing, the
    position reads 0 at every time, on the server and on the page, and
    nothing but the current song and the clock of the party changes. *)
Theorem current_song_resets_clock
    (code participantId songId : string) (w w' : World) (updated : Party.t) :
  reachable w ->
  postCurrentSong code participantId songId w = (json 200 updated, w') ->
  exists party,
    findParty (db w) (toUpperCase code) = Some party
    /\ updated = setCurrentSong songId party
    /\ findParty (db w') (toUpperCase code) = Some updated
    /\ Party.currentSongId updated = Some songId
    /\ Party.playbackStatus updated = PAUSED
    /\ Party.playbackStartedAt updated = None
    /\ forall t, (currentOffsetSec updated t == 0)%Q
                 /\ (Client.expectedOffsetOf updated t == 0)%Q.
Proof.
  intros Hr H. assert (HI := reachable_Inv Hr).
  rewrite postCurrentSong_run in H. cbv zeta in H.
  destruct (not_ participantId || not_ songId); [discriminate|].
  destruct (findParty (db w) (toUpperCase code)) as [party|] eqn:Ef; [|discriminate].
  destruct (Party.status party); [|discriminate].
  destruct (negb (isHostOf _ _ _)); [discriminate|].
  destruct (negb (hasSong _ _ _)); [discriminate|].
  rewrite (partyById_found _ HI Ef) in H.
  inversion H; subst updated w'; clear H. cbn [db].
  exists party. repeat split.
  now apply findParty_updateParty.
Qed.

Lemma current_song_resets_clock_witness :
  let w' := snd (postCurrentSong "abcdef" "h1" "s2" Demo.playing) in
  let updated := Party.mk "p1" "ABCDEF" "Friday" (Some "h1") (Some 2) None (Some "s2")
                   ACTIVE PAUSED None 0%Q 100 None in
  exists party,
    findParty (db Demo.playing) (toUpperCase "abcdef") = Some party
    /\ updated = setCurrentSong "s2" party
    /\ findParty (db w') (toUpperCase "abcdef") = Some updated
    /\ Party.currentSongId updated = Some "s2"
    /\ Party.playbackStatus updated = PAUSED
    /\ Party.playbackStartedAt updated = None
    /\ forall t, (currentOffsetSec updated t == 0)%Q
                 /\ (Client.expectedOffsetOf updated t == 0)%Q.
Proof.
  intros w' updated.
  apply (@current_song_resets_clock "abcdef" "h1" "s2" Demo.playing w' updated).
  - exact demo_playing_reachable.
  - vm_compute. reflexivity.
Defined.

(** X15. In every state the server reaches, the stored offset of a party
    is not negative, and neither is the position the server computes from
    it at any time. *)
Theorem offset_never_negative (w : World) (party : Party.t) (t : Date) :
  reachable w -> In party (parties (db w)) ->
  (0 <= Party.playbackOffsetSec party)%Q /\ (0 <= currentOffsetSec party t)%Q.
Proof.
  intros Hr Hin. assert (HC := reachable_Consistent Hr).
  split; [now apply (con_offset HC)|].
  apply currentOffsetSec_nonneg. now apply (con_offset HC).
Qed.

Lemma offset_never_negative_witness :
  (0 <= Party.playbackOffsetSec Demo.playingParty)%Q
  /\ (0 <= currentOffsetSec Demo.playingParty 500)%Q.
Proof.
  apply (@offset_never_negative Demo.playing Demo.playingParty 500).
  - exact demo_playing_reachable.
  - vm_compute. left. reflexivity.
Defined.

(** X16. The page and the server read the same clock.  For a party of a
    state the server reaches, at a time not before the start of the
    playback (and a start other than the epoch), [getExpectedOffsetSec]
    of the page equals the position [currentOffsetSec] of the server;
    [getExpectedOffsetSec] itself is never negative. *)
Theorem client_clock_is_server_clock (w : World) (party : Party.t) (t : Date) :
  reachable w -> In party (parties (db w)) ->
  Party.playbackStartedAt party <> Some 0 ->
  (forall startedAt, Party.playbackStartedAt party = Some startedAt -> startedAt <= t) ->
  (Client.expectedOffsetOf party t == currentOffsetSec party t)%Q
  /\ (0 <= Client.expectedOffsetOf party t)%Q.
Proof.
  intros Hr Hin H0 Ht. assert (HC := reachable_Consistent Hr).
  assert (Hoff := con_offset HC party Hin).
  unfold Client.expectedOffsetOf, Client.getExpectedOffsetSec, currentOffsetSec.
  destruct (Party.playbackStatus party).
  - destruct (Party.playbackStartedAt party) as [s|]; cbn [option_map].
    + destruct (Z.eqb_spec s 0) as [->|_]; [congruence|].
      specialize (Ht s eq_refl).
      assert (He := elapsed_nonneg Ht).
      rewrite (max0_id He).
      assert (Hsum : (0 <= Party.playbackOffsetSec party
                           + (inject_Z t - inject_Z s) / 1000)%Q).
      { apply Qplus_nonneg; [exact Hoff|]. now rewrite elapsed_seconds. }
      rewrite (max0_id Hsum). split; [|exact Hsum].
      now rewrite elapsed_seconds.
    + rewrite (max0_id Hoff). split; [now rewrite Qplus_0_r|exact Hoff].
  - destruct (Party.playbackStartedAt party); cbn [option_map];
      rewrite (max0_id Hoff); (split; [now rewrite Qplus_0_r|exact Hoff]).
Qed.

Lemma client_clock_is_server_clock_witness :
  (Client.expectedOffsetOf Demo.playingParty 3500
   == currentOffsetSec Demo.playingParty 3500)%Q
  /\ (0 <= Client.expectedOffsetOf Demo.playingParty 3500)%Q.
Proof.
  apply (@client_clock_is_server_clock Demo.playing Demo.playingParty 3500).
  - exact demo_playing_reachable.
  - vm_compute. left. reflexivity.
  - discriminate.
  - intros startedAt [= <-]. lia.
Defined.

(** ** Play, pause and resume *)

(** X17. Play from an explicit offset, then read the position.  After a
    successful PLAY with a finite offset [x >= 0] at a time other than
    the epoch, the stored party is PLAYING from [x] since that time, and
    [d] milliseconds later the position is [x + d/1000] seconds, on the
    server and on the page. *)
Theorem play_then_position
    (env : Env) (code participantId action : string) (x : Q) (w w' : World)
    (payload : PlaybackPayload) (d : Z) :
  toUpperCase action = "PLAY" ->
  (0 <= x)%Q -> now env <> 0 -> 0 <= d ->
  postPlayback env code participantId action (Finite x) w = (json 200 payload, w') ->
  payload = mkPlaybackPayload PLAYING (Some (now env)) x
  /\ exists party,
       findParty (db w') (toUpperCase code) = Some party
       /\ Party.playbackStatus party = PLAYING
       /\ Party.playbackStartedAt party = Some (now env)
       /\ Party.playbackOffsetSec party = x
       /\ (currentOffsetSec party (now env + d) == x + Qmake d 1000)%Q
       /\ (Client.expectedOffsetOf party (now env + d) == x + Qmake d 1000)%Q.
Proof.
  intros Ha Hx Hnow Hd. rewrite postPlayback_run. cbv zeta. rewrite Ha.
  destruct (not_ participantId || not_ "PLAY"); [discriminate|].
  destruct (findParty (db w) (toUpperCase code)) as [party|] eqn:Ef; [|discriminate].
  destruct (Party.status party); [|discriminate].
  destruct (negb _); [discriminate|].
  cbn [playbackAction String.eqb Ascii.eqb Bool.eqb offsetFrom].
  rewrite (max0_id Hx).
  intros H. inversion H; subst payload w'; clear H. split; [reflexivity|].
  exists (setPlayback PLAYING (Some (now env)) x party). cbn [db].
  split; [now apply findParty_updateParty|].
  split; [reflexivity|]. split; [reflexivity|]. split; [reflexivity|].
  assert (He : (0 <= Qmake (now env + d - now env) 1000)%Q)
    by (apply elapsed_nonneg; lia).
  assert (Hd' : (Qmake (now env + d - now env) 1000 == Qmake d 1000)%Q)
    by (replace (now env + d - now env) with d by lia; reflexivity).
  unfold currentOffsetSec, Client.expectedOffsetOf, Client.getExpectedOffsetSec.
  cbn [setPlayback Party.playbackStatus Party.playbackStartedAt
       Party.playbackOffsetSec option_map].
  destruct (Z.eqb_spec (now env) 0) as [E|_]; [contradiction|].
  rewrite (max0_id He). split; [now rewrite Hd'|].
  assert (Hsum : (0 <= x + (inject_Z (now env + d) - inject_Z (now env)) / 1000)%Q)
    by (apply Qplus_nonneg; [exact Hx|now rewrite elapsed_seconds]).
  rewrite (max0_id Hsum). now rewrite elapsed_seconds, Hd'.
Qed.

Lemma play_then_position_witness :
  let env := Demo.env [] 1000 in
  let w' := snd (postPlayback env "abcdef" "h1" "play" (Finite 30) Demo.world) in
  mkPlaybackPayload PLAYING (Some 1000) 30 = mkPlaybackPayload PLAYING (Some (now env)) 30
  /\ exists party,
       findParty (db w') (toUpperCase "abcdef") = Some party
       /\ Party.playbackStatus party = PLAYING
       /\ Party.playbackStartedAt party = Some (now env)
       /\ Party.playbackOffsetSec party = 30%Q
       /\ (currentOffsetSec party (now env + 2500) == 30 + Qmake 2500 1000)%Q
       /\ (Client.expectedOffsetOf party (now env + 2500) == 30 + Qmake 2500 1000)%Q.
Proof.
  intros env w'.
  apply (@play_then_position env "abcdef" "h1" "play" 30%Q Demo.world w'
           (mkPlaybackPayload PLAYING (Some 1000) 30) 2500).
  - reflexivity.
  - discriminate.
  - discriminate.
  - lia.
  - vm_compute. reflexivity.
Defined.



(** ** Play next *)

Lemma findIndex_from_found {A} (p : A -> bool) (l : list A) (k : Z) (x : A) :
  find p l = Some x ->
  exists i : nat,
    Client.findIndex_from p l k = k + Z.of_nat i /\ nth_error l i = Some x.
Proof.
  revert k. induction l as [|a l IH]; intros k H; [discriminate|].
  simpl in *. destruct (p a).
  - exists 0%nat. split; [lia|exact H].
  - destruct (IH (k + 1) H) as [i [Hi Hn]]. exists (S i). split; [lia|exact Hn].
Qed.

Lemma findIndex_from_none {A} (p : A -> bool) (l : list A) (k : Z) :
  find p l = None -> Client.findIndex_from p l k = -1.
Proof.
  revert k. induction l as [|a l IH]; intros k H; [reflexivity|].
  simpl in *. destruct (p a); [discriminate|now apply IH].
Qed.

Lemma nth_position {A} (key : A -> Z) (l : list A) (i : nat) (x : A) :
  map key l = oneTo (List.length l) -> nth_error l i = Some x ->
  key x = Z.of_nat i + 1.
Proof.
  intros Hk Hx.
  assert (Hlt : (i < List.length l)%nat)
    by (apply nth_error_Some; congruence).
  assert (Hn : nth_error (map key l) i = Some (key x)) by now apply map_nth_error.
  rewrite Hk in Hn. unfold oneTo in Hn.
  apply nth_error_nth with (d := 0) in Hn.
  rewrite <- Hn.
  change 0 with (Z.of_nat 0). rewrite map_nth, seq_nth by exact Hlt. lia.
Qed.

Lemma at_nat {A} (l : list A) (i : nat) : Client.at_ l (Z.of_nat i) = nth_error l i.
Proof.
  unfold Client.at_. destruct (Z.ltb_spec (Z.of_nat i) 0); [lia|].
  now rewrite Nat2Z.id.
Qed.

(** X19. Play next walks the queue in order and wraps around.  On the
    snapshot of a party with songs, in a state the server reaches,
    [onPlayNext] asks for a song that the party has: the first song when
    no song is current, and otherwise the song that follows the current
    one in queue position, or the first song after the last. *)
Theorem play_next_cycles (w : World) (party : Party.t) :
  reachable w -> In party (parties (db w)) ->
  party_songs (db w) party <> [] ->
  let snapshot := snapshotOf (db w) party in
  let n := Z.of_nat (List.length (snap_songs snapshot)) in
  exists next,
    Client.playNext snapshot = Some next
    /\ hasSong (db w) (Party.id party) (Song.id (ss_song next)) = true
    /\ Song.queuePosition (ss_song next)
       = match Client.currentSong snapshot with
         | Some current => Song.queuePosition (ss_song current) mod n + 1
         | None => 1
         end.
Proof.
  intros Hr Hin Hne snapshot n. assert (HI := reachable_Inv Hr).
  assert (HC := reachable_Consistent Hr).
  assert (Hsongs := snapshot_songs party HI). fold snapshot in Hsongs.
  assert (Hpos : map (fun s => Song.queuePosition (ss_song s)) (snap_songs snapshot)
                 = oneTo (List.length (snap_songs snapshot))).
  { rewrite Hsongs, map_map, length_map. cbn [ss_song].
    exact (inv_positions HI (Party.id party)). }
  assert (Hhas : forall s, In s (snap_songs snapshot) ->
                   hasSong (db w) (Party.id party) (Song.id (ss_song s)) = true).
  { intros s Hs. rewrite Hsongs in Hs. apply in_map_iff in Hs.
    destruct Hs as [song [<- Hsong]]. cbn [ss_song].
    apply filter_In in Hsong. destruct Hsong as [Hsong Hp].
    unfold hasSong. destruct (find _ (songs (db w))) eqn:E; [reflexivity|].
    apply (find_none _ _ E) in Hsong. now rewrite String.eqb_refl, Hp in Hsong. }
  assert (Hlen : (0 < List.length (snap_songs snapshot))%nat).
  { rewrite Hsongs, length_map. destruct (party_songs (db w) party);
      [congruence|simpl; lia]. }
  assert (Hfirst : exists first, nth_error (snap_songs snapshot) 0 = Some first).
  { destruct (snap_songs snapshot) as [|first rest]; [simpl in Hlen; lia|].
    now exists first. }
  destruct Hfirst as [first Hfirst].
  unfold Client.playNext, Client.currentSong. fold snapshot.
  destruct (Nat.eqb_spec (List.length (snap_songs snapshot)) 0) as [E|_]; [lia|].
  change (snap_party snapshot) with party.
  destruct (Party.currentSongId party) as [c|] eqn:Ec.
  - rewrite (@con_current_set _ HC party c Hin Ec).
    cbn [Client.isCurrent].
    destruct (@con_current _ HC party c Hin Ec) as [song [Hs [Hid Hp]]].
    destruct (find (fun s => Song.id (ss_song s) =? c) (snap_songs snapshot))
      as [current|] eqn:Ef.
    + destruct (@findIndex_from_found _ _ _ 0 _ Ef) as [i [Hi Hn]].
      unfold Client.findIndex. rewrite Hi.
      replace (0 + Z.of_nat i + 1) with (Z.of_nat (S i)) by lia.
      rewrite at_nat. rewrite (nth_position _ _ i Hpos Hn).
      assert (Hlt : (i < List.length (snap_songs snapshot))%nat)
        by (apply nth_error_Some; congruence).
      destruct (nth_error (snap_songs snapshot) (S i)) as [next|] eqn:En.
      * exists next. split; [reflexivity|].
        split; [apply Hhas; now apply nth_error_In with (n := S i)|].
        rewrite (nth_position _ _ (S i) Hpos En).
        assert (HSlt : (S i < List.length (snap_songs snapshot))%nat)
          by (apply nth_error_Some; congruence).
        rewrite Z.mod_small by (unfold n; lia). lia.
      * exists first. change 0 with (Z.of_nat 0). rewrite at_nat.
        split; [exact Hfirst|].
        split; [apply Hhas; now apply nth_error_In with (n := 0%nat)|].
        rewrite (nth_position _ _ 0 Hpos Hfirst).
        apply nth_error_None in En.
        replace (Z.of_nat i + 1) with n by (unfold n; lia).
        rewrite Z.mod_same by (unfold n; lia). reflexivity.
    + exfalso.
      assert (Hm : In (mkSnapshotSong song (countVotes (db w) (Song.id song))
                         (map Vote.participantId (song_votes (db w) song)))
                      (snap_songs snapshot)).
      { rewrite Hsongs. apply in_map_iff. exists song. split; [reflexivity|].
        apply filter_In. split; [exact Hs|now apply String.eqb_eq]. }
      apply (find_none _ _ Ef) in Hm. cbn [ss_song] in Hm.
      rewrite Hid, String.eqb_refl in Hm. discriminate Hm.
  - cbn [Client.isCurrent]. unfold Client.findIndex.
    rewrite findIndex_from_none
      by (apply find_all_false; reflexivity).
    change (-1 + 1) with (Z.of_nat 0).
    rewrite at_nat, Hfirst. exists first. split; [reflexivity|].
    split; [apply Hhas; now apply nth_error_In with (n := 0%nat)|].
    now rewrite (nth_position _ _ 0 Hpos Hfirst).
Qed.

Lemma play_next_cycles_witness :
  let w := snd (postCurrentSong "abcdef" "h1" "s2" Demo.world) in
  let party := Party.mk "p1" "ABCDEF" "Friday" (Some "h1") (Some 2) None (Some "s2")
                 ACTIVE PAUSED None 0%Q 100 None in
  let snapshot := snapshotOf (db w) party in
  let n := Z.of_nat (List.length (snap_songs snapshot)) in
  exists next,
    Client.playNext snapshot = Some next
    /\ hasSong (db w) (Party.id party) (Song.id (ss_song next)) = true
    /\ Song.queuePosition (ss_song next)
       = match Client.currentSong snapshot with
         | Some current => Song.queuePosition (ss_song current) mod n + 1
         | None => 1
         end.
Proof.
  intros w party.
  apply (@play_next_cycles w party).
  - apply (@served_reachable (Demo.env [] 0) (SetCurrentItem "abcdef" "h1" "s2")
             Demo.world).
    exact demo_reachable.
  - vm_compute. left. reflexivity.
  - vm_compute. discriminate.
Defined.

(** ** Who may call what *)

Lemma isHostOf_other (d : Db) (party : Party.t) (participantId : Id) :
  Consistent d -> In party (parties d) ->
  Party.hostParticipantId party <> Some participantId ->
  isHostOf d (Party.id party) participantId = false.
Proof.
  intros HC Hin Hne.
  destruct (isHostOf d (Party.id party) participantId) eqn:E; [|reflexivity].
  exfalso. apply Hne. now apply (@isHostOf_spec d party participantId HC Hin).
Qed.

(** X20. Only the host controls the party.  In a state the server
    reaches, SetCurrentItem, SetPlayback and EndSession on behalf of
    anyone but the host of the party fail and leave the world as it was:
    nothing is written and nothing is published.  When the required
    fields are there and the party is active, the answer is 403. *)
Theorem only_host_controls
    (env : Env) (call : Call) (w : World) (room : string) (party : Party.t)
    (participantId : Id) :
  reachable w ->
  roomOf call = Some room -> findParty (db w) room = Some party ->
  hostCall call = Some participantId ->
  Party.hostParticipantId party <> Some participantId ->
  snd (serve env call w) = w
  /\ exists status message,
       failure (fst (serve env call w)) = Some (status, message)
       /\ (requiredFields call = true -> Party.status party = ACTIVE ->
           status = 403).
Proof.
  intros Hr Hroom Hf Hcall Hne. assert (HC := reachable_Consistent Hr).
  destruct (findParty_In _ _ Hf) as [Hin _].
  assert (Hh := @isHostOf_other (db w) party participantId HC Hin Hne).
  destruct call; try discriminate Hcall; cbn [hostCall] in Hcall;
    cbn [roomOf] in Hroom; injection Hcall as ->; injection Hroom as <-;
    cbn [serve on fst snd requiredFields].
  - rewrite postCurrentSong_run. cbv zeta.
    destruct (not_ participantId || not_ songId);
      [split; [reflexivity|]; do 2 eexists; split; [reflexivity|discriminate]|].
    rewrite Hf, Hh.
    destruct (Party.status party);
      (split; [reflexivity|]; do 2 eexists; split; [reflexivity|]);
      [reflexivity|discriminate].
  - rewrite postPlayback_run. cbv zeta.
    destruct (not_ participantId || not_ (toUpperCase action));
      [split; [reflexivity|]; do 2 eexists; split; [reflexivity|discriminate]|].
    rewrite Hf, Hh.
    destruct (Party.status party);
      (split; [reflexivity|]; do 2 eexists; split; [reflexivity|]);
      [reflexivity|discriminate].
  - rewrite postEnd_run. cbv zeta.
    destruct (not_ participantId);
      [split; [reflexivity|]; do 2 eexists; split; [reflexivity|discriminate]|].
    rewrite Hf, Hh.
    destruct (Party.status party);
      (split; [reflexivity|]; do 2 eexists; split; [reflexivity|]);
      [reflexivity|discriminate].
Qed.

Lemma only_host_controls_witness :
  let call := EndSession "abcdef" "g1" in
  snd (serve (Demo.env [] 300) call Demo.world) = Demo.world
  /\ exists status message,
       failure (fst (serve (Demo.env [] 300) call Demo.world))
       = Some (status, message)
       /\ (requiredFields call = true -> Party.status Demo.party = ACTIVE ->
           status = 403).
Proof.
  intros call.
  apply (@only_host_controls (Demo.env [] 300) call Demo.world "ABCDEF"
           Demo.party "g1").
  - exact demo_reachable.
  - reflexivity.
  - reflexivity.
  - reflexivity.
  - discriminate.
Defined.

(** X21. Only participants of the party add items and vote.  AddItem and
    ToggleVote on behalf of an identifier that no participant of the
    party has fail and leave the world as it was; when the required
    fields are there and the party is active, the answer is 403. *)
Theorem only_members_contribute
    (env : Env) (call : Call) (w : World) (room : string) (party : Party.t)
    (participantId : Id) :
  roomOf call = Some room -> findParty (db w) room = Some party ->
  memberCall call = Some participantId ->
  (forall m, In m (participants (db w)) ->
             Participant.partyId m = Party.id party ->
             Participant.id m <> participantId) ->
  snd (serve env call w) = w
  /\ exists status message,
       failure (fst (serve env call w)) = Some (status, message)
       /\ (requiredFields call = true -> Party.status party = ACTIVE ->
           status = 403).
Proof.
  intros Hroom Hf Hcall Hnone.
  assert (Hm : isMemberOf (db w) (Party.id party) participantId = false).
  { unfold isMemberOf. rewrite find_all_false; [reflexivity|].
    intros m Hin. cbv beta.
    destruct (String.eqb_spec (Participant.id m) participantId) as [E|E];
      [|reflexivity].
    destruct (String.eqb_spec (Participant.partyId m) (Party.id party)) as [E'|E'];
      [|reflexivity].
    exfalso. now apply (Hnone m Hin E'). }
  destruct call; try discriminate Hcall; cbn [memberCall] in Hcall;
    cbn [roomOf] in Hroom; injection Hcall as ->; injection Hroom as <-;
    cbn [serve on fst snd requiredFields].
  - rewrite postSongs_run. cbv zeta.
    destruct (not_ participantId || not_ (trim title) || not_ (trim artist));
      [split; [reflexivity|]; do 2 eexists; split; [reflexivity|discriminate]|].
    rewrite Hf, Hm.
    destruct (Party.status party);
      (split; [reflexivity|]; do 2 eexists; split; [reflexivity|]);
      [reflexivity|discriminate].
  - rewrite postVotes_run. cbv zeta.
    destruct (not_ participantId || not_ songId);
      [split; [reflexivity|]; do 2 eexists; split; [reflexivity|discriminate]|].
    rewrite Hf, Hm.
    destruct (Party.status party);
      (split; [reflexivity|]; do 2 eexists; split; [reflexivity|]);
      [reflexivity|discriminate].
Qed.

Lemma only_members_contribute_witness :
  let call := ToggleVote "abcdef" "x9" "s1" in
  snd (serve (Demo.env ["v9"] 300) call Demo.world) = Demo.world
  /\ exists status message,
       failure (fst (serve (Demo.env ["v9"] 300) call Demo.world))
       = Some (status, message)
       /\ (requiredFields call = true -> Party.status Demo.party = ACTIVE ->
           status = 403).
Proof.
  intros call.
  apply (@only_members_contribute (Demo.env ["v9"] 300) call Demo.world "ABCDEF"
           Demo.party "x9").
  - reflexivity.
  - reflexivity.
  - reflexivity.
  - intros m Hin _. vm_compute in Hin.
    destruct Hin as [<-|[<-|[]]]; discriminate.
Defined.

(** ** What no call undoes *)

Lemma sameParty_refl (p : Party.t) : sameParty p p.
Proof. repeat split. Qed.

Lemma sameParty_trans (p q r : Party.t) : sameParty p q -> sameParty q r -> sameParty p r.
Proof.
  unfold sameParty. intros (A1 & A2 & A3 & A4 & A5 & A6 & A7)
                           (B1 & B2 & B3 & B4 & B5 & B6 & B7).
  repeat split; congruence.
Qed.

Lemma Step_party_kept (d d' : Db) (room : string) (party : Party.t) :
  Step d d' -> findParty d room = Some party ->
  exists party', findParty d' room = Some party' /\ sameParty party party'.
Proof.
  intros Hs Hf.
  assert (Hup : forall id f,
            (forall p, Party.code (f p) = Party.code p) ->
            (forall p, sameParty p (f p)) ->
            exists party', findParty (updateParty id f d) room = Some party'
                           /\ sameParty party party').
  { intros id f Hc Hsame. rewrite findParty_updateParty_any by exact Hc.
    rewrite Hf. cbn [option_map].
    destruct (Party.id party =? id); eexists; split; try reflexivity;
      [apply Hsame|apply sameParty_refl]. }
  destruct Hs;
    try (exists party; split; [exact Hf|apply sameParty_refl]).
  - exists party. split; [|apply sameParty_refl].
    unfold findParty in *. cbn [parties]. now rewrite find_app, Hf.
  - apply Hup; [reflexivity|]. intros p. repeat split.
  - apply Hup; [reflexivity|]. intros p. repeat split.
  - apply Hup; [reflexivity|]. intros p. repeat split.
Qed.

(** X22. A party stays.  Whatever calls follow, a party found under a
    code is still found under that code, with the same identifier, code,
    name, host, capacity, duration and creation time: no handler deletes
    a party or rewrites what CreateSession fixed. *)
Theorem party_identity_kept
    (calls : list (Env * Call)) (w : World) (room : string) (party : Party.t) :
  findParty (db w) room = Some party ->
  exists party',
    findParty (db (snd (run calls w))) room = Some party'
    /\ sameParty party party'.
Proof.
  revert w party. induction calls as [|[env call] rest IH]; intros w party Hf.
  - exists party. split; [exact Hf|apply sameParty_refl].
  - rewrite run_cons. cbn [snd].
    destruct (Step_party_kept room (serve_Step env call w) Hf) as [q [Hq Hsame]].
    destruct (IH _ _ Hq) as [r [Hr Hsame']].
    exists r. split; [exact Hr|]. now apply sameParty_trans with q.
Qed.

Lemma party_identity_kept_witness :
  let calls := [(Demo.env [] 1000, SetPlayback "abcdef" "h1" "play" NaN);
                (Demo.env [] 2000, SetCurrentItem "abcdef" "h1" "s1");
                (Demo.env [] 3000, EndSession "abcdef" "h1")] in
  exists party',
    findParty (db (snd (run calls Demo.world))) "ABCDEF" = Some party'
    /\ sameParty Demo.party party'.
Proof.
  intros calls.
  apply (@party_identity_kept calls Demo.world "ABCDEF" Demo.party).
  reflexivity.
Defined.

Lemma Step_appends (d d' : Db) :
  Step d d' ->
  (exists l, map Party.id (parties d') = map Party.id (parties d) ++ l)
  /\ (exists l, participants d' = participants d ++ l)
  /\ (exists l, songs d' = songs d ++ l).
Proof.
  intros Hs.
  assert (Hup : forall id f, (forall p, Party.id (f p) = Party.id p) ->
            map Party.id (parties (updateParty id f d)) = map Party.id (parties d)).
  { intros id f Hid. cbn [updateParty parties]. now apply map_id_update. }
  destruct Hs; cbn [addParticipant addSong addVote deleteVote parties participants songs].
  - repeat split; exists []; now rewrite app_nil_r.
  - split; [eexists; apply map_app|].
    split; [now eexists|exists []; now rewrite app_nil_r].
  - split; [exists []; now rewrite app_nil_r|].
    split; [now eexists|exists []; now rewrite app_nil_r].
  - split; [exists []; now rewrite app_nil_r|].
    split; [exists []; now rewrite app_nil_r|now eexists].
  - repeat split; exists []; now rewrite app_nil_r.
  - repeat split; exists []; now rewrite app_nil_r.
  - rewrite Hup by reflexivity. repeat split; exists []; now rewrite app_nil_r.
  - rewrite Hup by reflexivity. repeat split; exists []; now rewrite app_nil_r.
  - rewrite Hup by reflexivity. repeat split; exists []; now rewrite app_nil_r.
Qed.

(** X23. The tables of parties, participants and songs only grow, at the
    end: after any run of calls the parties are the earlier ones, in
    order and under their identifiers, followed by new ones, and the
    participants and the songs are the earlier rows, unchanged and in
    order, followed by new ones.  No handler deletes or rewrites a
    participant or a song. *)
Theorem rows_are_kept (calls : list (Env * Call)) (w : World) :
  (exists l, map Party.id (parties (db (snd (run calls w))))
             = map Party.id (parties (db w)) ++ l)
  /\ (exists l, participants (db (snd (run calls w))) = participants (db w) ++ l)
  /\ (exists l, songs (db (snd (run calls w))) = songs (db w) ++ l).
Proof.
  revert w. induction calls as [|[env call] rest IH]; intros w.
  - repeat split; exists []; now rewrite app_nil_r.
  - rewrite run_cons. cbn [snd].
    destruct (Step_appends (serve_Step env call w))
      as ([l1 H1] & [l2 H2] & [l3 H3]).
    destruct (IH (snd (serve env call w))) as ([k1 K1] & [k2 K2] & [k3 K3]).
    split; [|split].
    + exists (l1 ++ k1). now rewrite K1, H1, app_assoc.
    + exists (l2 ++ k2). now rewrite K2, H2, app_assoc.
    + exists (l3 ++ k3). now rewrite K3, H3, app_assoc.
Qed.




(** X25. In every state the server reaches, a snapshot never shows more
    songs than the capacity of its party, when it has one. *)
Theorem capacity_never_exceeded (w : World) (party : Party.t) (maxSongs : Z) :
  reachable w -> In party (parties (db w)) ->
  Party.maxSongs party = Some maxSongs ->
  Z.of_nat (List.length (snap_songs (snapshotOf (db w) party))) <= Z.max 0 maxSongs.
Proof.
  intros Hr Hin Hmax. assert (HI := reachable_Inv Hr).
  assert (HC := reachable_Consistent Hr).
  rewrite (snapshot_songs party HI), length_map.
  exact (@con_capacity _ HC party maxSongs Hin Hmax).
Qed.

Lemma capacity_never_exceeded_witness :
  Z.of_nat (List.length (snap_songs (snapshotOf (db Demo.world) Demo.party)))
  <= Z.max 0 2.
Proof.
  apply (@capacity_never_exceeded Demo.world Demo.party 2).
  - exact demo_reachable.
  - vm_compute. left. reflexivity.
  - reflexivity.
Defined.

(** X26. In every state the server reaches, a party has an end time
    exactly when its status is ENDED. *)
Theorem ended_iff_end_time (w : World) (party : Party.t) :
  reachable w -> In party (parties (db w)) ->
  (Party.endedAt party <> None <-> Party.status party = ENDED).
Proof.
  intros Hr Hin. exact (@con_ended _ (reachable_Consistent Hr) party Hin).
Qed.

Lemma ended_iff_end_time_witness :
  Party.endedAt (endParty 200 Demo.party) <> None
  <-> Party.status (endParty 200 Demo.party) = ENDED.
Proof.
  apply (@ended_iff_end_time Demo.ended (endParty 200 Demo.party)).
  - apply (@served_reachable (Demo.env [] 200) (EndSession "abcdef" "h1") Demo.world).
    exact demo_reachable.
  - vm_compute. left. reflexivity.
Defined.

(** ** What CreateSession stores *)

Lemma intArg_stored (given : option Number) (stored : option Z) :
  intArg (parseOptionalNumber given) = Some stored -> storedAs given stored.
Proof.
  destruct given as [[| | |q]|]; cbn [parseOptionalNumber intArg storedAs];
    try (now intros [= <-]).
  destruct (Pos.eqb_spec (Qden (Qred q)) 1) as [E|E]; [|discriminate].
  intros [= <-]. exists (Qnum (Qred q)). split; [reflexivity|].
  rewrite <- (Qred_correct q) at 2.
  destruct (Qred q) as [n den]. cbn [Qnum Qden] in *. subst den. reflexivity.
Qed.

(** X27. What a successful CreateSession answers.  The names are the
    trimmed ones and not empty; the party is active, with no current
    song, no end time and the clock paused at 0; its code is six
    characters of the alphabet; a finite capacity or duration of the
    request is stored as that integer, and one that is null, blank or not
    finite as null; the participant is the host of the party. *)
Theorem created_party_settings
    (env : Env) (name hostName : string) (maxSongs durationMinutes : option Number)
    (w w' : World) (party : Party.t) (participant : Participant.t) :
  postParties env name hostName maxSongs durationMinutes w
  = (json 201 (party, participant), w') ->
  (Party.name party = trim name /\ not_ (Party.name party) = false)
  /\ (Participant.name participant = trim hostName
      /\ not_ (Participant.name participant) = false)
  /\ Participant.isHost participant = true
  /\ Participant.partyId participant = Party.id party
  /\ codeOk (Party.code party) = true
  /\ Party.status party = ACTIVE
  /\ Party.currentSongId party = None
  /\ Party.endedAt party = None
  /\ (Party.playbackStatus party = PAUSED
      /\ Party.playbackStartedAt party = None
      /\ Party.playbackOffsetSec party = 0%Q)
  /\ storedAs maxSongs (Party.maxSongs party)
  /\ storedAs durationMinutes (Party.durationMinutes party).
Proof.
  rewrite postParties_run.
  destruct (not_ (trim name)) eqn:En; [discriminate|].
  destruct (not_ (trim hostName)) eqn:Eh; [discriminate|]. cbn [orb].
  destruct (freshCode env (db w) 10 0) as [code|] eqn:Ecode; [|discriminate].
  destruct (intArg (parseOptionalNumber maxSongs)) as [ms|] eqn:Ems; [|discriminate].
  destruct (intArg (parseOptionalNumber durationMinutes)) as [dm|] eqn:Edm;
    [|discriminate].
  cbv zeta.
  destruct (partyClash (db w) _); [discriminate|].
  destruct (participantClash (db w) _); [discriminate|].
  intros H. inversion H; subst party participant w'; clear H.
  destruct (@freshCode_spec _ _ _ _ _ Ecode) as [Hok _].
  cbn [newParty Party.name Party.code Party.status Party.currentSongId Party.endedAt
       Party.playbackStatus Party.playbackStartedAt Party.playbackOffsetSec
       Party.maxSongs Party.durationMinutes Party.id
       Participant.name Participant.isHost Participant.partyId].
  repeat split; try assumption; now apply intArg_stored.
Qed.

Lemma created_party_settings_witness :
  let env := Demo.env ["p1"; "h1"] 100 in
  let party := newParty env "ABCDEF" "Friday" (Some 2) None in
  let participant := Participant.mk "h1" "p1" "Host" true 100 in
  (Party.name party = trim " Friday " /\ not_ (Party.name party) = false)
  /\ (Participant.name participant = trim "Host"
      /\ not_ (Participant.name participant) = false)
  /\ Participant.isHost participant = true
  /\ Participant.partyId participant = Party.id party
  /\ codeOk (Party.code party) = true
  /\ Party.status party = ACTIVE
  /\ Party.currentSongId party = None
  /\ Party.endedAt party = None
  /\ (Party.playbackStatus party = PAUSED
      /\ Party.playbackStartedAt party = None
      /\ Party.playbackOffsetSec party = 0%Q)
  /\ storedAs (Some (Finite 2)) (Party.maxSongs party)
  /\ storedAs (Some NaN) (Party.durationMinutes party).
Proof.
  intros env party participant.
  apply (@created_party_settings env " Friday " "Host" (Some (Finite 2)) (Some NaN)
           initialWorld
           (snd (postParties env " Friday " "Host" (Some (Finite 2)) (Some NaN)
                   initialWorld))
           party participant).
  vm_compute. reflexivity.
Defined.

(** ** EndSession, await by await *)

Lemma run_findParty (calls : list (Env * Call)) (w : World) (room : string)
    (party : Party.t) :
  findParty (db w) room = Some party ->
  exists party',
    findParty (db (snd (run calls w))) room = Some party'
    /\ Party.id party' = Party.id party.
Proof.
  revert w party. induction calls as [|[env call] rest IH]; intros w party Hf.
  - now exists party.
  - rewrite run_cons. cbn [snd].
    destruct (Step_party_kept room (serve_Step env call w) Hf) as [q [Hq Hsame]].
    destruct (IH _ _ Hq) as [r [Hr Hid]].
    exists r. split; [exact Hr|]. destruct Hsame as [Hqid _]. congruence.
Qed.

Lemma postEnd_around_run (env : Env) (code participantId : string)
    (b1 b2 b3 b4 : list (Env * Call)) (w : World) :
  postEnd_around env code participantId b1 b2 b3 b4 w =
  let room := toUpperCase code in
  if not_ participantId then (error 400 "participantId is required", w)
  else
    match findParty (db w) room with
    | None => (error 404 "Party not found", w)
    | Some party =>
        match Party.status party with
        | ENDED => (error 409 "Party already ended", w)
        | ACTIVE =>
            let w1 := snd (run b1 w) in
            if negb (isHostOf (db w1) (Party.id party) participantId) then
              (error 403 "Only host can end party", w1)
            else
              let w2 := snd (run b2 w1) in
              let standings :=
                standingsOf (orderBy Song.queuePosition (party_songs (db w) party))
                            (voteCountMapOf (db w2) party) in
              let payload := mkEndPayload (winnerOf standings) standings in
              let w3 := snd (run b3 w2) in
              match partyById (db w3) (Party.id party) with
              | None => (error 500 "Failed to end party", w3)
              | Some _ =>
                  let w4 :=
                    snd (run b4
                           (mkWorld
                              (updateParty (Party.id party) (endParty (now env))
                                           (db w3))
                              (log w3 ++ [DbWrite TParty;
                                          Emit room (party_ended payload);
                                          Emit room (party_state_updated None ENDED)])))
                  in
                  (json 200 payload,
                   mkWorld (db w4) (log w4 ++ snapshotEmits (db w4) room))
              end
        end
    end.
Proof.
  unfold postEnd_around, serving, voteCountMapOf, snapshotEmits, partyById,
    isHostOf, findParty.
  unfold_calls. unfold_monad. reduce.
  destruct (not_ participantId); [reflexivity|].
  destruct (find _ (parties (db w))) as [party|]; [|reflexivity].
  destruct (Party.status party); [|reflexivity].
  destruct (find _ (participants (db (snd (run b1 w))))); reduce; [|reflexivity].
  destruct (find _ (parties (db (snd (run b3 _))))); reduce; [|reflexivity].
  unfold updateParty. reduce. rewrite <- !app_assoc. cbn [app].
  destruct (snd (run b4 _)) as [d4 l4]. reduce.
  destruct (find _ (parties d4)); reduce; rewrite ?app_nil_r; reflexivity.
Qed.

(** Served with nothing in between, this is the handler. *)
Lemma postEnd_around_nil (env : Env) (code participantId : string) (w : World) :
  postEnd_around env code participantId [] [] [] [] w
  = postEnd env code participantId w.
Proof.
  rewrite postEnd_around_run, postEnd_run. cbv zeta. cbn [run snd].
  destruct (not_ participantId); [reflexivity|].
  destruct (findParty (db w) (toUpperCase code)) as [party|] eqn:Ef; [|reflexivity].
  destruct (Party.status party); [|reflexivity].
  destruct (negb _); [reflexivity|].
  destruct (find_id_of_code _ _ Ef) as [row Hrow]. unfold partyById.
  rewrite Hrow. unfold endPayloadOf. cbn [db log]. now rewrite <- app_assoc.
Qed.

(** A vote that lands between the count of the votes and the update of
    EndSession: the standings were counted without it, the snapshot
    published after them shows it. *)
Example standings_stale_after_vote :
  exists payload w' party,
    postEnd_around (Demo.env [] 200) "abcdef" "h1" [] []
      [(Demo.env ["v2"] 150, ToggleVote "abcdef" "h1" "s1")] [] Demo.world
    = (json 200 payload, w')
    /\ findParty (db w') "ABCDEF" = Some party
    /\ map (fun s => (e_songId (st_song s), e_voteCount (st_song s)))
           (finalStandings payload)
       = [("s2", 1); ("s1", 0)]
    /\ map (fun s => (Song.id (ss_song s), ss_voteCount s))
           (snap_songs (snapshotOf (db w') party))
       = [("s1", 1); ("s2", 1)].
Proof.
  do 3 eexists. split; [vm_compute; reflexivity|].
  split; [vm_compute; reflexivity|]. split; reflexivity.
Qed.

(** X10. The standings of a successful EndSession and the snapshot
    published after them agree when the calls served during the handler
    write no song and no vote: the songs and the votes are the same when
    the party is read, when the votes are counted and when the snapshot is
    read, whatever else is served at the awaits of the handler; so they
    agree whenever the calls are served one at a time.  The party found
    under the code is then ENDED, and the entries of the standings are,
    one for one, the songs of its snapshot, each with the identifier,
    title, artist, queue position and vote count that the snapshot
    shows. *)
Theorem standings_match_snapshot
    (env : Env) (code participantId : string)
    (beforeHost beforeCount beforeUpdate beforeSnapshot : list (Env * Call))
    (w w' : World) (payload : EndPayload) :
  reachable w ->
  postEnd_around env code participantId
    beforeHost beforeCount beforeUpdate beforeSnapshot w
  = (json 200 payload, w') ->
  let counted := snd (run beforeCount (snd (run beforeHost w))) in
  votes (db counted) = votes (db w) ->
  songs (db w') = songs (db w) ->
  votes (db w') = votes (db w) ->
  exists party,
    findParty (db w') (toUpperCase code) = Some party
    /\ Party.status party = ENDED
    /\ Permutation (map st_song (finalStandings payload))
                   (map shownEntry (snap_songs (snapshotOf (db w') party))).
Proof.
  intros Hr H counted Hcounted Hsongs Hvotes. assert (HI := reachable_Inv Hr).
  assert (HC := reachable_Consistent Hr).
  rewrite postEnd_around_run in H. cbv zeta in H.
  destruct (not_ participantId); [discriminate|].
  destruct (findParty (db w) (toUpperCase code)) as [party|] eqn:Ef; [|discriminate].
  destruct (Party.status party); [|discriminate].
  destruct (negb _); [discriminate|].
  fold counted in H.
  set (w3 := snd (run beforeUpdate counted)) in *.
  destruct (partyById (db w3) (Party.id party)); [|discriminate].
  set (ended := mkWorld (updateParty (Party.id party) (endParty (now env)) (db w3)) _)
    in H.
  set (w4 := snd (run beforeSnapshot ended)) in *.
  inversion H as [[Hpayload Hw']]. clear H. rewrite <- Hw' in *. cbn [db] in *.
  assert (HI3 : Inv (db w3)) by (unfold w3, counted; now repeat apply run_Inv).
  assert (HI4 : Inv (db w4)).
  { unfold w4. apply run_Inv. unfold ended. cbn [db].
    apply Inv_updateParty; auto. }
  destruct (@run_findParty (beforeHost ++ beforeCount ++ beforeUpdate) w
              (toUpperCase code) party Ef) as [party3 [Hf3 Hid3]].
  assert (Hruns : snd (run (beforeHost ++ beforeCount ++ beforeUpdate) w) = w3).
  { unfold w3, counted. clear. revert w.
    assert (Happ : forall l1 l2 w0,
              snd (run (l1 ++ l2) w0) = snd (run l2 (snd (run l1 w0)))).
    { induction l1 as [|[e c] l1 IH]; intros l2 w0; [reflexivity|].
      rewrite <- app_comm_cons, !run_cons. cbn [snd]. apply IH. }
    intros w. now rewrite !Happ. }
  rewrite Hruns in Hf3.
  assert (Hfe : findParty (db ended) (toUpperCase code)
                = Some (endParty (now env) party3)).
  { unfold ended. cbn [db]. rewrite <- Hid3. now apply findParty_updateParty. }
  assert (HE : isEnded (db w4) (toUpperCase code)).
  { unfold w4. apply run_isEnded. exists (endParty (now env) party3).
    split; [exact Hfe|reflexivity]. }
  destruct (@run_findParty beforeSnapshot ended (toUpperCase code) _ Hfe)
    as [party4 [Hf4 Hid4]].
  fold w4 in Hf4. cbn [endParty Party.id] in Hid4.
  destruct HE as [party4' [Hf4' He4]].
  assert (party4' = party4) by congruence. subst party4'.
  exists party4. split; [exact Hf4|]. split; [exact He4|].
  rewrite (snapshot_songs party4 HI4), map_map.
  cbn [finalStandings].
  rewrite (orderBy_songs party HI).
  assert (Hmapof : voteCountMapOf (db counted) party = voteCountMapOf (db w) party)
    by (unfold voteCountMapOf; now rewrite Hcounted).
  rewrite Hmapof.
  destruct (standingsOf_spec (party_songs (db w) party) (voteCountMapOf (db w) party))
    as (_ & Hp & _). cbv zeta in Hp.
  eapply perm_trans; [exact Hp|].
  assert (Hps : party_songs (db w4) party4 = party_songs (db w) party).
  { unfold party_songs. now rewrite Hsongs, Hid4, Hid3. }
  rewrite Hps.
  assert (Hmap : map (entryOf (voteCountMapOf (db w) party)) (party_songs (db w) party)
                 = map (fun song =>
                          shownEntry
                            (mkSnapshotSong song
                               (countVotes (db w4) (Song.id song))
                               (map Vote.participantId (song_votes (db w4) song))))
                       (party_songs (db w) party)).
  { apply map_ext_in. intros song Hsong. rewrite entryOf_itemEntry.
    unfold itemEntry, shownEntry. cbn [ss_song ss_voteCount]. f_equal.
    rewrite (votesFor_count party song HI HC Hsong).
    unfold countVotes, song_votes. now rewrite Hvotes. }
  rewrite Hmap. apply Permutation_refl.
Qed.

(** EndSession on the demo party, with a read served before the host is
    looked up, a Play before the update and a read before the snapshot. *)
Lemma standings_match_snapshot_witness :
  let payload := endPayloadOf (db Demo.world) Demo.party in
  let w' := snd (postEnd_around (Demo.env [] 200) "abcdef" "h1"
                   [(Demo.env [] 150, GetSnapshot "abcdef")] []
                   [(Demo.env [] 160, SetPlayback "abcdef" "h1" "play" NaN)]
                   [(Demo.env [] 210, GetSnapshot "abcdef")] Demo.world) in
  exists party,
    findParty (db w') (toUpperCase "abcdef") = Some party
    /\ Party.status party = ENDED
    /\ Permutation (map st_song (finalStandings payload))
                   (map shownEntry (snap_songs (snapshotOf (db w') party))).
Proof.
  intros payload w'.
  apply (@standings_match_snapshot (Demo.env [] 200) "abcdef" "h1"
           [(Demo.env [] 150, GetSnapshot "abcdef")] []
           [(Demo.env [] 160, SetPlayback "abcdef" "h1" "play" NaN)]
           [(Demo.env [] 210, GetSnapshot "abcdef")]
           Demo.world w' payload).
  - exact demo_reachable.
  - vm_compute. reflexivity.
  - reflexivity.
  - reflexivity.
  - reflexivity.
Defined.
